(** * signalk-charts-provider-simple: chart discovery, tile resolution and
      the download job manager

    A shallow embedding of [src/charts-loader.js] (chart discovery and the
    three metadata parsers), of [serveTileFromFilesystem] from the plugin
    entry file, and of the [DownloadManager] class, followed by the
    properties of the specification settled against them.

    Conventions.  JavaScript strings are modelled as Rocq byte strings;
    JavaScript numbers are IEEE 754 binary64 values ([spec_float] of the
    standard library with precision 53 and exponent bound 1024); objects
    that the program mutates through several references (download jobs) live
    in an explicit store and are named by their address. *)

From Stdlib Require Import ZArith Ascii Floats.SpecFloat.
From stdpp Require Import gmap strings list fin_maps.

Open Scope string_scope.
Open Scope list_scope.

(** ** JavaScript strings *)

Module Str.

Definition chars (s : string) : list ascii := String.list_ascii_of_string s.
Definition of_chars (l : list ascii) : string := String.string_of_list_ascii l.

Fixpoint prefix_of (p l : list ascii) : bool :=
  match p, l with
  | [], _ => true
  | _ :: _, [] => false
  | a :: p', b :: l' => if decide (a = b) then prefix_of p' l' else false
  end.

(** [String.prototype.startsWith], [endsWith] and [includes]. *)
Definition startsWith (s p : string) : bool := prefix_of (chars p) (chars s).

Definition endsWith (s p : string) : bool :=
  prefix_of (rev (chars p)) (rev (chars s)).

Fixpoint infix_of (p l : list ascii) : bool :=
  prefix_of p l || match l with [] => false | _ :: l' => infix_of p l' end.

Definition includes (s p : string) : bool := infix_of (chars p) (chars s).

(** White space and line terminators that lie in the byte range: TAB, LF,
    VT, FF, CR and SP. *)
Definition is_space (c : ascii) : bool :=
  let n := nat_of_ascii c in
  (Nat.leb 9 n && Nat.leb n 13) || Nat.eqb n 32.

Fixpoint drop_spaces (l : list ascii) : list ascii :=
  match l with
  | c :: l' => if is_space c then drop_spaces l' else l
  | [] => []
  end.

Definition trimStart (s : string) : string := of_chars (drop_spaces (chars s)).

(** [String.prototype.trim] (and lodash's [_.trim] on a string). *)
Definition trim (s : string) : string :=
  of_chars (rev (drop_spaces (rev (drop_spaces (chars s))))).

(** [s.split(sep)] for a one-character separator: the pieces between the
    occurrences of [sep]; the empty string gives one empty piece. *)
Fixpoint split_chars (sep : ascii) (l : list ascii) : list (list ascii) :=
  match l with
  | [] => [[]]
  | c :: l' =>
      if decide (c = sep) then [] :: split_chars sep l'
      else match split_chars sep l' with
           | [] => [[c]]
           | p :: ps => (c :: p) :: ps
           end
  end.

Definition split (sep : ascii) (s : string) : list string :=
  of_chars <$> split_chars sep (chars s).

(** [Array.prototype.join]. *)
Fixpoint join (sep : string) (l : list string) : string :=
  match l with
  | [] => ""
  | [s] => s
  | s :: l' => s +:+ sep +:+ join sep l'
  end.

(** Truthiness of a string: every string but the empty one. *)
Definition truthy (s : string) : bool :=
  match s with EmptyString => false | _ => true end.

End Str.

(** ** Node's [path] module, POSIX flavour *)

Module Path.

Definition slash : ascii := "/"%char.

(** [normalizeString]: drops empty and [.] segments and resolves [..]
    against the segment before it; above the root [..] is kept only when
    [allowAboveRoot]. The accumulator holds the kept segments in reverse. *)
Fixpoint normalize_segments (allowAboveRoot : bool) (acc : list string)
    (segs : list string) : list string :=
  match segs with
  | [] => rev acc
  | seg :: rest =>
      if decide (seg = "") then normalize_segments allowAboveRoot acc rest
      else if decide (seg = ".") then normalize_segments allowAboveRoot acc rest
      else if decide (seg = "..") then
        match acc with
        | last :: acc' =>
            if decide (last = "..")
            then normalize_segments allowAboveRoot (".." :: acc) rest
            else normalize_segments allowAboveRoot acc' rest
        | [] =>
            if allowAboveRoot
            then normalize_segments allowAboveRoot [".."] rest
            else normalize_segments allowAboveRoot [] rest
        end
      else normalize_segments allowAboveRoot (seg :: acc) rest
  end.

Definition normalizeString (p : string) (allowAboveRoot : bool) : string :=
  Str.join "/" (normalize_segments allowAboveRoot [] (Str.split slash p)).

Definition isAbsolute (p : string) : bool := Str.startsWith p "/".

(** [path.normalize]. *)
Definition normalize (p : string) : string :=
  if decide (p = "") then "."
  else
    let abs := isAbsolute p in
    let trailing := Str.endsWith p "/" in
    let q := normalizeString p (negb abs) in
    if decide (q = "") then
      (if abs then "/" else if trailing then "./" else ".")
    else
      let q' := if trailing then q +:+ "/" else q in
      if abs then "/" +:+ q' else q'.

(** [path.join]: the non-empty arguments joined by [/], then normalized. *)
Definition join (args : list string) : string :=
  let parts := filter (λ a, a ≠ "") args in
  match parts with
  | [] => "."
  | _ => normalize (Str.join "/" parts)
  end.

(** [path.resolve], with the working directory of the process given
    explicitly: arguments are prepended from the right until the path is
    absolute. *)
Fixpoint resolve_from_right (rargs : list string) (resolved : string)
    (cwd : string) : string :=
  if isAbsolute resolved then resolved
  else
    match rargs with
    | [] => cwd +:+ "/" +:+ resolved
    | a :: rest =>
        if decide (a = "") then resolve_from_right rest resolved cwd
        else resolve_from_right rest (a +:+ "/" +:+ resolved) cwd
    end.

Definition resolve (cwd : string) (args : list string) : string :=
  let joined := resolve_from_right (rev args) "" cwd in
  let abs := isAbsolute joined in
  let q := normalizeString joined (negb abs) in
  if abs then "/" +:+ q
  else if decide (q = "") then "." else q.

Fixpoint drop_slashes (l : list ascii) : list ascii :=
  match l with
  | c :: l' => if decide (c = slash) then drop_slashes l' else l
  | [] => []
  end.

Fixpoint take_segment (l : list ascii) : list ascii :=
  match l with
  | c :: l' => if decide (c = slash) then [] else c :: take_segment l'
  | [] => []
  end.

(** [path.basename] without a suffix: trailing slashes are skipped and the
    characters after the last remaining slash are returned. *)
Definition basename (p : string) : string :=
  Str.of_chars (rev (take_segment (drop_slashes (rev (Str.chars p))))).

(** The segments of a resolved path. *)
Definition segments (p : string) : list string :=
  filter (λ seg, seg ≠ "") (Str.split slash p).

Fixpoint strip_common (from to : list string) : list string * list string :=
  match from, to with
  | a :: from', b :: to' =>
      if decide (a = b) then strip_common from' to' else (from, to)
  | _, _ => (from, to)
  end.

(** [path.relative], with the working directory of the process given
    explicitly: both paths are resolved and their common leading segments
    are dropped; the result climbs one [..] for each segment left of [from]
    and then descends the segments left of [to]. *)
Definition relative (cwd from to : string) : string :=
  let '(f, t) := strip_common (segments (resolve cwd [from]))
                   (segments (resolve cwd [to])) in
  Str.join "/" (replicate (length f) ".." ++ t).

End Path.

(** ** JavaScript numbers *)

Module Num.

Definition prec : Z := 53.
Definition emax : Z := 1024.

(** A double is kept as an exact integer while it is one of magnitude at
    most 2^53 (there every integer is a double and [+], [-] are exact), and
    as a binary64 value otherwise: fractions, larger magnitudes, the
    negative zero, the infinities and NaN. [Int 0] is the positive zero. *)
Inductive number :=
| Int (z : Z)
| Flt (f : spec_float).

Definition NaN : number := Flt S754_nan.
Definition Infinity : number := Flt (S754_infinity false).

Definition safe (z : Z) : bool := ((- 2 ^ 53 <=? z) && (z <=? 2 ^ 53))%Z.

Definition to_float (x : number) : spec_float :=
  match x with
  | Int z => binary_normalize prec emax z 0 false
  | Flt f => f
  end.

(** The integer a finite binary64 value denotes, when it denotes one. *)
Definition float_integer (f : spec_float) : option Z :=
  match f with
  | S754_zero false => Some 0%Z
  | S754_finite s m e =>
      let v := if (0 <=? e)%Z then Some (Z.pos m * 2 ^ e)%Z
               else if (Z.pos m mod 2 ^ (- e) =? 0)%Z
                    then Some (Z.pos m / 2 ^ (- e))%Z else None in
      (λ z, if s then (- z)%Z else z) <$> v
  | _ => None
  end.

Definition canon (f : spec_float) : number :=
  match float_integer f with
  | Some z => if safe z then Int z else Flt f
  | None => Flt f
  end.

(** Rounding of an exact integer to the nearest double. *)
Definition of_Z (z : Z) : number :=
  if safe z then Int z else Flt (binary_normalize prec emax z 0 false).

(** Rounding to nearest-even of the non-negative ratio [n / d] with sign
    [s]: a quotient of more than 53 bits and the position of the remainder
    are handed to the rounding of the standard library. *)
Definition round_ratio (s : bool) (n d : Z) : spec_float :=
  if (n =? 0)%Z then S754_zero s
  else
    let e := (Z.log2 n - Z.log2 d - 64)%Z in
    let n' := if (e <? 0)%Z then (n * 2 ^ (- e))%Z else n in
    let d' := if (e <? 0)%Z then d else (d * 2 ^ e)%Z in
    let q := (n' / d')%Z in
    let r := (n' mod d')%Z in
    let loc := if (r =? 0)%Z then loc_Exact
               else loc_Inexact (Z.compare (2 * r) d') in
    binary_round_aux prec emax s q e loc.

(** [s * 10^p] rounded to a double, for [s >= 0]. *)
Definition round_decimal (sign : bool) (s p : Z) : spec_float :=
  if (0 <=? p)%Z then round_ratio sign (s * 10 ^ p) 1
  else round_ratio sign s (10 ^ (- p)).

Definition isNaN (x : number) : bool :=
  match x with Flt S754_nan => true | _ => false end.

(** [Number.isFinite] on a number (lodash's [_.isFinite] on one too). *)
Definition isFinite (x : number) : bool :=
  match x with
  | Int _ => true
  | Flt (S754_zero _) | Flt (S754_finite _ _ _) => true
  | Flt _ => false
  end.

(** Truthiness: every number but the zeros and NaN. *)
Definition truthy (x : number) : bool :=
  match x with
  | Int z => negb (z =? 0)%Z
  | Flt (S754_zero _) | Flt S754_nan => false
  | Flt _ => true
  end.

Definition add (x y : number) : number :=
  match x, y with
  | Int a, Int b => of_Z (a + b)
  | _, _ => canon (SFadd prec emax (to_float x) (to_float y))
  end.

Definition sub (x y : number) : number :=
  match x, y with
  | Int a, Int b => of_Z (a - b)
  | _, _ => canon (SFsub prec emax (to_float x) (to_float y))
  end.

Definition mul (x y : number) : number :=
  canon (SFmul prec emax (to_float x) (to_float y)).

Definition div (x y : number) : number :=
  canon (SFdiv prec emax (to_float x) (to_float y)).

Definition ltb (x y : number) : bool :=
  match x, y with
  | Int a, Int b => (a <? b)%Z
  | _, _ => SFltb (to_float x) (to_float y)
  end.

Definition eqb (x y : number) : bool :=
  match x, y with
  | Int a, Int b => (a =? b)%Z
  | _, _ => SFeqb (to_float x) (to_float y)
  end.

(** [Math.floor]. *)
Definition floor (x : number) : number :=
  match x with
  | Flt (S754_finite s m e) =>
      if (0 <=? e)%Z then x
      else
        let q := (Z.pos m / 2 ^ (- e))%Z in
        let exact := (Z.pos m mod 2 ^ (- e) =? 0)%Z in
        if s then (if exact then of_Z (- q) else of_Z (- q - 1))
        else of_Z q
  | _ => x
  end.

(** [Math.min] of two numbers. *)
Definition min (x y : number) : number :=
  if isNaN x || isNaN y then NaN
  else if ltb y x then y else x.

(** [Math.pow(2, z)] for an integral, infinite or NaN exponent, where the
    result is exact (a power of two is a double, or under- or overflows).
    For a fractional exponent the language leaves the result to the
    implementation's approximation: [None]. *)
Definition pow2 (z : number) : option number :=
  match z with
  | Int k =>
      if (0 <=? k)%Z then Some (of_Z (2 ^ k))
      else Some (canon (round_ratio false 1 (2 ^ (- k))))
  | Flt (S754_infinity false) => Some Infinity
  | Flt (S754_infinity true) => Some (Int 0)
  | Flt (S754_zero _) => Some (Int 1)
  | Flt (S754_finite s m e) =>
      match float_integer (S754_finite s m e) with
      | Some k => Some (if (0 <=? k)%Z then Infinity else Int 0)
      | None => None
      end
  | Flt S754_nan => Some NaN
  end.

(** *** Number to string *)

Definition digit_char (d : Z) : ascii := ascii_of_nat (48 + Z.to_nat d).

Fixpoint digits_fuel (fuel : nat) (z : Z) (acc : list ascii) : list ascii :=
  match fuel with
  | O => acc
  | S fuel' =>
      if (z <? 10)%Z then digit_char z :: acc
      else digits_fuel fuel' (z / 10) (digit_char (z mod 10) :: acc)
  end.

(** Decimal digits of a non-negative integer. *)
Definition digits (z : Z) : list ascii :=
  digits_fuel (S (Z.to_nat (Z.log2 z))) z [].

Definition decimal (z : Z) : string :=
  if (z <? 0)%Z then String "-" (Str.of_chars (digits (- z)))
  else Str.of_chars (digits z).

(** [v < 10^n] for the positive rational [v = vn / vd]. *)
Definition below_pow10 (vn vd n : Z) : bool :=
  if (0 <=? n)%Z then (vn <? 10 ^ n * vd)%Z else (vn * 10 ^ (- n) <? vd)%Z.

Fixpoint magnitude_fuel (fuel : nat) (vn vd n : Z) : Z :=
  match fuel with
  | O => n
  | S fuel' =>
      if below_pow10 vn vd n then n else magnitude_fuel fuel' vn vd (n + 1)
  end.

(** The [n] with [10^(n-1) <= v < 10^n]; doubles lie between 10^-324 and
    10^309. *)
Definition magnitude (vn vd : Z) : Z := magnitude_fuel 640 vn vd (-330).

(** [floor (v / 10^p)]. *)
Definition scaled_floor (vn vd p : Z) : Z :=
  if (0 <=? p)%Z then (vn / (vd * 10 ^ p))%Z else (vn * 10 ^ (- p) / vd)%Z.

(** [2 v] compared with [c * 10^p], for choosing the nearer of two
    candidates. *)
Definition twice_compare (vn vd c p : Z) : comparison :=
  if (0 <=? p)%Z then (2 * vn ?= c * 10 ^ p * vd)%Z
  else (2 * vn * 10 ^ (- p) ?= c * vd)%Z.

(** The shortest digit string that reads back as the double [f]: for
    [k = 1, 2, ...] digits, the two [k]-digit neighbours of the value are
    tried. Returns the digits as an integer [s] and the exponent [n] with
    [f = round (s * 10^(n - k))]. *)
Fixpoint shortest_fuel (fuel : nat) (f : spec_float) (vn vd n k : Z)
    : Z * Z * Z :=
  let p := (n - k)%Z in
  let lo := scaled_floor vn vd p in
  let hi := (lo + 1)%Z in
  let ok_lo := (10 ^ (k - 1) <=? lo)%Z && SFeqb (round_decimal false lo p) f in
  let ok_hi := SFeqb (round_decimal false hi p) f in
  let pick c := if (c =? 10 ^ k)%Z then (10 ^ (k - 1), n + 1, k)%Z else (c, n, k) in
  match fuel with
  | O => pick lo
  | S fuel' =>
      if ok_lo && ok_hi then
        match twice_compare vn vd (lo + hi) p with
        | Lt => pick lo
        | Eq => if Z.even lo then pick lo else pick hi
        | Gt => pick hi
        end
      else if ok_lo then pick lo
      else if ok_hi then pick hi
      else shortest_fuel fuel' f vn vd n (k + 1)
  end.

Definition zeros (n : Z) : list ascii := replicate (Z.to_nat n) "0"%char.

(** The layout of [Number::toString] for the digits [s] (there are [k]) and
    the exponent [n]. *)
Definition layout (s n k : Z) : string :=
  let ds := digits s in
  if (k <=? n)%Z && (n <=? 21)%Z then Str.of_chars (ds ++ zeros (n - k))
  else if (0 <? n)%Z && (n <=? 21)%Z then
    Str.of_chars (take (Z.to_nat n) ds ++ "."%char :: drop (Z.to_nat n) ds)
  else if (-6 <? n)%Z && (n <=? 0)%Z then
    Str.of_chars ("0"%char :: "."%char :: zeros (- n) ++ ds)
  else
    let e := (n - 1)%Z in
    let es := (if (e <? 0)%Z then "-"%char else "+"%char) :: digits (Z.abs e) in
    match ds with
    | [d] => Str.of_chars (d :: "e"%char :: es)
    | d :: ds' => Str.of_chars (d :: "."%char :: ds' ++ "e"%char :: es)
    | [] => ""
    end.

Definition positive_to_string (m : positive) (e : Z) : string :=
  let vn := if (0 <=? e)%Z then (Z.pos m * 2 ^ e)%Z else Z.pos m in
  let vd := if (0 <=? e)%Z then 1%Z else (2 ^ (- e))%Z in
  let '(s, n, k) :=
    shortest_fuel 17 (S754_finite false m e) vn vd (magnitude vn vd) 1 in
  layout s n k.

(** [Number::toString] (radix 10), as used by string conversion and by
    template literals. An integer below 2^53 in magnitude prints as its
    decimal digits. *)
Definition to_string (x : number) : string :=
  match x with
  | Int z => decimal z
  | Flt S754_nan => "NaN"
  | Flt (S754_zero _) => "0"
  | Flt (S754_infinity s) => if s then "-Infinity" else "Infinity"
  | Flt (S754_finite s m e) =>
      if s then String "-" (positive_to_string m e)
      else positive_to_string m e
  end.

(** *** String to number *)

Definition digit_value (radix : Z) (c : ascii) : option Z :=
  let n := Z.of_nat (nat_of_ascii c) in
  let v := if (48 <=? n)%Z && (n <=? 57)%Z then Some (n - 48)%Z
           else if (97 <=? n)%Z && (n <=? 122)%Z then Some (n - 87)%Z
           else if (65 <=? n)%Z && (n <=? 90)%Z then Some (n - 55)%Z
           else None in
  match v with
  | Some d => if (d <? radix)%Z then Some d else None
  | None => None
  end.

(** The longest prefix of digits of the radix: their count, their value
    (continuing [acc]) and the rest. *)
Fixpoint take_digits (radix : Z) (l : list ascii) (count acc : Z)
    : Z * Z * list ascii :=
  match l with
  | c :: l' =>
      match digit_value radix c with
      | Some d => take_digits radix l' (count + 1) (acc * radix + d)
      | None => (count, acc, l)
      end
  | [] => (count, acc, [])
  end.

Definition take_sign (l : list ascii) : bool * list ascii :=
  match l with
  | c :: l' =>
      if decide (c = "-"%char) then (true, l')
      else if decide (c = "+"%char) then (false, l')
      else (false, l)
  | [] => (false, [])
  end.

Definition signed (neg : bool) (z : Z) : number :=
  if (z =? 0)%Z then (if neg then Flt (S754_zero true) else Int 0)
  else of_Z (if neg then - z else z).

(** [parseInt(s)] on a string, no radix given: leading white space, a
    sign, an optional [0x] and the longest run of digits; NaN when there is
    no digit. *)
Definition parseInt_string (s : string) : number :=
  let '(neg, l) := take_sign (Str.drop_spaces (Str.chars s)) in
  let '(radix, l) :=
    match l with
    | z :: x :: l' =>
        if bool_decide (z = "0"%char) && (bool_decide (x = "x"%char) || bool_decide (x = "X"%char))
        then (16%Z, l') else (10%Z, l)
    | _ => (10%Z, l)
    end in
  let '(count, v, _) := take_digits radix l 0 0 in
  if (count =? 0)%Z then NaN else signed neg v.

(** The exponent part [e], sign, digits; absent or malformed: exponent 0. *)
Definition take_exponent (l : list ascii) : Z :=
  match l with
  | c :: l' =>
      if bool_decide (c = "e"%char) || bool_decide (c = "E"%char) then
        let '(neg, l'') := take_sign l' in
        let '(count, v, _) := take_digits 10 l'' 0 0 in
        if (count =? 0)%Z then 0%Z else if neg then (- v)%Z else v
      else 0%Z
  | [] => 0%Z
  end.

(** [parseFloat(s)] on a string: leading white space, then the longest
    prefix that is a decimal literal (or [Infinity]), rounded to the nearest
    double; NaN when there is none. *)
Definition parseFloat_string (s : string) : number :=
  let '(neg, l) := take_sign (Str.drop_spaces (Str.chars s)) in
  if Str.prefix_of (Str.chars "Infinity") l then Flt (S754_infinity neg)
  else
    let '(c1, v1, l1) := take_digits 10 l 0 0 in
    let '(c2, v2, l2) :=
      match l1 with
      | c :: l1' =>
          if decide (c = "."%char) then take_digits 10 l1' 0 v1
          else (0%Z, v1, l1)
      | [] => (0%Z, v1, l1)
      end in
    if (c1 + c2 =? 0)%Z then NaN
    else canon (round_decimal neg v2 (take_exponent l2 - c2)).

End Num.

(** ** JavaScript values *)

Module Js.

(** The values that metadata carries: what [JSON.parse], [xml2js] and the
    MBTiles reader return. An object is its list of own properties. *)
#[warnings="-register-all"]
Inductive value :=
| VUndefined
| VNull
| VBool (b : bool)
| VNum (n : Num.number)
| VStr (s : string)
| VArr (items : list value)
| VObj (props : list (string * value)).

Definition truthy (v : value) : bool :=
  match v with
  | VUndefined | VNull => false
  | VBool b => b
  | VNum n => Num.truthy n
  | VStr s => Str.truthy s
  | VArr _ | VObj _ => true
  end.

(** [a || b]. *)
Definition or (a b : value) : value := if truthy a then a else b.

(** [ToString]. In an array, [undefined] and [null] items print empty. *)
Fixpoint to_string (v : value) : string :=
  match v with
  | VUndefined => "undefined"
  | VNull => "null"
  | VBool b => if b then "true" else "false"
  | VNum n => Num.to_string n
  | VStr s => s
  | VArr items =>
      Str.join ","
        ((fix each (l : list value) : list string :=
            match l with
            | [] => []
            | VUndefined :: l' | VNull :: l' => "" :: each l'
            | x :: l' => to_string x :: each l'
            end) items)
  | VObj _ => "[object Object]"
  end.

(** The global [parseInt] and [parseFloat] convert their argument to a
    string first. *)
Definition parseInt (v : value) : Num.number := Num.parseInt_string (to_string v).
Definition parseFloat (v : value) : Num.number := Num.parseFloat_string (to_string v).

Fixpoint assoc (props : list (string * value)) (k : string) : option value :=
  match props with
  | [] => None
  | (k', v) :: rest => if decide (k' = k) then Some v else assoc rest k
  end.

(** An index in canonical form: [0], or digits not starting with [0]. *)
Definition array_index (k : string) : option nat :=
  match Str.chars k with
  | [] => None
  | c :: l =>
      let '(count, v, rest) := Num.take_digits 10 (c :: l) 0 0 in
      match rest with
      | [] => if bool_decide (c = "0"%char) && negb (bool_decide (l = []))
              then None else Some (Z.to_nat v)
      | _ => None
      end
  end.

(** [o[k]] for the property names this program reads (none of them is a
    member of a built-in prototype): [None] stands for the [TypeError] of
    reading a property of [undefined] or [null]. *)
Definition get (v : value) (k : string) : option value :=
  match v with
  | VUndefined | VNull => None
  | VObj props => Some (default VUndefined (assoc props k))
  | VArr items =>
      Some (match array_index k with
            | Some i => default VUndefined (items !! i)
            | None => VUndefined
            end)
  | VStr s =>
      Some (match array_index k with
            | Some i =>
                match Str.chars s !! i with
                | Some c => VStr (String c "")
                | None => VUndefined
                end
            | None => VUndefined
            end)
  | VBool _ | VNum _ => Some VUndefined
  end.

(** [x === undefined]. *)
Definition is_undefined (v : value) : bool :=
  match v with VUndefined => true | _ => false end.

End Js.

(** ** The lodash functions the loader uses *)

Module Lodash.
Import Js.

(** [_.get(v, path)] for a path of property names: [undefined] as soon as
    a step meets [undefined] or [null]. *)
Fixpoint get (v : value) (path : list string) : value :=
  match path with
  | [] => v
  | k :: rest =>
      match Js.get v k with
      | Some v' => get v' rest
      | None => VUndefined
      end
  end.



(** [_.isEmpty]: collections without items; every value that is no
    collection counts as empty. *)
Definition isEmpty (v : value) : bool :=
  match v with
  | VArr [] | VObj [] | VStr "" => true
  | VArr _ | VObj _ | VStr _ => false
  | _ => true
  end.

(** [_.isFinite]: a number that is neither NaN nor infinite. *)
Definition isFinite (v : value) : bool :=
  match v with VNum n => Num.isFinite n | _ => false end.

(** The items [_.map] visits: of an array its items, of an object its
    property values, of a string its characters; nothing otherwise. *)
Definition items_of (v : value) : list value :=
  match v with
  | VArr items => items
  | VObj props => snd <$> props
  | VStr s => (λ c, VStr (String c "")) <$> Str.chars s
  | _ => []
  end.

(** [baseExtremum] on numbers: NaN is never taken first, and never wins a
    comparison. The result is [undefined] when nothing was taken. *)
Fixpoint extremum (better : Num.number → Num.number → bool)
    (l : list Num.number) (computed : option Num.number) : option Num.number :=
  match l with
  | [] => computed
  | x :: l' =>
      match computed with
      | None => extremum better l' (if Num.isNaN x then None else Some x)
      | Some c => extremum better l' (if better x c then Some x else computed)
      end
  end.

Definition of_option (o : option Num.number) : value :=
  match o with Some n => VNum n | None => VUndefined end.

Definition min (l : list Num.number) : value :=
  of_option (extremum Num.ltb l None).

Definition max (l : list Num.number) : value :=
  of_option (extremum (λ x c, Num.ltb c x) l None).

End Lodash.

(** ** [charts-loader.js] *)

Module Loader.
Import Js.

(** What a parser returns: the chart metadata without the properties that
    [directoryToMapInfo] adds. *)
Record info := {
  i_flipY : bool;
  i_name : value;
  i_description : value;
  i_bounds : value;
  i_minzoom : value;
  i_maxzoom : value;
  i_format : value;
  i_type : value;
  i_scale : value
}.

(** A chart of the registry. [_mbtilesHandle] is the database the handle
    was opened on. *)
Record chart := {
  _fileFormat : string;
  _filePath : string;
  _mbtilesHandle : option string;
  _flipY : bool;
  identifier : string;
  name : value;
  description : value;
  bounds : value;
  minzoom : value;
  maxzoom : value;
  format : value;
  type : value;
  scale : value;
  v1_tilemapUrl : string;
  v1_chartLayers : list value;
  v2_url : string;
  v2_layers : list value
}.

(** [parseIntIfNotUndefined]. *)
Definition parseIntIfNotUndefined (val : value) : value :=
  let parsed := VNum (parseInt val) in
  if Lodash.isFinite parsed then parsed else VUndefined.

(** [parseBounds], local to [parseMetadataJson]. *)
Definition parseBounds (bounds : value) : value :=
  match bounds with
  | VStr s =>
      VArr ((λ bound, VNum (Num.parseFloat_string (Str.trim bound)))
              <$> Str.split ","%char s)
  | VArr items => if decide (length items = 4) then bounds else VUndefined
  | _ => VUndefined
  end.

(** [parseInt(x) || 250000]. *)
Definition scale_of (x : value) : value :=
  Js.or (VNum (parseInt x)) (VNum (Num.Int 250000)).

(** [parseMetadataJson], from the value [JSON.parse] returned; [None] is
    the [TypeError] of reading a property of [null]. *)
Definition parseMetadataJson (metadata : value) : option info :=
  m_name ← Js.get metadata "name";
  m_id ← Js.get metadata "id";
  m_description ← Js.get metadata "description";
  m_bounds ← Js.get metadata "bounds";
  m_minzoom ← Js.get metadata "minzoom";
  m_maxzoom ← Js.get metadata "maxzoom";
  m_format ← Js.get metadata "format";
  m_type ← Js.get metadata "type";
  m_scale ← Js.get metadata "scale";
  Some {| i_flipY := false;
          i_name := Js.or m_name m_id;
          i_description := Js.or m_description (VStr "");
          i_bounds := parseBounds m_bounds;
          i_minzoom := parseIntIfNotUndefined m_minzoom;
          i_maxzoom := parseIntIfNotUndefined m_maxzoom;
          i_format := m_format;
          i_type := Js.or m_type (VStr "tilelayer");
          i_scale := scale_of m_scale |}.

(** A property of a truthy value: the read cannot throw. *)
Definition prop (v : value) (k : string) : value :=
  default VUndefined (Js.get v k).

(** [parseTilemapResource], from the value [xml2js] returned. *)
Definition parseTilemapResource (parsed : value) : option info :=
  result ← Js.get parsed "TileMap";
  let name := Lodash.get result ["Title"; "0"] in
  let format := Lodash.get result ["TileFormat"; "0"; "$"; "extension"] in
  let scale := Lodash.get result ["Metadata"; "0"; "$"; "scale"] in
  let bbox := Lodash.get result ["BoundingBox"; "0"; "$"] in
  let zoomLevels :=
    (λ set, parseInt (Lodash.get set ["$"; "href"]))
      <$> Lodash.items_of
            (Js.or (Lodash.get result ["TileSets"; "0"; "TileSet"]) (VArr [])) in
  Some {| i_flipY := true;
          i_name := name;
          i_description := name;
          i_bounds :=
            if Js.truthy bbox
            then VArr [VNum (parseFloat (prop bbox "minx"));
                       VNum (parseFloat (prop bbox "miny"));
                       VNum (parseFloat (prop bbox "maxx"));
                       VNum (parseFloat (prop bbox "maxy"))]
            else VUndefined;
          i_minzoom :=
            match zoomLevels with [] => VUndefined | _ => Lodash.min zoomLevels end;
          i_maxzoom :=
            match zoomLevels with [] => VUndefined | _ => Lodash.max zoomLevels end;
          i_format := format;
          i_type := VStr "tilelayer";
          i_scale := scale_of scale |}.

(** ASCII lower case, for the [i] flag of the file-name pattern. *)
Definition lower (c : ascii) : ascii :=
  let n := nat_of_ascii c in
  if Nat.leb 65 n && Nat.leb n 90 then ascii_of_nat (n + 32) else c.

(** [name.match(/\.mbtiles$/i)]. *)
Definition isMbtilesName (name : string) : bool :=
  Str.endsWith (Str.of_chars (lower <$> Str.chars name)) ".mbtiles".

(** [filename.replace(/\.mbtiles$/i, '')]. *)
Definition stripMbtiles (name : string) : string :=
  if isMbtilesName name
  then Str.of_chars (take (length (Str.chars name) - 8) (Str.chars name))
  else name.

Definition tileUrl (identifier : string) : string :=
  "~tilePath~/" +:+ identifier +:+ "/{z}/{x}/{y}".

(** [parseVectorLayers]: [layers.map((l) => l.id)]; [None] is a
    [TypeError] ([layers] has no [map], or an item is [undefined] or
    [null]). *)
Definition parseVectorLayers (layers : value) : option (list value) :=
  match layers with
  | VArr items => mapM (λ l, Js.get l "id") items
  | _ => None
  end.

(** [openMbtilesFile], from what opening the database and [getInfo] gave:
    the metadata, or [None] for an error. The result [None] is [null]. *)
Definition openMbtilesFile (file filename : string) (opened : option value)
    : option chart :=
  metadata ← opened;
  if Lodash.isEmpty metadata || Js.is_undefined (prop metadata "bounds")
  then None
  else
    let identifier := stripMbtiles filename in
    layers ← (if Js.truthy (prop metadata "vector_layers")
              then parseVectorLayers (prop metadata "vector_layers")
              else Some []);
    Some {| _fileFormat := "mbtiles";
            _filePath := file;
            _mbtilesHandle := Some file;
            _flipY := false;
            identifier := identifier;
            name := Js.or (prop metadata "name") (prop metadata "id");
            description := prop metadata "description";
            bounds := prop metadata "bounds";
            minzoom := prop metadata "minzoom";
            maxzoom := prop metadata "maxzoom";
            format := prop metadata "format";
            type := VStr "tilelayer";
            scale := scale_of (prop metadata "scale");
            v1_tilemapUrl := tileUrl identifier;
            v1_chartLayers := layers;
            v2_url := tileUrl identifier;
            v2_layers := layers |}.

(** *** The chart directory *)

(** What a file holds, as far as the loader can tell: a tile database
    (with the metadata [getInfo] reports), an XML document (with the value
    [xml2js] builds), a JSON text (with the value [JSON.parse] builds), or
    anything else. *)
Inductive file_data :=
| MbtilesDb (metadata : value)
| XmlDoc (parsed : value)
| JsonDoc (parsed : value)
| OtherData.

(** A directory lists its entries in the order [readdir] reports them; a
    directory may refuse to be read. *)
#[warnings="-register-all"]
Inductive node :=
| File (data : file_data)
| Dir (entries : list (string * node))
| DirUnreadable.

Definition isDirectory (n : node) : bool :=
  match n with File _ => false | _ => true end.

Fixpoint entry (entries : list (string * node)) (name : string) : option node :=
  match entries with
  | [] => None
  | (k, n) :: rest => if decide (k = name) then Some n else entry rest name
  end.

(** Opening a path as a tile database and asking for its metadata. *)
Definition mbtilesInfo (n : node) : option value :=
  match n with File (MbtilesDb metadata) => Some metadata | _ => None end.

(** [fs.readFile(..).then(promisify(xml2js.parseString))]. *)
Definition readXml (n : node) : option value :=
  match n with File (XmlDoc parsed) => Some parsed | _ => None end.

(** [fs.readFile(.., utf8).then(JSON.parse)]. *)
Definition readJson (n : node) : option value :=
  match n with File (JsonDoc parsed) => Some parsed | _ => None end.

(** The three results of a promise that [directoryToMapInfo] and
    [loadInfo] distinguish. *)
Inductive outcome (A : Type) :=
| Resolved (a : A)
| ResolvedNull
| Rejected.
Arguments Resolved {A} a.
Arguments ResolvedNull {A}.
Arguments Rejected {A}.

Definition of_thrown {A} (o : option A) : outcome A :=
  match o with Some a => Resolved a | None => Rejected end.

(** [loadInfo]: the descriptor of the TMS format is tried first, then the
    metadata of the XYZ format. A parser that fails rejects the promise:
    its promise is returned, not awaited, inside the [try]. *)
Definition loadInfo (entries : list (string * node)) : outcome info :=
  match entry entries "tilemapresource.xml" with
  | Some n => of_thrown (readXml n ≫= parseTilemapResource)
  | None =>
      match entry entries "metadata.json" with
      | Some n => of_thrown (readJson n ≫= parseMetadataJson)
      | None => ResolvedNull
      end
  end.

(** [directoryToMapInfo]: [None] is [null] or [undefined] (the caller only
    tests the result for truthiness). *)
Definition directoryToMapInfo (file identifier : string)
    (entries : list (string * node)) : option chart :=
  match loadInfo entries with
  | Resolved info =>
      if negb (Js.truthy (i_format info)) then None
      else
        Some {| _fileFormat := "directory";
                _filePath := file;
                _mbtilesHandle := None;
                _flipY := i_flipY info;
                identifier := identifier;
                name := i_name info;
                description := i_description info;
                bounds := i_bounds info;
                minzoom := i_minzoom info;
                maxzoom := i_maxzoom info;
                format := i_format info;
                type := i_type info;
                scale := i_scale info;
                v1_tilemapUrl := tileUrl identifier;
                v1_chartLayers := [];
                v2_url := tileUrl identifier;
                v2_layers := [] |}
  | ResolvedNull => None
  | Rejected => None
  end.

Section Walk.
(** The working directory of the process, against which [path.resolve]
    completes a relative base directory. *)
Variable cwd : string.

(** [findChartsRecursive]: the flattened results of the entries, in
    order; an item is a chart or [null]. [None] is a rejected promise
    (a directory that cannot be read). *)
Fixpoint findChartsRecursive (currentDir : string) (n : node)
    : option (list (option chart)) :=
  match n with
  | Dir entries =>
      (fix each (files : list (string * node)) : option (list (option chart)) :=
         match files with
         | [] => Some []
         | (fname, child) :: rest =>
             let filePath := Path.resolve cwd [currentDir; fname] in
             here ←
               (if isMbtilesName fname then
                  Some [openMbtilesFile filePath fname (mbtilesInfo child)]
                else if isDirectory child then
                  if Str.startsWith fname "." || bool_decide (fname = "node_modules")
                  then Some []
                  else
                    match child with
                    | Dir sub =>
                        match directoryToMapInfo filePath fname sub with
                        | Some chartInfo => Some [Some chartInfo]
                        | None => findChartsRecursive filePath child
                        end
                    | _ => None
                    end
                else Some []);
             others ← each rest;
             Some (here ++ others)%list
         end) entries
  | _ => None
  end.

(** Assignment [result[key] = chart] on a plain object: the key
    [__proto__] sets the prototype and adds no property. *)
Definition assign (result : gmap string chart) (c : chart) : gmap string chart :=
  if decide (identifier c = "__proto__") then result
  else <[identifier c := c]> result.

(** [findCharts]: the charts found (the [null] items removed) keyed by
    identifier, a later chart replacing an earlier one of the same
    identifier. [None] is the [undefined] left by the error handler. *)
Definition findCharts (chartBaseDir : string) (root : node)
    : option (gmap string chart) :=
  result ← findChartsRecursive chartBaseDir root;
  Some (foldl assign ∅ (omap id result)).

End Walk.

End Loader.

(** ** [serveTileFromFilesystem] *)

Module Tiles.
Import Js Loader.

(** What [res.sendFile] reports to its callback: the file went out, or an
    error with its code. *)
Inductive sendfile_outcome :=
| Delivered
| Failed (code : string).

(** What the request ends in: the tile file is the response body, status
    404, or an error that is thrown. *)
Inductive tile_response :=
| TileSent (file : string)
| SendStatus (code : Z)
| Thrown (code : string).

(** The [file] that [serveTileFromFilesystem] computes. [None] only for a
    fractional zoom, where [Math.pow] is not modelled. *)
Definition tileFile (cwd : string) (provider : chart) (z x y : Num.number)
    : option string :=
  p ← Num.pow2 z;
  let flippedY := Num.sub (Num.sub p (Num.Int 1)) y in
  Some
    (if Str.truthy (_filePath provider)
     then Path.resolve cwd
            [_filePath provider;
             Num.to_string z +:+ "/" +:+ Num.to_string x +:+ "/"
               +:+ Num.to_string (if _flipY provider then flippedY else y)
               +:+ "." +:+ Js.to_string (format provider)]
     else "").

(** [serveTileFromFilesystem]: [ENOENT] becomes status 404, any other error
    is thrown. An empty path makes [res.sendFile] throw a [TypeError]. *)
Definition serveTileFromFilesystem (sendFile : string → sendfile_outcome)
    (cwd : string) (provider : chart) (z x y : Num.number)
    : option tile_response :=
  file ← tileFile cwd provider z x y;
  Some
    (if decide (file = "") then Thrown "TypeError"
     else
       match sendFile file with
       | Delivered => TileSent file
       | Failed code =>
           if decide (code = "ENOENT") then SendStatus 404 else Thrown code
       end).

End Tiles.

(** ** The download manager *)

Module DownloadManager.

Inductive job_status := queued | downloading | extracting | completed | failed.

#[global] Instance job_status_eq_dec : EqDecision job_status.
Proof. solve_decision. Defined.

(** A job object. The properties that are set later ([startedAt],
    [completedAt], [error]) are absent at first. Times are [Date.now()]
    readings. *)
Record job := {
  id : string;
  url : string;
  targetDir : string;
  chartName : string;
  status : job_status;
  progress : Num.number;
  downloadedBytes : Num.number;
  totalBytes : Num.number;
  extractedFiles : list string;
  targetFiles : list string;
  createdAt : Z;
  startedAt : option Z;
  completedAt : option Z;
  error : option string
}.

Definition with_url (u : string) (j : job) : job :=
  {| id := id j; url := u; targetDir := targetDir j; chartName := chartName j;
     status := status j; progress := progress j;
     downloadedBytes := downloadedBytes j; totalBytes := totalBytes j;
     extractedFiles := extractedFiles j; targetFiles := targetFiles j;
     createdAt := createdAt j; startedAt := startedAt j;
     completedAt := completedAt j; error := error j |}.

Definition with_status (s : job_status) (j : job) : job :=
  {| id := id j; url := url j; targetDir := targetDir j; chartName := chartName j;
     status := s; progress := progress j;
     downloadedBytes := downloadedBytes j; totalBytes := totalBytes j;
     extractedFiles := extractedFiles j; targetFiles := targetFiles j;
     createdAt := createdAt j; startedAt := startedAt j;
     completedAt := completedAt j; error := error j |}.

Definition with_progress (p : Num.number) (j : job) : job :=
  {| id := id j; url := url j; targetDir := targetDir j; chartName := chartName j;
     status := status j; progress := p;
     downloadedBytes := downloadedBytes j; totalBytes := totalBytes j;
     extractedFiles := extractedFiles j; targetFiles := targetFiles j;
     createdAt := createdAt j; startedAt := startedAt j;
     completedAt := completedAt j; error := error j |}.

Definition with_downloadedBytes (d : Num.number) (j : job) : job :=
  {| id := id j; url := url j; targetDir := targetDir j; chartName := chartName j;
     status := status j; progress := progress j;
     downloadedBytes := d; totalBytes := totalBytes j;
     extractedFiles := extractedFiles j; targetFiles := targetFiles j;
     createdAt := createdAt j; startedAt := startedAt j;
     completedAt := completedAt j; error := error j |}.

Definition with_totalBytes (n : Num.number) (j : job) : job :=
  {| id := id j; url := url j; targetDir := targetDir j; chartName := chartName j;
     status := status j; progress := progress j;
     downloadedBytes := downloadedBytes j; totalBytes := n;
     extractedFiles := extractedFiles j; targetFiles := targetFiles j;
     createdAt := createdAt j; startedAt := startedAt j;
     completedAt := completedAt j; error := error j |}.

(** [job.extractedFiles.push(f)] and [job.targetFiles.push(f)]. *)
Definition push_extracted (f : string) (j : job) : job :=
  {| id := id j; url := url j; targetDir := targetDir j; chartName := chartName j;
     status := status j; progress := progress j;
     downloadedBytes := downloadedBytes j; totalBytes := totalBytes j;
     extractedFiles := extractedFiles j ++ [f]; targetFiles := targetFiles j;
     createdAt := createdAt j; startedAt := startedAt j;
     completedAt := completedAt j; error := error j |}.

Definition push_target (f : string) (j : job) : job :=
  {| id := id j; url := url j; targetDir := targetDir j; chartName := chartName j;
     status := status j; progress := progress j;
     downloadedBytes := downloadedBytes j; totalBytes := totalBytes j;
     extractedFiles := extractedFiles j; targetFiles := targetFiles j ++ [f];
     createdAt := createdAt j; startedAt := startedAt j;
     completedAt := completedAt j; error := error j |}.

Definition with_startedAt (t : Z) (j : job) : job :=
  {| id := id j; url := url j; targetDir := targetDir j; chartName := chartName j;
     status := status j; progress := progress j;
     downloadedBytes := downloadedBytes j; totalBytes := totalBytes j;
     extractedFiles := extractedFiles j; targetFiles := targetFiles j;
     createdAt := createdAt j; startedAt := Some t;
     completedAt := completedAt j; error := error j |}.

Definition with_completedAt (t : Z) (j : job) : job :=
  {| id := id j; url := url j; targetDir := targetDir j; chartName := chartName j;
     status := status j; progress := progress j;
     downloadedBytes := downloadedBytes j; totalBytes := totalBytes j;
     extractedFiles := extractedFiles j; targetFiles := targetFiles j;
     createdAt := createdAt j; startedAt := startedAt j;
     completedAt := Some t; error := error j |}.

Definition with_error (e : string) (j : job) : job :=
  {| id := id j; url := url j; targetDir := targetDir j; chartName := chartName j;
     status := status j; progress := progress j;
     downloadedBytes := downloadedBytes j; totalBytes := totalBytes j;
     extractedFiles := extractedFiles j; targetFiles := targetFiles j;
     createdAt := createdAt j; startedAt := startedAt j;
     completedAt := completedAt j; error := Some e |}.

(** *** The manager and what runs inside it *)

(** The address of a job object in the store. *)
Abbreviation ref := nat (only parsing).

(** The file system calls the manager issues. *)
Inductive fs_call :=
| CreateWriteStream (path : string)
| Unlink (path : string).

(** The promise of one archive entry being written. *)
Inductive extraction :=
| Writing
| Closed
| Errored (message : string).

(** The archive stream: entries still arrive; [finish] was seen and the
    handler awaits the entries' promises; the handler has concluded. *)
Inductive zip_stage := Parsing | Awaiting | Concluded.

(** Where one [downloadAndExtract] stands: the request is out; the body
    is piped into the file at [targetPath]; the body is piped through the
    archive parser, [extractionPromises] holding, per matching entry, its
    path in the archive and its promise; no callback is left. *)
Inductive phase :=
| Requesting
| Direct (targetPath : string)
| Zip (extractionPromises : list (string * extraction)) (stage : zip_stage)
| Ended.

(** One call of [processJob]: its job, the closure variables
    [contentLength] and [downloadedBytes] of the response callback, and
    whether the promise of [downloadAndExtract] is settled (after which
    [resolve] and [reject] do nothing). *)
Record task := {
  t_job : ref;
  t_phase : phase;
  t_settled : bool;
  t_contentLength : Num.number;
  t_downloadedBytes : Num.number
}.

(** The manager: the job objects by address, [this.jobs] (a [Map], in
    insertion order, holding references), [this.activeDownloads], the
    calls of [processJob] made so far, and the file system calls issued. *)
Record manager := {
  heap : list job;
  jobs : list (string * ref);
  activeDownloads : Z;
  tasks : list task;
  fs_calls : list fs_call
}.

Definition maxConcurrent : Z := 3.

(** The state the constructor leaves. *)
Definition init : manager :=
  {| heap := []; jobs := []; activeDownloads := 0; tasks := []; fs_calls := [] |}.

Definition update_job (r : ref) (f : job → job) (m : manager) : manager :=
  {| heap := match heap m !! r with
             | Some j => <[r := f j]> (heap m)
             | None => heap m
             end;
     jobs := jobs m; activeDownloads := activeDownloads m;
     tasks := tasks m; fs_calls := fs_calls m |}.

Definition update_task (t : nat) (f : task → task) (m : manager) : manager :=
  {| heap := heap m; jobs := jobs m; activeDownloads := activeDownloads m;
     tasks := match tasks m !! t with
              | Some tk => <[t := f tk]> (tasks m)
              | None => tasks m
              end;
     fs_calls := fs_calls m |}.

Definition with_active (n : Z) (m : manager) : manager :=
  {| heap := heap m; jobs := jobs m; activeDownloads := n;
     tasks := tasks m; fs_calls := fs_calls m |}.

Definition with_jobs (js : list (string * ref)) (m : manager) : manager :=
  {| heap := heap m; jobs := js; activeDownloads := activeDownloads m;
     tasks := tasks m; fs_calls := fs_calls m |}.

Definition issue (c : fs_call) (m : manager) : manager :=
  {| heap := heap m; jobs := jobs m; activeDownloads := activeDownloads m;
     tasks := tasks m; fs_calls := fs_calls m ++ [c] |}.

Definition set_phase (p : phase) (tk : task) : task :=
  {| t_job := t_job tk; t_phase := p; t_settled := t_settled tk;
     t_contentLength := t_contentLength tk;
     t_downloadedBytes := t_downloadedBytes tk |}.

Definition set_settled (tk : task) : task :=
  {| t_job := t_job tk; t_phase := t_phase tk; t_settled := true;
     t_contentLength := t_contentLength tk;
     t_downloadedBytes := t_downloadedBytes tk |}.

Definition set_counters (contentLength downloaded : Num.number) (tk : task) : task :=
  {| t_job := t_job tk; t_phase := t_phase tk; t_settled := t_settled tk;
     t_contentLength := contentLength; t_downloadedBytes := downloaded |}.

(** [this.jobs.get(id)]: the reference and the object behind it. *)
Fixpoint map_get (js : list (string * ref)) (k : string) : option ref :=
  match js with
  | [] => None
  | (k', r) :: rest => if decide (k' = k) then Some r else map_get rest k
  end.

(** [this.jobs.set(id, job)]: a known key keeps its place. *)
Fixpoint map_set (js : list (string * ref)) (k : string) (r : ref)
    : list (string * ref) :=
  match js with
  | [] => [(k, r)]
  | (k', r') :: rest =>
      if decide (k' = k) then (k, r) :: rest else (k', r') :: map_set rest k r
  end.

Definition getJob (m : manager) (jobId : string) : option (ref * job) :=
  r ← map_get (jobs m) jobId;
  j ← heap m !! r;
  Some (r, j).

Definition has_status (h : list job) (s : job_status) (r : ref) : bool :=
  match h !! r with
  | Some j => bool_decide (status j = s)
  | None => false
  end.

(** [Array.from(this.jobs.values()).find(job => job.status === 'queued')]. *)
Definition find_queued (m : manager) : option ref :=
  (λ found, snd (snd found))
    <$> list_find (λ e, has_status (heap m) queued (snd e) = true) (jobs m).

(** The start of [processJob] and of [downloadAndExtract]: the job
    becomes [downloading] and the request goes out. *)
Definition start (r : ref) (now : Z) (m : manager) : manager :=
  let m1 := update_job r (λ j, with_startedAt now (with_status downloading j)) m in
  {| heap := heap m1; jobs := jobs m1; activeDownloads := activeDownloads m1;
     tasks := tasks m1 ++ [{| t_job := r; t_phase := Requesting;
                              t_settled := false;
                              t_contentLength := Num.Int 0;
                              t_downloadedBytes := Num.Int 0 |}];
     fs_calls := fs_calls m1 |}.

(** [processQueue], up to its [await]. *)
Definition processQueue (now : Z) (m : manager) : manager :=
  if (maxConcurrent <=? activeDownloads m)%Z then m
  else
    match find_queued m with
    | None => m
    | Some r => start r now (with_active (activeDownloads m + 1) m)
    end.

(** The end of [processJob], for the resolved promise ([None]) or for the
    rejection with an error of the given message. *)
Definition finish_job (result : option string) (now : Z) (j : job) : job :=
  match result with
  | None =>
      with_completedAt now (with_progress (Num.Int 100) (with_status completed j))
  | Some message =>
      with_completedAt now
        (with_error (if Str.truthy message then message else "Download failed")
           (with_status failed j))
  end.

(** [resolve()] or [reject(error)] on the promise of task [t]: the first
    one settles it, [processJob] ends, and [processQueue] goes on after its
    [await]: the counter is decremented and the queue is processed again.
    These continuations run before any other callback. *)
Definition settle (t : nat) (result : option string) (now : Z) (m : manager)
    : manager :=
  match tasks m !! t with
  | Some tk =>
      if t_settled tk then m
      else
        let m1 := update_task t set_settled m in
        let m2 := update_job (t_job tk) (finish_job result now) m1 in
        processQueue now (with_active (activeDownloads m2 - 1) m2)
  | None => m
  end.

(** *** [createJob], [cancelJob], [cleanup] *)

(** [createJob]. The id is made of the time and of a random string [rnd]
    ([Math.random().toString(36).substr(2, 9)]). Returns the id. *)
Definition createJob (rnd url targetDir chartName : string) (now : Z)
    (m : manager) : manager * string :=
  let jobId := "dl_" +:+ Num.to_string (Num.of_Z now) +:+ "_" +:+ rnd in
  let j := {| id := jobId; url := url; targetDir := targetDir;
              chartName := chartName; status := queued;
              progress := Num.Int 0; downloadedBytes := Num.Int 0;
              totalBytes := Num.Int 0; extractedFiles := []; targetFiles := [];
              createdAt := now; startedAt := None; completedAt := None;
              error := None |} in
  let r := length (heap m) in
  let m1 := {| heap := heap m ++ [j]; jobs := map_set (jobs m) jobId r;
               activeDownloads := activeDownloads m; tasks := tasks m;
               fs_calls := fs_calls m |} in
  (processQueue now m1, jobId).

(** The result object of [cancelJob]. *)
Record cancel_result := { success : bool; cancel_error : option string }.

(** [cancelJob]. *)
Definition cancelJob (jobId : string) (now : Z) (m : manager)
    : manager * cancel_result :=
  match getJob m jobId with
  | None => (m, {| success := false; cancel_error := Some "Job not found" |})
  | Some (r, j) =>
      if decide (status j = completed)
      then (m, {| success := false; cancel_error := Some "Job already completed" |})
      else
        let m1 :=
          update_job r
            (λ j, with_completedAt now
                    (with_error "Cancelled by user" (with_status failed j))) m in
        let m2 :=
          foldl (λ acc fileName, issue (Unlink (Path.join [targetDir j; fileName])) acc)
            m1 (targetFiles j) in
        (m2, {| success := true; cancel_error := None |})
  end.

(** Whether [cleanup] deletes the job: it is in a terminal state and its
    [completedAt] is set (and not zero) and more than an hour old. *)
Definition expired (now : Z) (j : job) : bool :=
  (bool_decide (status j = completed) || bool_decide (status j = failed))
  && match completedAt j with
     | Some t => negb (t =? 0)%Z && (t <? now - 60 * 60 * 1000)%Z
     | None => false
     end.

(** Whether [cleanup] keeps the entry of the table that refers to [r]. *)
Definition kept (now : Z) (h : list job) (r : ref) : bool :=
  match h !! r with
  | Some j => negb (expired now j)
  | None => true
  end.

(** [cleanup]. *)
Definition cleanup (now : Z) (m : manager) : manager :=
  with_jobs (filter (λ e, kept now (heap m) (snd e) = true) (jobs m)) m.

(** *** [downloadAndExtract] *)

Definition ensureExtension (fileName : string) : string :=
  if Str.endsWith fileName ".mbtiles" then fileName else fileName +:+ ".mbtiles".

(** The destination file name of a direct download. *)
Definition directFileName (j : job) : string :=
  if Str.truthy (chartName j) && Str.truthy (Str.trim (chartName j))
  then ensureExtension (Str.trim (chartName j))
  else ensureExtension (hd "" (Str.split "?"%char (Path.basename (url j)))).

(** [header || fallback] for a header that may be absent. *)
Definition header_or (h : option string) (fallback : string) : string :=
  match h with
  | Some v => if Str.truthy v then v else fallback
  | None => fallback
  end.

(** The response callback of [protocol.get]. A redirect (301 or 302 with a
    non-empty [Location]) rewrites [job.url] and calls [downloadAndExtract]
    again, whose settlement is passed on: the task waits for the next
    response. *)
Definition onResponse (t : nat) (statusCode : Z)
    (location contentType contentLength : option string) (now : Z)
    (m : manager) : manager :=
  match tasks m !! t with
  | Some tk =>
      match t_phase tk, heap m !! t_job tk with
      | Requesting, Some j =>
          let r := t_job tk in
          if (bool_decide (statusCode = 301%Z) || bool_decide (statusCode = 302%Z))
             && Str.truthy (header_or location "")
          then update_job r (with_url (header_or location "")) m
          else if negb (bool_decide (statusCode = 200%Z)) then
            settle t (Some ("HTTP " +:+ Num.to_string (Num.of_Z statusCode))) now
              (update_task t (set_phase Ended) m)
          else
            let length := Num.parseInt_string (header_or contentLength "0") in
            let m1 := update_job r (with_totalBytes length) m in
            let m2 := update_task t (set_counters length (Num.Int 0)) m1 in
            if Str.includes (header_or contentType "") "zip" || Str.endsWith (url j) ".zip"
            then
              update_task t (set_phase (Zip [] Parsing))
                (update_job r (with_status extracting) m2)
            else
              let fileName := directFileName j in
              let targetPath := Path.join [targetDir j; fileName] in
              update_task t (set_phase (Direct targetPath))
                (issue (CreateWriteStream targetPath)
                   (update_job r (push_target fileName) m2))
      | _, _ => m
      end
  | None => m
  end.

(** The [error] event of the request. *)
Definition onRequestError (t : nat) (message : string) (now : Z) (m : manager)
    : manager :=
  match tasks m !! t with
  | Some tk =>
      match t_phase tk with
      | Requesting => settle t (Some message) now (update_task t (set_phase Ended) m)
      | _ => m
      end
  | None => m
  end.

(** The [data] event of the response, for a chunk of [len] bytes. *)
Definition onData (t : nat) (len : Z) (m : manager) : manager :=
  match tasks m !! t with
  | Some tk =>
      match t_phase tk with
      | Direct _ | Zip _ _ =>
          let downloaded := Num.add (t_downloadedBytes tk) (Num.of_Z len) in
          let m1 := update_task t (set_counters (t_contentLength tk) downloaded) m in
          let m2 := update_job (t_job tk) (with_downloadedBytes downloaded) m1 in
          if Num.ltb (Num.Int 0) (t_contentLength tk)
          then update_job (t_job tk)
                 (with_progress
                    (Num.min (Num.Int 90)
                       (Num.floor
                          (Num.mul (Num.div downloaded (t_contentLength tk))
                             (Num.Int 90))))) m2
          else m2
      | _ => m
      end
  | None => m
  end.

(** The [entry] event of the archive parser: a file whose name ends in
    [.mbtiles] is written under its base name; anything else is drained. *)
Definition onEntry (t : nat) (path type : string) (m : manager) : manager :=
  match tasks m !! t with
  | Some tk =>
      match t_phase tk, heap m !! t_job tk with
      | Zip promises Parsing, Some j =>
          if bool_decide (type = "File") && Str.endsWith path ".mbtiles" then
            let targetPath := Path.join [targetDir j; Path.basename path] in
            update_task t (set_phase (Zip (promises ++ [(path, Writing)]) Parsing))
              (issue (CreateWriteStream targetPath)
                 (update_job (t_job tk) (push_target (Path.basename path)) m))
          else m
      | _, _ => m
      end
  | None => m
  end.

Fixpoint first_error (promises : list (string * extraction)) : option string :=
  match promises with
  | [] => None
  | (_, Errored message) :: _ => Some message
  | _ :: rest => first_error rest
  end.

Definition all_closed (promises : list (string * extraction)) : bool :=
  forallb (λ p, match snd p with Closed => true | _ => false end) promises.

(** The [finish] handler after its [await Promise.all(extractionPromises)]:
    a rejected entry rejects the job; once all entries are closed, the job
    is rejected when nothing was extracted and resolved otherwise. *)
Definition afterAll (t : nat) (now : Z) (m : manager) : manager :=
  match tasks m !! t with
  | Some tk =>
      match t_phase tk, heap m !! t_job tk with
      | Zip promises Awaiting, Some j =>
          match first_error promises with
          | Some message =>
              settle t (Some message) now
                (update_task t (set_phase (Zip promises Concluded)) m)
          | None =>
              if all_closed promises then
                let m1 := update_task t (set_phase (Zip promises Concluded)) m in
                match extractedFiles j with
                | [] => settle t (Some "No .mbtiles files found in archive") now m1
                | _ =>
                    settle t None now
                      (update_job (t_job tk) (with_progress (Num.Int 100)) m1)
                end
              else m
          end
      | _, _ => m
      end
  | None => m
  end.

Definition set_promise (k : nat) (e : extraction)
    (promises : list (string * extraction)) : list (string * extraction) :=
  match promises !! k with
  | Some (path, _) => <[k := (path, e)]> promises
  | None => promises
  end.

(** The [close] event of the write stream of entry [k]. *)
Definition onEntryClose (t k : nat) (now : Z) (m : manager) : manager :=
  match tasks m !! t with
  | Some tk =>
      match t_phase tk with
      | Zip promises stage =>
          match promises !! k with
          | Some (path, Writing) =>
              afterAll t now
                (update_task t (set_phase (Zip (set_promise k Closed promises) stage))
                   (update_job (t_job tk) (push_extracted (Path.basename path)) m))
          | _ => m
          end
      | _ => m
      end
  | None => m
  end.

(** The [error] event of the write stream of entry [k]. *)
Definition onEntryError (t k : nat) (message : string) (now : Z) (m : manager)
    : manager :=
  match tasks m !! t with
  | Some tk =>
      match t_phase tk with
      | Zip promises stage =>
          match promises !! k with
          | Some (path, Writing) =>
              afterAll t now
                (update_task t
                   (set_phase (Zip (set_promise k (Errored message) promises) stage)) m)
          | _ => m
          end
      | _ => m
      end
  | None => m
  end.

(** The [finish] event of the archive parser. *)
Definition onZipFinish (t : nat) (now : Z) (m : manager) : manager :=
  match tasks m !! t with
  | Some tk =>
      match t_phase tk with
      | Zip promises Parsing =>
          afterAll t now (update_task t (set_phase (Zip promises Awaiting)) m)
      | _ => m
      end
  | None => m
  end.

(** The [error] event of the archive parser. *)
Definition onZipError (t : nat) (message : string) (now : Z) (m : manager)
    : manager :=
  match tasks m !! t with
  | Some tk =>
      match t_phase tk with
      | Zip _ _ => settle t (Some message) now m
      | _ => m
      end
  | None => m
  end.

(** The [finish] event of the file stream of a direct download. *)
Definition onFileFinish (t : nat) (now : Z) (m : manager) : manager :=
  match tasks m !! t with
  | Some tk =>
      match t_phase tk with
      | Direct targetPath =>
          settle t None now
            (update_task t (set_phase Ended)
               (update_job (t_job tk)
                  (λ j, with_progress (Num.Int 100)
                          (push_extracted (Path.basename targetPath) j)) m))
      | _ => m
      end
  | None => m
  end.

(** The [error] event of the file stream of a direct download. *)
Definition onFileError (t : nat) (message : string) (now : Z) (m : manager)
    : manager :=
  match tasks m !! t with
  | Some tk =>
      match t_phase tk with
      | Direct targetPath =>
          settle t (Some message) now
            (update_task t (set_phase Ended) (issue (Unlink targetPath) m))
      | _ => m
      end
  | None => m
  end.

(** *** The manager as a transition system *)

(** What can happen to a manager: a call of one of its methods, or an
    event of the network, of the archive parser or of a write stream of
    task [t]. An event that finds its task in a phase without the callback
    changes nothing. *)
Inductive event :=
| CreateJob (rnd url targetDir chartName : string) (now : Z)
| CancelJob (jobId : string) (now : Z)
| Cleanup (now : Z)
| Response (t : nat) (statusCode : Z)
    (location contentType contentLength : option string) (now : Z)
| RequestError (t : nat) (message : string) (now : Z)
| Data (t : nat) (len : Z)
| Entry (t : nat) (path type : string)
| EntryClose (t k : nat) (now : Z)
| EntryError (t k : nat) (message : string) (now : Z)
| ZipFinish (t : nat) (now : Z)
| ZipError (t : nat) (message : string) (now : Z)
| FileFinish (t : nat) (now : Z)
| FileError (t : nat) (message : string) (now : Z).

Definition step (m : manager) (e : event) : manager :=
  match e with
  | CreateJob rnd url targetDir chartName now =>
      fst (createJob rnd url targetDir chartName now m)
  | CancelJob jobId now => fst (cancelJob jobId now m)
  | Cleanup now => cleanup now m
  | Response t statusCode location contentType contentLength now =>
      onResponse t statusCode location contentType contentLength now m
  | RequestError t message now => onRequestError t message now m
  | Data t len => onData t len m
  | Entry t path type => onEntry t path type m
  | EntryClose t k now => onEntryClose t k now m
  | EntryError t k message now => onEntryError t k message now m
  | ZipFinish t now => onZipFinish t now m
  | ZipError t message now => onZipError t message now m
  | FileFinish t now => onFileFinish t now m
  | FileError t message now => onFileError t message now m
  end.

Definition run (m : manager) (events : list event) : manager :=
  foldl step m events.

(** The states the manager can be in. *)
Definition reachable (m : manager) : Prop := ∃ events, m = run init events.

(** The job object at an address, and the jobs of the table that are in
    flight: [downloading] or [extracting]. *)
Definition in_flight (j : job) : bool :=
  bool_decide (status j = downloading) || bool_decide (status j = extracting).

Definition ref_in_flight (h : list job) (r : ref) : bool :=
  match h !! r with
  | Some j => in_flight j
  | None => false
  end.

Definition jobs_in_flight (m : manager) : list (string * ref) :=
  filter (λ e, ref_in_flight (heap m) (snd e) = true) (jobs m).

(** *** Invariants of the reachable states *)

(** What the scheduling depends on: the status of every job object, and of
    every task its job and whether its promise is settled. *)
Definition statuses (m : manager) : list job_status := status <$> heap m.

Definition task_views (m : manager) : list (ref * bool) :=
  (λ tk, (t_job tk, t_settled tk)) <$> tasks m.

(** The jobs whose [processJob] has not ended. *)
Definition running (m : manager) : list ref :=
  fst <$> filter (λ v, snd v = false) (task_views m).

Record invariant (m : manager) : Prop := {
  inv_active : activeDownloads m = Z.of_nat (length (running m));
  inv_bound : (activeDownloads m ≤ maxConcurrent)%Z;
  inv_task_ref : ∀ v, v ∈ task_views m → fst v < length (statuses m);
  inv_job_ref : ∀ e, e ∈ jobs m → snd e < length (statuses m);
  inv_refs_nodup : NoDup (snd <$> jobs m);
  inv_requesting :
    ∀ tk, tk ∈ tasks m → t_phase tk = Requesting → t_settled tk = false;
  inv_in_flight :
    ∀ r s, statuses m !! r = Some s → s = downloading ∨ s = extracting →
           r ∈ running m;
  inv_not_queued : ∀ v, v ∈ task_views m → statuses m !! fst v ≠ Some queued;
  inv_tasks_nodup : NoDup (fst <$> task_views m)
}.

(** The number of [processJob] calls that have ended: it grows exactly when
    a slot frees. *)
Definition ended (m : manager) : nat :=
  length (filter (λ v, snd v = true) (task_views m)).

(** The oldest queued job of the table, in insertion order. *)
Definition first_queued (m : manager) (r : ref) : Prop :=
  ∃ i jobId, jobs m !! i = Some (jobId, r)
             ∧ statuses m !! r = Some queued
             ∧ ∀ k e, jobs m !! k = Some e → k < i →
                      statuses m !! snd e ≠ Some queued.

(** Two states with the same table and the same queued jobs. *)
Definition same_queue (m m' : manager) : Prop :=
  jobs m' = jobs m
  ∧ ∀ r, statuses m' !! r = Some queued ↔ statuses m !! r = Some queued.

(** A change that the scheduling does not see. *)
Definition quiet (m m' : manager) : Prop :=
  same_queue m m'
  ∧ activeDownloads m' = activeDownloads m
  ∧ task_views m' = task_views m.

(** What an event of the network or of a stream does, as far as the
    scheduling goes: nothing, or it settles the promise of a task. *)
Inductive pipeline_outcome (m m' : manager) : Prop :=
| outcome_quiet : quiet m m' → pipeline_outcome m m'
| outcome_settle (t : nat) (result : option string) (now : Z) (x : manager)
    (tk : task) :
    quiet m x → tasks x !! t = Some tk → t_settled tk = false →
    t_phase tk ≠ Requesting →
    m' = settle t result now x → pipeline_outcome m m'.

(** The events of the network and of the streams, as opposed to the calls
    of the manager's methods. *)
Definition pipeline_event (e : event) : bool :=
  match e with
  | CreateJob _ _ _ _ _ | CancelJob _ _ | Cleanup _ => false
  | _ => true
  end.

(** *** File names and write streams *)

(** A phase in which no write stream has been opened: the request is out, or
    the archive has had no entry to write so far. *)
Definition idle (p : phase) : bool :=
  match p with
  | Requesting | Zip [] _ => true
  | _ => false
  end.

(** The job has no file name registered. *)
Definition untouched (j : job) : Prop :=
  extractedFiles j = [] ∧ targetFiles j = [].

(** File names are registered only in a job for which a stream was opened: a
    job all of whose [processJob] calls are idle is untouched. *)
Definition fresh (m : manager) : Prop :=
  ∀ r j, heap m !! r = Some j →
         (∀ tk, tk ∈ tasks m → t_job tk = r → idle (t_phase tk) = true) →
         untouched j.





(** The file names of [j'] are those of [j], in order, and possibly more. *)
Definition grows (j j' : job) : Prop :=
  extractedFiles j `prefix_of` extractedFiles j'
  ∧ targetFiles j `prefix_of` targetFiles j'.

(** Every job object of [m] is there in [m'], with its file names kept. *)
Definition extends (m m' : manager) : Prop :=
  ∀ r j, heap m !! r = Some j → ∃ j', heap m' !! r = Some j' ∧ grows j j'.

(** *** The queries of the manager *)

(** [Array.from(this.jobs.values())]: the job objects of the table, in
    insertion order. *)
Definition values (m : manager) : list job :=
  omap (λ e, heap m !! snd e) (jobs m).

(** [Array.prototype.sort] with the comparator
    [(a, b) => b.createdAt - a.createdAt]. The sort is stable, so its result
    is what inserting the jobs one by one gives, each behind the jobs that
    are not older. *)
Fixpoint insert_newest (j : job) (sorted : list job) : list job :=
  match sorted with
  | [] => [j]
  | k :: rest =>
      if (createdAt k <? createdAt j)%Z then j :: sorted
      else k :: insert_newest j rest
  end.

(** [getAllJobs]. *)
Definition getAllJobs (m : manager) : list job :=
  foldl (λ sorted j, insert_newest j sorted) [] (values m).

(** [queued], [downloading] or [extracting]. *)
Definition is_active (j : job) : bool :=
  bool_decide (status j = queued) || bool_decide (status j = downloading)
  || bool_decide (status j = extracting).

(** [getActiveJobs]. *)
Definition getActiveJobs (m : manager) : list job :=
  filter (λ j, is_active j = true) (getAllJobs m).

(** [findJobsByTargetFile]. *)
Definition findJobsByTargetFile (m : manager) (fileName : string) : list job :=
  filter (λ j, is_active j && bool_decide (fileName ∈ targetFiles j) = true)
    (values m).

(** *** More invariants of the reachable states *)

(** The table has one entry per id, and the entry of an id refers to the
    job object that carries it. *)
Definition table_ok (m : manager) : Prop :=
  NoDup (fst <$> jobs m)
  ∧ ∀ k r, (k, r) ∈ jobs m → ∃ j, heap m !! r = Some j ∧ id j = k.

(** No job of the table waits while a slot is free. *)
Definition work_conserving (m : manager) : Prop :=
  (activeDownloads m < maxConcurrent)%Z →
  ∀ e, e ∈ jobs m → statuses m !! snd e ≠ Some queued.

(** What [createJob] gives a job and nothing changes afterwards. *)
Definition same_identity (j j' : job) : Prop :=
  id j' = id j ∧ targetDir j' = targetDir j ∧ chartName j' = chartName j
  ∧ createdAt j' = createdAt j.

(** Every job object of [m] is there in [m'], in a state that [R] relates
    to the one it has in [m]. *)
Definition related (R : job → job → Prop) (m m' : manager) : Prop :=
  ∀ r j, heap m !! r = Some j → ∃ j', heap m' !! r = Some j' ∧ R j j'.

(** A list of jobs in which no job is older than a later one. *)
Fixpoint newest_first (l : list job) : Prop :=
  match l with
  | [] => True
  | a :: rest =>
      Forall (λ b, (createdAt b ≤ createdAt a)%Z) rest ∧ newest_first rest
  end.

(** A job that has ended carries the time of its end, and a failed one
    its error. *)
Definition dated (j : job) : Prop :=
  (status j = completed ∨ status j = failed → is_Some (completedAt j))
  ∧ (status j = failed → is_Some (error j)).

(** Every job object of the manager has the property [P]. *)
Definition every_job (P : job → Prop) (m : manager) : Prop := Forall P (heap m).






End DownloadManager.

(** ** The routes of the plugin: paths *)

Module Routes.

(** A path segment that normalization keeps as it is. *)
Definition plain (seg : string) : Prop :=
  seg ≠ "" ∧ seg ≠ "." ∧ seg ≠ ".." ∧ Path.slash ∉ Str.chars seg.

(** The scan of [path.dirname], from the end of the path down to its second
    character: trailing slashes are skipped, then the last segment; the
    result is what lies before the slash in front of that segment, reversed,
    or [None] when there is no such slash. *)
Fixpoint before_segment (l : list ascii) (in_segment : bool)
    : option (list ascii) :=
  match l with
  | [] => None
  | c :: l' =>
      if decide (c = Path.slash)
      then (if in_segment then Some l' else before_segment l' false)
      else before_segment l' true
  end.

(** [path.dirname]. *)
Definition dirname (p : string) : string :=
  match Str.chars p with
  | [] => "."
  | c0 :: rest =>
      let hasRoot := bool_decide (c0 = Path.slash) in
      match before_segment (rev rest) false with
      | None => if hasRoot then "/" else "."
      | Some before =>
          if hasRoot && bool_decide (before = []) then "//"
          else Str.of_chars (c0 :: rev before)
      end
  end.

(** The check that the routes make before they touch a path:
    [path.normalize(fullPath).startsWith(path.normalize(basePath))]. *)
Definition withinBase (basePath fullPath : string) : bool :=
  Str.startsWith (Path.normalize fullPath) (Path.normalize basePath).

(** The file system, as far as the handlers below ask it: whether a path
    exists, the entries of a directory ([None] when reading it fails), and
    whether removing a directory succeeds. *)
Record disk := {
  existsSync : string → bool;
  readdir : string → option (list string);
  rmdir : string → bool
}.

(** What a handler answers: [res.status(code).send(text)], or
    [res.status(code).json({ success: true, message })]. *)
Inductive reply :=
| Send (status : Z) (body : string)
| SendSuccess (status : Z) (message : string).

(** The handler of [DELETE .../folders/:folderPath], from the decoded
    parameter on: its answer, and the directory it asked to remove, if
    any. *)
Definition deleteFolder (d : disk) (basePath folderPathParam : string)
    : reply * option string :=
  let fullPath := Path.join [basePath; folderPathParam] in
  let normalizedFullPath := Path.normalize fullPath in
  let normalizedBasePath := Path.normalize basePath in
  if negb (Str.startsWith normalizedFullPath normalizedBasePath)
  then (Send 403 "Access denied: Invalid path", None)
  else if decide (normalizedFullPath = normalizedBasePath)
  then (Send 403 "Cannot delete the root chart directory", None)
  else if negb (existsSync d fullPath) then (Send 404 "Folder not found", None)
  else
    match readdir d fullPath with
    | None => (Send 500 "Error deleting folder", None)
    | Some contents =>
        if (0 <? length contents)%nat then (Send 400 "Folder is not empty", None)
        else if rmdir d fullPath
        then (SendSuccess 200 "Folder deleted successfully", Some fullPath)
        else (Send 500 "Error deleting folder", Some fullPath)
    end.

(** [newName.replace(/\.mbtiles$/, '')] for a name that ends in
    [.mbtiles]. *)
Definition withoutExtension (newName : string) : string :=
  if Str.endsWith newName ".mbtiles"
  then Str.of_chars (take (length (Str.chars newName) - 8) (Str.chars newName))
  else newName.

(** The handler of [POST .../rename-chart] for a body with the strings
    [chartPath] and [newName], up to its call of [fs.promises.rename]: the
    answer when it refuses, or the source and the target of the renaming. *)
Definition renameChart (exists_ : string → bool) (basePath chartPath newName : string)
    : reply + string * string :=
  if negb (Str.truthy chartPath) || negb (Str.truthy newName)
  then inl (Send 400 "chartPath and newName are required")
  else if negb (Str.endsWith newName ".mbtiles")
  then inl (Send 400 "Chart name must end with .mbtiles")
  else
    let nameWithoutExt := withoutExtension newName in
    if Str.includes nameWithoutExt ".." || Str.includes nameWithoutExt "/"
       || Str.includes nameWithoutExt "\"
    then inl (Send 400 "Invalid chart name")
    else
      let sourcePath := Path.join [basePath; chartPath] in
      let folder := dirname chartPath in
      let targetPath := Path.join [basePath; folder; newName] in
      if negb (withinBase basePath sourcePath) || negb (withinBase basePath targetPath)
      then inl (Send 403 "Access denied: Invalid path")
      else if negb (exists_ sourcePath) then inl (Send 404 "Chart not found")
      else if exists_ targetPath
      then inl (Send 400 "A chart with this name already exists in the same folder")
      else inr (sourcePath, targetPath).

End Routes.

(** ** [chart-state.js] *)

Module ChartState.
Import Js.

(** The property names that every object inherits from [Object.prototype]. *)
Definition inherited_names : list string :=
  ["constructor"; "__defineGetter__"; "__defineSetter__"; "hasOwnProperty";
   "__lookupGetter__"; "__lookupSetter__"; "isPrototypeOf";
   "propertyIsEnumerable"; "toString"; "valueOf"; "__proto__";
   "toLocaleString"].

(** The object [chartState]: its own properties, and the own properties of
    its prototype when an assignment to [__proto__] has replaced
    [Object.prototype] by an object literal. At first it is [{}], or the
    object that the state file held. *)
Record state := {
  own : list (string * value);
  proto : option (list (string * value))
}.

Definition empty : state := {| own := []; proto := None |}.

(** What reading a property gives: a value, or one of the members of
    [Object.prototype] (a function, or for [__proto__] the prototype
    itself), which are truthy objects without a property [enabled]. *)
Inductive member :=
| Value (v : value)
| Builtin.

(** [chartState[k]]. *)
Definition lookup (st : state) (k : string) : member :=
  match assoc (own st) k with
  | Some v => Value v
  | None =>
      match proto st ≫= (λ props, assoc props k) with
      | Some v => Value v
      | None =>
          if decide (k = "__proto__") then
            match proto st with
            | Some props => Value (VObj props)
            | None => Builtin
            end
          else if bool_decide (k ∈ inherited_names) then Builtin
          else Value VUndefined
      end
  end.

Fixpoint replace_own (props : list (string * value)) (k : string) (v : value)
    : list (string * value) :=
  match props with
  | [] => []
  | (k', v') :: rest =>
      if decide (k' = k) then (k, v) :: rest else (k', v') :: replace_own rest k v
  end.

(** [chartState[k] = { ... }] for an object literal with the properties
    [props]: an own property is overwritten; otherwise the name [__proto__]
    reaches the setter of [Object.prototype], which makes the literal the
    prototype; any other name becomes a new own property. *)
Definition assign (st : state) (k : string) (props : list (string * value))
    : state :=
  match assoc (own st) k with
  | Some _ => {| own := replace_own (own st) k (VObj props); proto := proto st |}
  | None =>
      if decide (k = "__proto__") then {| own := own st; proto := Some props |}
      else {| own := own st ++ [(k, VObj props)]; proto := proto st |}
  end.

(** [isChartEnabled]. *)
Definition isChartEnabled (st : state) (relativePath : string) : value :=
  match lookup st relativePath with
  | Value v => if truthy v then default VUndefined (get v "enabled") else VBool true
  | Builtin => VUndefined
  end.

(** [setChartEnabled]. What [saveState] writes is not read again before the
    plugin restarts, and its failure is caught. *)
Definition setChartEnabled (st : state) (relativePath : string) (enabled : value)
    : state :=
  assign st relativePath [("enabled", enabled)].

End ChartState.

(** ** [file-scanner.js] *)

Module Scanner.

(** What [scanChartsRecursively] computes from the names alone for a file
    [name] met in the directory [currentPath]: the properties [path],
    [relativePath] and [folder] of its entry. *)
Definition located (cwd basePath currentPath name : string)
    : string * string * string :=
  let fullPath := Path.join [currentPath; name] in
  let relativePath := Path.relative cwd basePath fullPath in
  let folder :=
    let d := Routes.dirname relativePath in
    if Str.truthy d then d else "/" in
  (fullPath, relativePath, if decide (folder = ".") then "/" else folder).

(** Whether [scanChartsRecursively] lists a file of this name. *)
Definition listed (name : string) : bool := Str.endsWith name ".mbtiles".

(** Whether [scanChartsRecursively] and [scanAllFolders] leave out a
    directory of this name. *)
Definition skipped (name : string) : bool :=
  Str.startsWith name "." || bool_decide (name = "node_modules").

End Scanner.

(** ** The plugin: the charts it serves and the changes it announces *)

Module Plugin.
Import Js Loader.

Definition chartTilesPath : string := "/signalk/chart-tiles".

(** [serverMajorVersion], from [app.config.version]. *)
Definition serverMajorVersion (version : option string) : value :=
  match version with
  | Some v =>
      if Str.truthy v
      then VNum (Num.parseInt_string (default "" (head (Str.split "."%char v))))
      else VStr "1"
  | None => VStr "1"
  end.

(** [v === n] for a number [n]. *)
Definition is_number (v : value) (n : Z) : bool :=
  match v with VNum x => Num.eqb x (Num.Int n) | _ => false end.

(** [s.replace(pattern, replacement)] for a string pattern and a
    replacement without [$]: the first occurrence is replaced. *)
Fixpoint replace_chars (pattern replacement l : list ascii) : list ascii :=
  if Str.prefix_of pattern l then replacement ++ drop (length pattern) l
  else
    match l with
    | [] => []
    | c :: l' => c :: replace_chars pattern replacement l'
    end.

Definition replace (s pattern replacement : string) : string :=
  Str.of_chars (replace_chars (Str.chars pattern) (Str.chars replacement) (Str.chars s)).

(** The properties of a chart that [_.omit] leaves. *)
Definition public (provider : chart) : list (string * value) :=
  [("identifier", VStr (identifier provider)); ("name", name provider);
   ("description", description provider); ("bounds", bounds provider);
   ("minzoom", minzoom provider); ("maxzoom", maxzoom provider);
   ("format", format provider); ("type", type provider);
   ("scale", scale provider)].

(** [sanitizeProvider], for a chart of the registry: the object it returns,
    as the map of its properties. *)
Definition sanitizeProvider (provider : chart) (version : value)
    : gmap string value :=
  let v :=
    if is_number version 1 then
      [("tilemapUrl", VStr (replace (v1_tilemapUrl provider) "~tilePath~" chartTilesPath));
       ("chartLayers", VArr (v1_chartLayers provider))]
    else if is_number version 2 then
      [("url", VStr (if Str.truthy (v2_url provider)
                     then replace (v2_url provider) "~tilePath~" chartTilesPath
                     else ""));
       ("layers", VArr (v2_layers provider))]
    else [] in
  list_to_map (public provider ++ v).

(** [sanitizeProvider] for a member of [Object.prototype], which has none
    of the properties of a chart: with version 1 reading [replace] of the
    missing [tilemapUrl] throws ([None]). *)
Definition sanitizeInherited (version : value) : option (gmap string value) :=
  if is_number version 1 then None
  else if is_number version 2 then Some {[ "url" := VStr "" ]}
  else Some ∅.

(** The keys that [_.pickBy] (lodash 4.17.21) never sets in its result. *)
Definition unsettable : list string := ["__proto__"; "constructor"; "prototype"].

(** [_.pickBy(object, predicate)] for [undefined] ([None]) or a plain object
    whose prototype is [Object.prototype]. *)
Definition pickBy (predicate : chart → value) (object : option (gmap string chart))
    : gmap string chart :=
  match object with
  | None => ∅
  | Some o =>
      filter (λ e, truthy (predicate e.2) = true ∧ e.1 ∉ unsettable) o
  end.

(** The value that [refreshChartProviders] (and [doStartup]) assigns to
    [chartProviders], from what [findCharts] resolved to. *)
Definition refreshChartProviders (cwd chartPath : string) (st : ChartState.state)
    (charts : option (gmap string chart)) : gmap string chart :=
  pickBy
    (λ chart,
       let relativePath :=
         Path.relative cwd chartPath
           (if Str.truthy (_filePath chart) then _filePath chart else "") in
       ChartState.isChartEnabled st relativePath)
    charts.

(** [chartProviders[identifier]]. *)
Inductive provider :=
| NoProvider
| Chart (c : chart)
| Inherited.

Definition getProvider (chartProviders : gmap string chart) (identifier : string)
    : provider :=
  match chartProviders !! identifier with
  | Some c => Chart c
  | None =>
      if bool_decide (identifier ∈ ChartState.inherited_names) then Inherited
      else NoProvider
  end.

(** A message handed to [app.handleMessage] by [emitChartDelta]: the path
    and the value of its one update; [None] is [null]. *)
Record delta := {
  d_path : string;
  d_value : option (gmap string value)
}.

Definition emitChartDelta (chartId : string) (chartValue : option (gmap string value))
    : delta :=
  {| d_path := "resources.charts." +:+ chartId; d_value := chartValue |}.

(** The end of the handler of [POST .../charts/:chartPath/toggle], after
    the providers were refreshed: the deltas it emits, or [None] when
    [sanitizeProvider] throws (the answer is then status 500). *)
Definition toggleDeltas (version : value) (chartProviders : gmap string chart)
    (chartPathParam : string) (enabled : bool) : option (list delta) :=
  if enabled then
    match getProvider chartProviders (Routes.withoutExtension chartPathParam) with
    | Chart c => Some [emitChartDelta (identifier c) (Some (sanitizeProvider c version))]
    | Inherited =>
        chartData ← sanitizeInherited version;
        Some [emitChartDelta "undefined" (Some chartData)]
    | NoProvider => Some []
    end
  else
    Some [emitChartDelta (Routes.withoutExtension (Path.basename chartPathParam)) None].

(** The state of the plugin that the handlers below read and write. *)
Record plugin := {
  chartState : ChartState.state;
  chartProviders : gmap string chart;
  downloads : DownloadManager.manager
}.

(** The handler of [POST .../charts/:chartPath/toggle] for a request that
    is served alone, from the decoded parameter and the [enabled] of the
    body; [charts] is what [findCharts] resolves to. *)
Definition toggle (cwd chartPath : string) (version : value)
    (chartPathParam : string) (enabled : value)
    (charts : option (gmap string chart)) (p : plugin)
    : plugin * list delta * Routes.reply :=
  match enabled with
  | VBool b =>
      let st := ChartState.setChartEnabled (chartState p) chartPathParam enabled in
      let p' := {| chartState := st;
                   chartProviders := refreshChartProviders cwd chartPath st charts;
                   downloads := downloads p |} in
      match toggleDeltas version (chartProviders p') chartPathParam b with
      | Some deltas =>
          (p', deltas,
           Routes.SendSuccess 200 (if b then "Chart enabled" else "Chart disabled"))
      | None => (p', [], Routes.Send 500 "Error toggling chart state")
      end
  | _ => (p, [], Routes.Send 400 "enabled parameter must be a boolean")
  end.



(** What [cancelJob] makes of a job. *)
Definition cancelled (now : Z) (j : DownloadManager.job) : DownloadManager.job :=
  DownloadManager.with_completedAt now
    (DownloadManager.with_error "Cancelled by user"
       (DownloadManager.with_status DownloadManager.failed j)).


#[global] Instance plain_dec (seg : string) : Decision (Routes.plain seg).
Proof. unfold Routes.plain. apply _. Defined.

(** A name that an entry of a directory can have (not empty, without a
    slash, neither [.] nor [..]), and that does not make the identifier
    [__proto__], for which the assignment in [findCharts] replaces the
    prototype of the registry. *)
Definition ordinary_name (name : string) : bool :=
  bool_decide (Routes.plain name)
  && negb (bool_decide (stripMbtiles name = "__proto__")).

(** Whether every entry of the tree has such a name. *)
Fixpoint ordinary (n : node) : bool :=
  match n with
  | Dir entries =>
      (fix each (l : list (string * node)) : bool :=
         match l with
         | [] => true
         | (fname, child) :: rest =>
             ordinary_name fname && ordinary child && each rest
         end) entries
  | _ => true
  end.

(** The place of a chart below the directory [/dirs/ps]: the folders [qs]
    that lead to it, none of them one that the walk leaves out or takes for
    a container, and the [name] of its file or directory. *)
Definition placed (dirs ps : list string) (c : chart) : Prop :=
  ∃ qs name,
    Forall Routes.plain qs ∧ Routes.plain name
    ∧ Forall (λ q, Scanner.skipped q = false ∧ isMbtilesName q = false) qs
    ∧ _filePath c = "/" +:+ Str.join "/" (dirs ++ ps ++ qs ++ [name])
    ∧ identifier c ≠ "__proto__"
    ∧ ((isMbtilesName name = true ∧ identifier c = stripMbtiles name
          ∧ _fileFormat c = "mbtiles")
       ∨ (isMbtilesName name = false ∧ Scanner.skipped name = false
          ∧ identifier c = name ∧ _fileFormat c = "directory")).

(** The handler of [POST .../download-chart-locker], from the fields of the
    form on. [chartPath] is [props.chartPath], which is [undefined]
    ([None]) when the configuration does not name it; [exists_] and
    [mkdir_ok] tell whether the target directory exists and whether
    creating it succeeds. The result is the manager and the id of the new
    job, or [None] for the answer with status 500. *)
Definition downloadChartLocker (chartPath : option string)
    (exists_ mkdir_ok : string → bool) (rnd : string) (now : Z)
    (downloadUrl targetFolder chartName : string) (m : DownloadManager.manager)
    : DownloadManager.manager * option string :=
  let targetDir :=
    if decide (targetFolder = "/") then chartPath
    else (λ base, Path.join [base; targetFolder]) <$> chartPath in
  match targetDir with
  | Some dir =>
      if exists_ dir || mkdir_ok dir then
        let created := DownloadManager.createJob rnd downloadUrl dir chartName now m in
        (created.1, Some created.2)
      else (m, None)
  | None => (m, None)
  end.

(** What [getTile] of a tile database hands to its callback: the tile, or
    an error with its message. *)
Inductive getTile_outcome :=
| Tile (data : string)
| TileError (message : string).

(** What the tile route answers: what [serveTileFromFilesystem] does, the
    tile of a database with status 200, a bare status, or a [TypeError]
    for a chart without a database handle. *)
Inductive tile_answer :=
| FromFile (r : Tiles.tile_response)
| TileBody (data : string)
| TileStatus (code : Z)
| TileThrown.

(** [serveTileFromMbtiles]. *)
Definition serveTileFromMbtiles
    (getTile : string → Num.number → Num.number → Num.number → getTile_outcome)
    (provider : chart) (z x y : Num.number) : tile_answer :=
  match _mbtilesHandle provider with
  | Some handle =>
      match getTile handle z x y with
      | Tile data => TileBody data
      | TileError message =>
          if decide (message = "Tile does not exist") then TileStatus 404
          else TileStatus 500
      end
  | None => TileThrown
  end.

(** The handler of [GET /signalk/chart-tiles/:identifier/:z/:x/:y], from
    the parameters of the request on. *)
Definition tileRoute (sendFile : string → Tiles.sendfile_outcome)
    (getTile : string → Num.number → Num.number → Num.number → getTile_outcome)
    (cwd : string) (chartProviders : gmap string chart)
    (identifier z x y : string) : option tile_answer :=
  let ix := Num.parseInt_string x in
  let iy := Num.parseInt_string y in
  let iz := Num.parseInt_string z in
  match getProvider chartProviders identifier with
  | NoProvider => Some (TileStatus 404)
  | Chart provider =>
      if decide (_fileFormat provider = "directory")
      then FromFile <$> Tiles.serveTileFromFilesystem sendFile cwd provider iz ix iy
      else if decide (_fileFormat provider = "mbtiles")
      then Some (serveTileFromMbtiles getTile provider iz ix iy)
      else Some (TileStatus 500)
  | Inherited => Some (TileStatus 500)
  end.

(** The value that reading a run of digits adds to what was read. *)
Definition read (acc : Z) (l : list ascii) : Z :=
  foldl (λ a c, a * 10 + (Z.of_nat (nat_of_ascii c) - 48))%Z acc l.

End Plugin.

(** * Properties *)

(** ** Strings and paths *)

Section StringFacts.
Import Str.

Lemma chars_of_chars (l : list ascii) : chars (of_chars l) = l.
Proof. apply String.list_ascii_of_string_of_list_ascii. Qed.

Lemma of_chars_chars (s : string) : of_chars (chars s) = s.
Proof. apply String.string_of_list_ascii_of_string. Qed.

Lemma chars_app (s1 s2 : string) : chars (s1 +:+ s2) = chars s1 ++ chars s2.
Proof.
  induction s1 as [|c s1 IH]; simpl; [reflexivity|].
  unfold chars in *. simpl. by rewrite IH.
Qed.

Lemma of_chars_app (l1 l2 : list ascii) :
  of_chars (l1 ++ l2) = of_chars l1 +:+ of_chars l2.
Proof.
  rewrite <- (of_chars_chars (of_chars l1 +:+ of_chars l2)).
  by rewrite chars_app, !chars_of_chars.
Qed.

Lemma chars_inj (s1 s2 : string) : chars s1 = chars s2 → s1 = s2.
Proof. intros H. by rewrite <- (of_chars_chars s1), H, of_chars_chars. Qed.

Lemma split_chars_nonempty sep l : split_chars sep l ≠ [].
Proof.
  destruct l as [|c l]; simpl; [done|].
  case_decide; [done|]. by destruct (split_chars sep l).
Qed.

(** A separator cuts the pieces of what is before it from the pieces of
    what is after it. *)
Lemma split_chars_app sep a b :
  split_chars sep (a ++ sep :: b) = split_chars sep a ++ split_chars sep b.
Proof.
  induction a as [|c a IH]; simpl.
  - by case_decide.
  - case_decide; [by rewrite IH|].
    rewrite IH. pose proof (split_chars_nonempty sep a).
    by destruct (split_chars sep a).
Qed.

Lemma split_chars_free sep a : sep ∉ a → split_chars sep a = [a].
Proof.
  induction a as [|c a IH]; simpl; [done|].
  intros Hnot. apply not_elem_of_cons in Hnot as [Hc Ha].
  case_decide; [congruence|]. by rewrite IH.
Qed.

Lemma split_app sep (a b : string) :
  split sep (a +:+ String sep b) = split sep a ++ split sep b.
Proof.
  unfold split. rewrite chars_app. change (chars (String sep b)) with (sep :: chars b).
  by rewrite split_chars_app, fmap_app.
Qed.

Lemma split_free sep (a : string) : sep ∉ chars a → split sep a = [a].
Proof.
  intros H. unfold split. rewrite split_chars_free by done.
  simpl. by rewrite of_chars_chars.
Qed.

End StringFacts.

Example basename_url :
  Path.basename "https://host/chart.mbtiles?x=1" = "chart.mbtiles?x=1".
Proof. reflexivity. Qed.

Example join_dir_file :
  Path.join ["/charts/sub/"; "../a.mbtiles"] = "/charts/a.mbtiles".
Proof. reflexivity. Qed.

Example resolve_tile :
  Path.resolve "/cwd" ["/charts/osm"; "3/4/5.png"] = "/charts/osm/3/4/5.png".
Proof. reflexivity. Qed.

Example to_string_fraction :
  Num.to_string (Num.div (Num.Int 1) (Num.Int 3)) = "0.3333333333333333".
Proof. vm_compute. reflexivity. Qed.

Example to_string_large :
  Num.to_string (Num.of_Z (2 ^ 70)) = "1.1805916207174113e+21".
Proof. vm_compute. reflexivity. Qed.

Example parseInt_prefix : Num.parseInt_string "  42px" = Num.Int 42.
Proof. vm_compute. reflexivity. Qed.

Example parseFloat_fraction :
  Num.to_string (Num.parseFloat_string "-12.5e-1x") = "-1.25".
Proof. vm_compute. reflexivity. Qed.

(** ** The metadata parsers *)

Section ParserFacts.
Import Js Loader.















Lemma get_defined (v : value) :
  v ≠ VUndefined → v ≠ VNull → ∀ k, Js.get v k = Some (prop v k).
Proof. intros ?? k. unfold prop. destruct v; simpl; congruence. Qed.


End ParserFacts.

Ltac by_computation := apply (bool_decide_unpack _); vm_compute; exact I.







(** ** Chart discovery *)

Section LoaderFacts.
Import Js Loader.

(** Induction on a directory tree, the entries of a directory first. *)
Lemma node_induction (P : node → Prop) :
  (∀ d, P (File d)) →
  (∀ entries, Forall (λ e, P (snd e)) entries → P (Dir entries)) →
  P DirUnreadable →
  ∀ n, P n.
Proof.
  intros HF HD HU. fix IH 1. intros [d|entries|]; [apply HF| |apply HU].
  apply HD. revert entries. fix IHl 1. intros [|[k n] rest]; constructor.
  - apply IH.
  - apply IHl.
Qed.



(** A chart from a directory has a truthy format; its bounds are whatever
    the parser made of them. *)
Lemma directoryToMapInfo_some file ident entries c :
  directoryToMapInfo file ident entries = Some c →
  ∃ info, loadInfo entries = Resolved info
          ∧ truthy (format c) = true ∧ format c = i_format info
          ∧ bounds c = i_bounds info ∧ _fileFormat c = "directory"
          ∧ _filePath c = file ∧ identifier c = ident ∧ _flipY c = i_flipY info.
Proof.
  unfold directoryToMapInfo. destruct (loadInfo entries) as [info| |]; [|done..].
  destruct (truthy (i_format info)) eqn:Hf; simpl; [|done].
  intros [= <-]. exists info. simpl. done.
Qed.


Ltac destruct_rest H rest others Hrest :=
  match type of H with
  | context [?each rest] => destruct (each rest) as [others|] eqn:Hrest
  end.

(** Every chart the walk returns was made by one of the two constructors. *)
Lemma findChartsRecursive_sources cwd n :
  ∀ currentDir results c,
    findChartsRecursive cwd currentDir n = Some results →
    Some c ∈ results →
    (∃ file fname md, openMbtilesFile file fname (Some md) = Some c)
    ∨ (∃ file ident entries, directoryToMapInfo file ident entries = Some c).
Proof.
  induction n as [d|entries IH|] using node_induction;
    intros currentDir results c; simpl; [done| |done].
  revert results. induction IH as [|[fname child] rest Hchild _ IHrest];
    intros results Hres Hin.
  - simplify_eq. by apply elem_of_nil in Hin.
  - simpl in Hchild.
    destruct (isMbtilesName fname) eqn:Hname.
    + simpl in Hres.
      destruct_rest Hres rest others Hrest; simpl in Hres; [|done].
      injection Hres as <-. apply elem_of_cons in Hin as [Hin|Hin].
      * left. destruct (mbtilesInfo child) as [md|]; [eauto|done].
      * by eapply IHrest.
    + destruct (isDirectory child) eqn:Hdir.
      * destruct (Str.startsWith fname "." || bool_decide (fname = "node_modules")).
        -- simpl in Hres.
           destruct_rest Hres rest others Hrest; simpl in Hres; [|done].
           injection Hres as <-. by eapply IHrest.
        -- destruct child as [d|sub|]; [done| |done].
           destruct (directoryToMapInfo _ fname sub) as [chartInfo|] eqn:Hinfo.
           ++ simpl in Hres.
              destruct_rest Hres rest others Hrest; simpl in Hres; [|done].
              injection Hres as <-. apply elem_of_cons in Hin as [Hin|Hin].
              ** right. simplify_eq. eauto.
              ** by eapply IHrest.
           ++ destruct (findChartsRecursive cwd _ (Dir sub)) as [inner|] eqn:Hinner;
                simpl in Hres; [|done].
              destruct_rest Hres rest others Hrest; simpl in Hres; [|done].
              injection Hres as <-. apply elem_of_app in Hin as [Hin|Hin].
              ** by eapply Hchild.
              ** by eapply IHrest.
      * simpl in Hres.
        destruct_rest Hres rest others Hrest; simpl in Hres; [|done].
        injection Hres as <-. by eapply IHrest.
Qed.

(** Every chart of the registry is one of the charts found, under its
    identifier. *)
Lemma foldl_assign_lookup (l : list chart) (m : gmap string chart) key c :
  foldl assign m l !! key = Some c →
  (c ∈ l ∧ identifier c = key) ∨ m !! key = Some c.
Proof.
  revert m. induction l as [|x l IH]; simpl; intros m H; [by right|].
  destruct (IH _ H) as [[Hin Hid]|Hm]; [left; split; [by right|done]|].
  unfold assign in Hm. case_decide; [by right|].
  destruct (decide (identifier x = key)) as [Heq|Hne].
  - rewrite Heq, lookup_insert_eq in Hm. injection Hm as ->. left. split; [left|done].
  - rewrite lookup_insert_ne in Hm by done. by right.
Qed.

End LoaderFacts.




(** ** Tile resolution *)

Section PathFacts.
Import Str.

Lemma append_assoc (a b c : string) : (a +:+ b) +:+ c = a +:+ b +:+ c.
Proof. apply chars_inj. by rewrite !chars_app, app_assoc. Qed.

Lemma append_empty_r (a : string) : a +:+ "" = a.
Proof. apply chars_inj. by rewrite chars_app, app_nil_r. Qed.

Lemma join_app sep (l1 l2 : list string) :
  l1 ≠ [] → l2 ≠ [] →
  join sep (l1 ++ l2) = join sep l1 +:+ sep +:+ join sep l2.
Proof.
  intros H1 H2. induction l1 as [|s [|s' l1] IH]; [done| |].
  - simpl. by destruct l2.
  - change (join sep ((s :: s' :: l1) ++ l2))
      with (s +:+ sep +:+ join sep ((s' :: l1) ++ l2)).
    rewrite IH by done.
    change (join sep (s :: s' :: l1)) with (s +:+ sep +:+ join sep (s' :: l1)).
    by rewrite !append_assoc.
Qed.

Lemma split_join sep (l : list string) :
  Forall (λ s, sep ∉ chars s) l → l ≠ [] →
  split sep (join (String sep "") l) = l.
Proof.
  intros Hl Hne. induction Hl as [|s [|s' l] Hs Hl IH]; [done| |].
  - simpl. by apply split_free.
  - change (join (String sep "") (s :: s' :: l))
      with (s +:+ String sep (join (String sep "") (s' :: l))).
    rewrite split_app, split_free by done. by rewrite IH.
Qed.

(** Segments that normalization keeps as they are. *)
Lemma normalize_segments_plain allow (l rest acc : list string) :
  Forall (λ seg, seg ≠ "" ∧ seg ≠ "." ∧ seg ≠ "..") l →
  Path.normalize_segments allow acc (l ++ rest)
  = Path.normalize_segments allow (rev l ++ acc) rest.
Proof.
  intros Hl. revert acc. induction Hl as [|seg l (H1 & H2 & H3) _ IH]; intros acc.
  - reflexivity.
  - simpl. rewrite !decide_False by done.
    rewrite IH. by rewrite <- app_assoc.
Qed.

(** Resolving segments against an absolute, normalized directory appends
    them. *)
Lemma resolve_plain cwd (dirs rel : list string) :
  dirs ≠ [] → rel ≠ [] →
  Forall (λ seg, seg ≠ "" ∧ seg ≠ "." ∧ seg ≠ ".." ∧ Path.slash ∉ chars seg) dirs →
  Forall (λ seg, seg ≠ "" ∧ seg ≠ "." ∧ seg ≠ ".." ∧ Path.slash ∉ chars seg) rel →
  Path.resolve cwd ["/" +:+ join "/" dirs; join "/" rel]
  = ("/" +:+ join "/" dirs) +:+ "/" +:+ join "/" rel.
Proof.
  intros Hd Hr Hdirs Hrel.
  assert (Hrel_ne : join "/" rel ≠ "").
  { destruct Hrel as [|seg [|seg' rel] (Hseg & _) _]; [done|done|].
    simpl. destruct seg; [done|discriminate]. }
  assert (Hrel_rel : Path.isAbsolute (join "/" rel +:+ "/" +:+ "") = false).
  { destruct Hrel as [|seg rel' (Hseg & _ & _ & Hslash) _]; [done|].
    destruct seg as [|ch seg]; [done|].
    assert (ch ≠ Path.slash) by (intros ->; apply Hslash; left).
    unfold Path.isAbsolute, startsWith.
    destruct rel'; simpl; by case_decide. }
  unfold Path.resolve. simpl rev. simpl Path.resolve_from_right.
  case_decide; [done|]. rewrite Hrel_rel. simpl.
  assert (Hfree : ∀ l : list string,
            Forall (λ seg, seg ≠ "" ∧ seg ≠ "." ∧ seg ≠ ".." ∧ Path.slash ∉ chars seg) l →
            Forall (λ s, Path.slash ∉ chars s) l).
  { intros l Hl. eapply Forall_impl; [exact Hl|]. by intros seg (_ & _ & _ & Hs). }
  assert (Hkeep : ∀ l : list string,
            Forall (λ seg, seg ≠ "" ∧ seg ≠ "." ∧ seg ≠ ".." ∧ Path.slash ∉ chars seg) l →
            Forall (λ seg, seg ≠ "" ∧ seg ≠ "." ∧ seg ≠ "..") l).
  { intros l Hl. eapply Forall_impl; [exact Hl|]. by intros seg (? & ? & ? & _). }
  assert (Hsplit :
            split Path.slash
              (("/" +:+ join "/" dirs) +:+ "/" +:+ join "/" rel +:+ "/" +:+ "")
            = "" :: (dirs ++ rel) ++ [""]).
  { change (("/" +:+ join "/" dirs) +:+ "/" +:+ join "/" rel +:+ "/" +:+ "")
      with (("" +:+ String Path.slash (join (String Path.slash "") dirs))
              +:+ String Path.slash
                    (join (String Path.slash "") rel +:+ String Path.slash "")).
    rewrite !split_app, !split_join by auto.
    change (split Path.slash "") with [""]. simpl. by rewrite <- app_assoc. }
  unfold Path.normalizeString. rewrite Hsplit. simpl.
  rewrite normalize_segments_plain by (apply Forall_app; auto).
  simpl. rewrite app_nil_r, rev_involutive.
  rewrite join_app by done. by rewrite append_assoc.
Qed.

End PathFacts.

Section DecimalFacts.
Import Str.

Lemma digit_char_range (d : Z) :
  (0 ≤ d < 10)%Z → (48 ≤ nat_of_ascii (Num.digit_char d) ≤ 57)%nat.
Proof.
  intros Hd.
  assert (d = 0 ∨ d = 1 ∨ d = 2 ∨ d = 3 ∨ d = 4 ∨ d = 5 ∨ d = 6 ∨ d = 7
          ∨ d = 8 ∨ d = 9)%Z as Hcases by lia.
  repeat (destruct Hcases as [->|Hcases]; [vm_compute; lia|]).
  subst d. vm_compute. lia.
Qed.

Lemma digits_fuel_range fuel z acc :
  (0 ≤ z)%Z →
  Forall (λ c, (48 ≤ nat_of_ascii c ≤ 57)%nat) acc →
  Forall (λ c, (48 ≤ nat_of_ascii c ≤ 57)%nat) (Num.digits_fuel fuel z acc).
Proof.
  revert z acc. induction fuel as [|fuel IH]; intros z acc Hz Hacc; simpl; [done|].
  destruct (z <? 10)%Z eqn:Hlt.
  - apply Z.ltb_lt in Hlt. constructor; [|done]. apply digit_char_range. lia.
  - apply IH.
    + apply Z.div_pos; lia.
    + constructor; [|done]. apply digit_char_range. apply Z.mod_pos_bound. lia.
Qed.

Lemma digits_fuel_nonempty fuel z acc :
  acc ≠ [] ∨ fuel ≠ O → Num.digits_fuel fuel z acc ≠ [].
Proof.
  revert z acc. induction fuel as [|fuel IH]; intros z acc H; simpl.
  - by destruct H.
  - destruct (z <? 10)%Z; [done|]. apply IH. by left.
Qed.

(** A printed integer starts with a digit or a minus sign and goes on with
    digits. *)
Lemma decimal_chars (z : Z) :
  ∃ c rest, chars (Num.decimal z) = c :: rest
            ∧ c ≠ Path.slash ∧ c ≠ "."%char ∧ Forall (λ c, c ≠ Path.slash) rest.
Proof.
  assert (Hdigit : ∀ c, (48 ≤ nat_of_ascii c ≤ 57)%nat → c ≠ Path.slash ∧ c ≠ "."%char).
  { intros c Hc. split; intros ->; vm_compute in Hc; lia. }
  assert (Hdigits : ∀ n, (0 ≤ n)%Z →
            ∃ c rest, Num.digits n = c :: rest
                      ∧ Forall (λ c, (48 ≤ nat_of_ascii c ≤ 57)%nat) (c :: rest)).
  { intros n Hn. unfold Num.digits.
    pose proof (digits_fuel_range (S (Z.to_nat (Z.log2 n))) n [] Hn (Forall_nil_2 _)) as Hr.
    pose proof (digits_fuel_nonempty (S (Z.to_nat (Z.log2 n))) n [] (or_intror (Nat.neq_succ_0 _))) as Hne.
    destruct (Num.digits_fuel _ n []) as [|c rest]; [done|]. eauto. }
  unfold Num.decimal. destruct (z <? 0)%Z eqn:Hneg.
  - apply Z.ltb_lt in Hneg. destruct (Hdigits (- z)%Z) as (c & rest & Hd & Hr); [lia|].
    exists "-"%char, (c :: rest).
    change (chars (String "-" ?s)) with ("-"%char :: chars s).
    rewrite chars_of_chars, Hd. repeat split; try done.
    eapply Forall_impl; [exact Hr|]. intros ch Hch. by apply Hdigit.
  - apply Z.ltb_ge in Hneg. destruct (Hdigits z Hneg) as (c & rest & Hd & Hr).
    exists c, rest. rewrite chars_of_chars, Hd.
    apply Forall_cons in Hr as [Hc Hr].
    destruct (Hdigit c Hc). repeat split; try done.
    eapply Forall_impl; [exact Hr|]. intros ch Hch. by apply Hdigit.
Qed.

(** What starts like a printed integer and has no slash is a path segment
    that normalization keeps. *)
Lemma plain_segment (s : string) c rest :
  chars s = c :: rest → c ≠ Path.slash → c ≠ "."%char →
  Forall (λ c, c ≠ Path.slash) rest →
  s ≠ "" ∧ s ≠ "." ∧ s ≠ ".." ∧ Path.slash ∉ chars s.
Proof.
  intros Hs Hc1 Hc2 Hrest. repeat split.
  - intros ->. done.
  - intros ->. injection Hs as <- _. done.
  - intros ->. injection Hs as <- _. done.
  - rewrite Hs. intros Hin. apply elem_of_cons in Hin as [Hin|Hin]; [done|].
    rewrite Forall_forall in Hrest. by apply (Hrest _ Hin).
Qed.

Lemma decimal_plain (z : Z) :
  Num.decimal z ≠ "" ∧ Num.decimal z ≠ "." ∧ Num.decimal z ≠ ".."
  ∧ Path.slash ∉ chars (Num.decimal z).
Proof.
  destruct (decimal_chars z) as (c & rest & Hs & Hc1 & Hc2 & Hrest).
  by eapply plain_segment.
Qed.

Lemma decimal_dot_plain (z : Z) (ext : string) :
  Path.slash ∉ chars ext →
  let s := Num.decimal z +:+ "." +:+ ext in
  s ≠ "" ∧ s ≠ "." ∧ s ≠ ".." ∧ Path.slash ∉ chars s.
Proof.
  intros Hext s.
  destruct (decimal_chars z) as (c & rest & Hs & Hc1 & Hc2 & Hrest).
  eapply (plain_segment s c (rest ++ "."%char :: chars ext)); try done.
  - unfold s. rewrite chars_app, Hs. reflexivity.
  - apply Forall_app. split; [done|]. constructor; [done|].
    apply Forall_forall. intros ch Hch ->. done.
Qed.

End DecimalFacts.

Lemma pow2_safe (z : Z) : (0 ≤ z ≤ 53)%Z → (1 ≤ 2 ^ z ≤ 2 ^ 53)%Z.
Proof.
  intros Hz. split.
  - change 1%Z with (2 ^ 0)%Z. apply Z.pow_le_mono_r; lia.
  - apply Z.pow_le_mono_r; lia.
Qed.

Lemma of_Z_safe (z : Z) : (- 2 ^ 53 ≤ z ≤ 2 ^ 53)%Z → Num.of_Z z = Num.Int z.
Proof.
  intros Hz. unfold Num.of_Z, Num.safe.
  destruct (- 2 ^ 53 <=? z)%Z eqn:H1; [|apply Z.leb_gt in H1; lia].
  destruct (z <=? 2 ^ 53)%Z eqn:H2; [done|apply Z.leb_gt in H2; lia].
Qed.

(** For integral tile coordinates in the range where doubles are exact, the
    flipped row is [2^z - 1 - y]. *)
Lemma flippedY_exact (z y : Z) :
  (0 ≤ z ≤ 53)%Z → (0 ≤ y ≤ 2 ^ 53)%Z →
  (p ← Num.pow2 (Num.Int z); Some (Num.sub (Num.sub p (Num.Int 1)) (Num.Int y)))
  = Some (Num.Int (2 ^ z - 1 - y)).
Proof.
  intros Hz Hy. pose proof (pow2_safe z Hz) as Hp.
  unfold Num.pow2. destruct (0 <=? z)%Z eqn:H0; [|apply Z.leb_gt in H0; lia].
  simpl. rewrite of_Z_safe by lia. simpl.
  rewrite of_Z_safe by lia. simpl. by rewrite of_Z_safe by lia.
Qed.



(** ** The download manager: invariants and scheduling *)

Section ManagerFacts.
Import DownloadManager.

Lemma statuses_update_job (r : ref) f m :
  statuses (update_job r f m)
  = match heap m !! r with
    | Some j => <[r := status (f j)]> (statuses m)
    | None => statuses m
    end.
Proof.
  unfold statuses, update_job. cbn [heap].
  destruct (heap m !! r); [|done]. by rewrite list_fmap_insert.
Qed.

Lemma statuses_update_job_same (r : ref) f m :
  (∀ j, status (f j) = status j) → statuses (update_job r f m) = statuses m.
Proof.
  intros Hf. rewrite statuses_update_job.
  destruct (heap m !! r) as [j|] eqn:Hj; [|done].
  apply list_insert_id. unfold statuses.
  by rewrite list_lookup_fmap, Hj, Hf.
Qed.

Lemma task_views_update_task t f m :
  (∀ tk, t_job (f tk) = t_job tk ∧ t_settled (f tk) = t_settled tk) →
  task_views (update_task t f m) = task_views m.
Proof.
  intros Hf. unfold task_views, update_task. cbn [tasks].
  destruct (tasks m !! t) as [tk|] eqn:Ht; [|done].
  rewrite list_fmap_insert. apply list_insert_id.
  rewrite list_lookup_fmap, Ht. simpl. by destruct (Hf tk) as [-> ->].
Qed.

Lemma tasks_update_task_elem t f m tk' :
  tk' ∈ tasks (update_task t f m) →
  tk' ∈ tasks m ∨ ∃ tk, tasks m !! t = Some tk ∧ tk' = f tk.
Proof.
  unfold update_task. cbn [tasks].
  destruct (tasks m !! t) as [tk|] eqn:Ht; [|by left].
  intros Hin. apply list_elem_of_lookup in Hin as [i Hi].
  destruct (decide (i = t)) as [->|Hne].
  - rewrite list_lookup_insert_eq in Hi by (by eapply lookup_lt_Some).
    right. exists tk. split; [done|congruence].
  - rewrite list_lookup_insert_ne in Hi by done. left. by eapply list_elem_of_lookup_2.
Qed.

(** A step that leaves the statuses, the tasks' jobs and settlement, the
    table and the counter alone keeps the invariant. *)
Lemma invariant_frame m m' :
  invariant m →
  statuses m' = statuses m → task_views m' = task_views m →
  jobs m' = jobs m → activeDownloads m' = activeDownloads m →
  (∀ tk, tk ∈ tasks m' → t_phase tk = Requesting → t_settled tk = false) →
  invariant m'.
Proof.
  intros [] Hs Ht Hj Ha Hr.
  split; unfold running in *; rewrite ?Hs, ?Ht, ?Hj, ?Ha; done.
Qed.


Lemma statuses_lookup m (r : nat) :
  statuses m !! r = status <$> heap m !! r.
Proof. unfold statuses. apply list_lookup_fmap. Qed.

(** Writing to a job keeps the invariant when its status stays, becomes
    terminal, or becomes [extracting] while its [processJob] is running. *)
Lemma invariant_update_job (r : nat) f m :
  invariant m →
  (∀ j, heap m !! r = Some j →
        status (f j) = status j ∨ status (f j) = failed
        ∨ status (f j) = completed
        ∨ (status (f j) = extracting ∧ r ∈ running m)) →
  invariant (update_job r f m).
Proof.
  intros Hinv Hcases.
  destruct (heap m !! r) as [j|] eqn:Hj.
  2:{ eapply invariant_frame; [exact Hinv| |done..|apply Hinv].
      by rewrite statuses_update_job, Hj. }
  specialize (Hcases j eq_refl).
  assert (Hs : statuses (update_job r f m) = <[r := status (f j)]> (statuses m)).
  { by rewrite statuses_update_job, Hj. }
  assert (Hold : statuses m !! r = Some (status j)).
  { by rewrite statuses_lookup, Hj. }
  destruct Hinv as [Ha Hb Htr Hjr Hnd Hrq Hfl Hnq Htn].
  split; rewrite ?Hs, ?length_insert; try done.
  - intros r' s Hlook Hs'.
    apply list_lookup_insert_Some in Hlook as [(<- & <- & _)|[Hne Hlook]];
      [|by eapply Hfl].
    destruct Hcases as [He|[He|[He|[He Hrun]]]]; rewrite He in Hs'.
    + by eapply Hfl.
    + by destruct Hs'.
    + by destruct Hs'.
    + done.
  - intros v Hv Hq. specialize (Hnq v Hv).
    apply list_lookup_insert_Some in Hq as [(Heq & Hst & _)|[Hne Hlook]]; [|done].
    rewrite <- Heq in Hnq. rewrite Hold in Hnq.
    destruct Hcases as [He|[He|[He|[He _]]]]; rewrite He in Hst; congruence.
Qed.

Lemma invariant_update_job_keep (r : nat) f m :
  invariant m → (∀ j, status (f j) = status j) → invariant (update_job r f m).
Proof. intros Hinv Hf. apply invariant_update_job; [done|]. intros j _. by left. Qed.

(** Writing to a task keeps the invariant when its job and its settlement
    stay, and it does not go back to requesting once settled. *)
Lemma invariant_update_task (t : nat) f m :
  invariant m →
  (∀ tk, t_job (f tk) = t_job tk ∧ t_settled (f tk) = t_settled tk) →
  (∀ tk, tasks m !! t = Some tk → t_phase (f tk) = Requesting → t_settled tk = false) →
  invariant (update_task t f m).
Proof.
  intros Hinv Hf Hphase. eapply invariant_frame; [exact Hinv|done| |done|done|].
  - by apply task_views_update_task.
  - intros tk' Hin Hreq.
    apply tasks_update_task_elem in Hin as [Hin|(tk & Htk & ->)].
    + by eapply inv_requesting.
    + destruct (Hf tk) as [_ ->]. by apply Hphase.
Qed.

Lemma invariant_issue c m : invariant m → invariant (issue c m).
Proof. intros H. eapply invariant_frame; [exact H|done..|]. apply H. Qed.

Lemma find_queued_Some m r :
  find_queued m = Some r →
  ∃ i jobId, jobs m !! i = Some (jobId, r)
             ∧ statuses m !! r = Some queued
             ∧ ∀ k e, jobs m !! k = Some e → k < i →
                      statuses m !! snd e ≠ Some queued.
Proof.
  unfold find_queued. intros Hfind.
  apply fmap_Some in Hfind as ([i [jobId r']] & Hfind & ->).
  apply list_find_Some in Hfind as (Hi & Hq & Hbefore).
  assert (Hstatus : ∀ r0, has_status (heap m) queued r0 = true
                          ↔ statuses m !! r0 = Some queued).
  { intros r0. unfold has_status. rewrite statuses_lookup.
    destruct (heap m !! r0) as [j|]; simpl; [|done].
    rewrite bool_decide_eq_true. split; congruence. }
  exists i, jobId. split; [done|]. split; [by apply Hstatus|].
  intros k e Hk Hlt Hqe. apply (Hbefore k e Hk Hlt). by apply Hstatus.
Qed.

Lemma running_app m (extra : list task) :
  let m' := {| heap := heap m; jobs := jobs m; activeDownloads := activeDownloads m;
               tasks := tasks m ++ extra; fs_calls := fs_calls m |} in
  running m'
  = running m ++ (fst <$> filter (λ v, snd v = false)
                            ((λ tk, (t_job tk, t_settled tk)) <$> extra)).
Proof.
  intros m'. unfold running, task_views. simpl.
  by rewrite fmap_app, filter_app, fmap_app.
Qed.


(** Admitting a queued job keeps the invariant while there is a free slot. *)
Lemma invariant_start (r : nat) now m :
  invariant m → statuses m !! r = Some queued →
  (activeDownloads m < maxConcurrent)%Z →
  invariant (start r now (with_active (activeDownloads m + 1) m)).
Proof.
  intros Hinv Hq Hfree.
  assert (∃ j, heap m !! r = Some j ∧ status j = queued) as (j & Hj & Hsj).
  { rewrite statuses_lookup in Hq. apply fmap_Some in Hq as (j & ? & ?). eauto. }
  set (m0 := with_active (activeDownloads m + 1) m).
  set (m1 := update_job r (λ j, with_startedAt now (with_status downloading j)) m0).
  assert (Hs1 : statuses m1 = <[r := downloading]> (statuses m)).
  { unfold m1. rewrite statuses_update_job. unfold m0. simpl. by rewrite Hj. }
  assert (Hrun : running (start r now m0) = running m ++ [r]).
  { unfold start. fold m1. rewrite running_app. reflexivity. }
  assert (Hviews : task_views (start r now m0) = task_views m ++ [(r, false)]).
  { unfold start, task_views. simpl. by rewrite fmap_app. }
  assert (Hstat : statuses (start r now m0) = <[r := downloading]> (statuses m)).
  { exact Hs1. }
  assert (Hlen : r < length (statuses m)) by (by eapply lookup_lt_Some).
  destruct Hinv as [Ha Hb Htr Hjr Hnd Hrq Hfl Hnq Htn].
  split; rewrite ?Hrun, ?Hviews, ?Hstat, ?length_insert.
  - simpl. rewrite length_app. simpl. lia.
  - simpl. lia.
  - intros v Hv. apply elem_of_app in Hv as [Hv|Hv]; [by apply Htr|].
    apply list_elem_of_singleton in Hv as ->. done.
  - done.
  - done.
  - intros tk Hin Hreq. unfold start in Hin. simpl in Hin.
    apply elem_of_app in Hin as [Hin|Hin].
    + unfold m1, m0 in Hin. simpl in Hin. by apply Hrq.
    + apply list_elem_of_singleton in Hin as ->. done.
  - intros r' s Hlook Hs'. apply elem_of_app.
    apply list_lookup_insert_Some in Hlook as [(<- & _ & _)|[Hne Hlook]].
    + right. by apply list_elem_of_singleton.
    + left. by eapply Hfl.
  - intros v Hv Hqv.
    apply list_lookup_insert_Some in Hqv as [(_ & ? & _)|[Hne Hlook]]; [done|].
    apply elem_of_app in Hv as [Hv|Hv]; [by eapply Hnq|].
    apply list_elem_of_singleton in Hv as ->. done.
  - rewrite fmap_app. simpl. apply NoDup_app. split; [done|]. split.
    + intros x Hx Hin. apply list_elem_of_singleton in Hin as ->.
      apply list_elem_of_fmap in Hx as (v & Hfst & Hv).
      apply (Hnq v Hv). by rewrite <- Hfst.
    + apply NoDup_singleton.
Qed.

Lemma invariant_processQueue now m : invariant m → invariant (processQueue now m).
Proof.
  intros Hinv. unfold processQueue.
  destruct (maxConcurrent <=? activeDownloads m)%Z eqn:Hfull; [done|].
  apply Z.leb_gt in Hfull.
  destruct (find_queued m) as [r|] eqn:Hfind; [|done].
  apply find_queued_Some in Hfind as (i & jobId & _ & Hq & _).
  by apply invariant_start.
Qed.


Lemma finish_job_status result now j :
  status (finish_job result now j) = completed
  ∨ status (finish_job result now j) = failed.
Proof. destruct result; [by right|by left]. Qed.

(** Settling one unsettled entry removes exactly its job from the running
    ones. *)
Lemma filter_settled (views : list (nat * bool)) (t r : nat) :
  views !! t = Some (r, false) →
  length (filter (λ v, snd v = false) views)
  = S (length (filter (λ v, snd v = false) (<[t := (r, true)]> views)))
  ∧ ∀ r', r' ≠ r →
          r' ∈ fst <$> filter (λ v, snd v = false) views →
          r' ∈ fst <$> filter (λ v, snd v = false) (<[t := (r, true)]> views).
Proof.
  intros Ht.
  pose (pre := take t views). pose (post := drop (S t) views).
  assert (Hsplit : views = pre ++ (r, false) :: post).
  { symmetry. by apply take_drop_middle. }
  assert (Hins : <[t := (r, true)]> views = pre ++ (r, true) :: post).
  { apply insert_take_drop. by eapply lookup_lt_Some. }
  rewrite Hins. clearbody pre post. subst views.
  rewrite !filter_app, filter_cons_True, filter_cons_False by (simpl; congruence).
  split.
  - rewrite !length_app. simpl. lia.
  - intros r' Hne. rewrite !fmap_app, !elem_of_app. simpl.
    rewrite elem_of_cons. intros [H|[H|H]]; [by left|done|by right].
Qed.

(** Settling the promise of a task that is past its request keeps the
    invariant: the slot it frees goes to the first queued job. *)
Lemma invariant_settle (t : nat) result now m tk :
  invariant m → tasks m !! t = Some tk → t_phase tk ≠ Requesting →
  invariant (settle t result now m).
Proof.
  intros Hinv Htk Hphase. unfold settle. rewrite Htk.
  destruct (t_settled tk) eqn:Hset; [done|].
  apply invariant_processQueue.
  set (r := t_job tk).
  set (m1 := update_task t set_settled m).
  set (m2 := update_job r (finish_job result now) m1).
  assert (Hview : task_views m !! t = Some (r, false)).
  { unfold task_views. rewrite list_lookup_fmap, Htk. simpl. by rewrite Hset. }
  assert (Hviews1 : task_views m1 = <[t := (r, true)]> (task_views m)).
  { unfold m1, task_views, update_task. cbn [tasks]. rewrite Htk.
    by rewrite list_fmap_insert. }
  assert (Hr : r < length (statuses m)).
  { apply (inv_task_ref m Hinv (r, false)). by eapply list_elem_of_lookup_2. }
  assert (∃ j, heap m !! r = Some j) as [j Hj].
  { apply lookup_lt_is_Some. unfold statuses in Hr. by rewrite length_fmap in Hr. }
  assert (Hstat : ∃ s, (s = completed ∨ s = failed)
                       ∧ statuses m2 = <[r := s]> (statuses m)).
  { exists (status (finish_job result now j)). split; [apply finish_job_status|].
    unfold m2. rewrite statuses_update_job. unfold m1. cbn [heap update_task].
    by rewrite Hj. }
  destruct Hstat as (s & Hs & Hstat).
  destruct (filter_settled _ _ _ Hview) as [Hlen Hkeep].
  assert (Hviews2 : task_views (with_active (activeDownloads m2 - 1) m2)
                    = <[t := (r, true)]> (task_views m)) by exact Hviews1.
  assert (Hrun : running (with_active (activeDownloads m2 - 1) m2)
                 = fst <$> filter (λ v, snd v = false) (<[t := (r, true)]> (task_views m))).
  { unfold running. by rewrite Hviews2. }
  destruct Hinv as [Ha Hb Htr Hjr Hnd Hrq Hfl Hnq Htn].
  split; rewrite ?Hrun, ?Hviews2.
  - change (activeDownloads (with_active (activeDownloads m2 - 1) m2))
      with (activeDownloads m - 1)%Z.
    rewrite Ha. unfold running. rewrite !length_fmap, Hlen. lia.
  - change (activeDownloads (with_active (activeDownloads m2 - 1) m2))
      with (activeDownloads m - 1)%Z. lia.
  - change (statuses (with_active (activeDownloads m2 - 1) m2)) with (statuses m2).
    rewrite Hstat, length_insert. intros v Hv.
    apply list_elem_of_lookup in Hv as [i Hi].
    apply list_lookup_insert_Some in Hi as [(_ & <- & _)|[_ Hi]]; [done|].
    apply Htr. by eapply list_elem_of_lookup_2.
  - change (statuses (with_active (activeDownloads m2 - 1) m2)) with (statuses m2).
    rewrite Hstat, length_insert. exact Hjr.
  - exact Hnd.
  - intros tk' Hin Hreq.
    change (tasks (with_active (activeDownloads m2 - 1) m2)) with (tasks m1) in Hin.
    apply tasks_update_task_elem in Hin as [Hin|(tk0 & Htk0 & ->)]; [by apply Hrq|].
    rewrite Htk in Htk0. injection Htk0 as <-. done.
  - change (statuses (with_active (activeDownloads m2 - 1) m2)) with (statuses m2).
    rewrite Hstat. intros r' s' Hlook Hs'.
    apply list_lookup_insert_Some in Hlook as [(_ & <- & _)|[Hne Hlook]].
    + destruct Hs as [->| ->]; by destruct Hs'.
    + apply Hkeep; [done|]. by eapply Hfl.
  - change (statuses (with_active (activeDownloads m2 - 1) m2)) with (statuses m2).
    rewrite Hstat. intros v Hv Hq.
    apply list_lookup_insert_Some in Hq as [(_ & Hsq & _)|[Hne Hq]].
    + destruct Hs as [->| ->]; discriminate.
    + apply list_elem_of_lookup in Hv as [i Hi].
      apply list_lookup_insert_Some in Hi as [(_ & <- & _)|[_ Hi]]; [done|].
      apply (Hnq v); [by eapply list_elem_of_lookup_2|done].
  - rewrite list_fmap_insert. rewrite list_insert_id; [done|].
    by rewrite list_lookup_fmap, Hview.
Qed.


Lemma running_elem m (t : nat) tk :
  tasks m !! t = Some tk → t_settled tk = false → t_job tk ∈ running m.
Proof.
  intros Ht Hs. unfold running. apply list_elem_of_fmap.
  exists (t_job tk, false). split; [done|]. apply list_elem_of_filter. split; [done|].
  unfold task_views. apply list_elem_of_fmap. exists tk.
  split; [by rewrite Hs|]. by eapply list_elem_of_lookup_2.
Qed.

Lemma map_set_elem js k (r : nat) e :
  e ∈ map_set js k r → e = (k, r) ∨ e ∈ js.
Proof.
  induction js as [|[k' r'] js IH]; simpl.
  - intros ->%list_elem_of_singleton. by left.
  - case_decide.
    + intros [->|Hin]%elem_of_cons; [by left|]. right. by right.
    + intros [->|Hin]%elem_of_cons; [right; by left|].
      destruct (IH Hin) as [->|?]; [by left|]. right. by right.
Qed.

Lemma map_set_refs_nodup js k (r : nat) :
  NoDup (snd <$> js) → r ∉ snd <$> js → NoDup (snd <$> map_set js k r).
Proof.
  induction js as [|[k' r'] js IH]; simpl; intros Hnd Hr.
  - apply NoDup_singleton.
  - apply NoDup_cons in Hnd as [Hr' Hnd]. apply not_elem_of_cons in Hr as [Hne Hr].
    case_decide; simpl.
    + by apply NoDup_cons.
    + apply NoDup_cons. split; [|by apply IH].
      intros Hin. apply list_elem_of_fmap in Hin as (e & He & Hin).
      apply map_set_elem in Hin as [->|Hin]; [by simpl in He|].
      apply Hr'. apply list_elem_of_fmap. eauto.
Qed.

Lemma invariant_createJob rnd url targetDir chartName now m :
  invariant m → invariant (fst (createJob rnd url targetDir chartName now m)).
Proof.
  intros Hinv. unfold createJob. simpl. apply invariant_processQueue.
  set (jobId := "dl_" +:+ _ +:+ "_" +:+ rnd).
  match goal with |- invariant ?m1 => set (m' := m1) end.
  assert (Hs : statuses m' = statuses m ++ [queued]).
  { unfold m', statuses. simpl. by rewrite fmap_app. }
  assert (Hlen : length (heap m) = length (statuses m)).
  { unfold statuses. by rewrite length_fmap. }
  destruct Hinv as [Ha Hb Htr Hjr Hnd Hrq Hfl Hnq Htn].
  split; rewrite ?Hs, ?length_app; try done.
  - intros v Hv. specialize (Htr v Hv). simpl. lia.
  - intros e He. unfold m' in He. simpl in He.
    apply map_set_elem in He as [->|He]; simpl; [lia|].
    specialize (Hjr e He). lia.
  - unfold m'. simpl. apply map_set_refs_nodup; [done|].
    intros Hin. apply list_elem_of_fmap in Hin as (e & He & Hin).
    specialize (Hjr e Hin). lia.
  - intros r s Hlook Hs'.
    apply lookup_app_Some in Hlook as [Hlook|[_ Hlook]]; [by eapply Hfl|].
    destruct (r - length (statuses m)); simpl in Hlook; [|done].
    injection Hlook as <-. by destruct Hs'.
  - intros v Hv Hq. specialize (Htr v Hv).
    rewrite lookup_app_l in Hq by done. by eapply Hnq.
Qed.

Lemma invariant_issues (paths : list string) (f : string → fs_call) m :
  invariant m → invariant (foldl (λ acc p, issue (f p) acc) m paths).
Proof.
  revert m. induction paths as [|p paths IH]; intros m Hinv; simpl; [done|].
  apply IH. by apply invariant_issue.
Qed.

Lemma invariant_cancelJob jobId now m :
  invariant m → invariant (fst (cancelJob jobId now m)).
Proof.
  intros Hinv. unfold cancelJob.
  destruct (getJob m jobId) as [[r j]|]; [|done].
  case_decide; [done|]. simpl.
  apply (invariant_issues _ (λ fileName, Unlink (Path.join [targetDir j; fileName]))).
  apply invariant_update_job; [done|]. intros j' _. right. by left.
Qed.

Lemma invariant_cleanup now m : invariant m → invariant (cleanup now m).
Proof.
  intros [Ha Hb Htr Hjr Hnd Hrq Hfl Hnq Htn]. unfold cleanup.
  split; try done.
  - intros e He. simpl in He. apply list_elem_of_filter in He as [_ He]. by apply Hjr.
  - simpl. eapply sublist_NoDup; [exact Hnd|].
    apply fmap_sublist. apply sublist_filter.
Qed.


Lemma tasks_update_task_lookup (t : nat) f m tk :
  tasks m !! t = Some tk → tasks (update_task t f m) !! t = Some (f tk).
Proof.
  intros Ht. unfold update_task. cbn [tasks]. rewrite Ht.
  apply list_lookup_insert_eq. by eapply lookup_lt_Some.
Qed.

Lemma running_update_task (t : nat) f m :
  (∀ tk, t_job (f tk) = t_job tk ∧ t_settled (f tk) = t_settled tk) →
  running (update_task t f m) = running m.
Proof. intros Hf. unfold running. by rewrite task_views_update_task. Qed.

Lemma invariant_set_phase (t : nat) p m :
  invariant m →
  (p = Requesting → ∀ tk, tasks m !! t = Some tk → t_settled tk = false) →
  invariant (update_task t (set_phase p) m).
Proof.
  intros Hinv Hp. apply invariant_update_task; [done|done|].
  intros tk Htk Hreq. by apply Hp.
Qed.

Lemma invariant_set_counters (t : nat) c d m :
  invariant m → invariant (update_task t (set_counters c d) m).
Proof.
  intros Hinv. apply invariant_update_task; [done|done|].
  intros tk Htk Hreq. eapply inv_requesting; [exact Hinv| |exact Hreq].
  by eapply list_elem_of_lookup_2.
Qed.

(** Leaving the request phase and settling. *)
Lemma invariant_settle_in_phase (t : nat) p result now m tk :
  invariant m → tasks m !! t = Some tk → p ≠ Requesting →
  invariant (settle t result now (update_task t (set_phase p) m)).
Proof.
  intros Hinv Htk Hp.
  eapply (invariant_settle t result now _ (set_phase p tk)).
  - by apply invariant_set_phase.
  - by apply tasks_update_task_lookup.
  - done.
Qed.

Lemma invariant_onResponse t statusCode location contentType contentLength now m :
  invariant m →
  invariant (onResponse t statusCode location contentType contentLength now m).
Proof.
  intros Hinv. unfold onResponse.
  destruct (tasks m !! t) as [tk|] eqn:Htk; [|done].
  destruct (t_phase tk) eqn:Hphase; try done.
  destruct (heap m !! t_job tk) as [j|] eqn:Hj; [|done].
  assert (Hunsettled : t_settled tk = false).
  { eapply inv_requesting; [exact Hinv| |done]. by eapply list_elem_of_lookup_2. }
  destruct (_ && _).
  { by apply invariant_update_job_keep. }
  destruct (negb _).
  { by eapply invariant_settle_in_phase. }
  set (len := Num.parseInt_string _).
  assert (Hinv2 : invariant
            (update_task t (set_counters len (Num.Int 0))
               (update_job (t_job tk) (with_totalBytes len) m))).
  { apply invariant_set_counters. by apply invariant_update_job_keep. }
  destruct (_ || _).
  - apply invariant_set_phase; [|done].
    apply invariant_update_job; [done|]. intros j' _. right. right. right.
    split; [done|]. rewrite running_update_task by done.
    by eapply (running_elem m).
  - apply invariant_set_phase; [|done].
    apply invariant_issue. by apply invariant_update_job_keep.
Qed.

Lemma invariant_onRequestError t message now m :
  invariant m → invariant (onRequestError t message now m).
Proof.
  intros Hinv. unfold onRequestError.
  destruct (tasks m !! t) as [tk|] eqn:Htk; [|done].
  destruct (t_phase tk) eqn:Hphase; try done.
  by eapply invariant_settle_in_phase.
Qed.

Lemma invariant_onData t len m : invariant m → invariant (onData t len m).
Proof.
  intros Hinv. unfold onData.
  destruct (tasks m !! t) as [tk|] eqn:Htk; [|done].
  assert (Hgoal : ∀ d,
            invariant
              (update_job (t_job tk) (with_downloadedBytes d)
                 (update_task t (set_counters (t_contentLength tk) d) m))).
  { intros d. apply invariant_update_job_keep; [|done]. by apply invariant_set_counters. }
  destruct (t_phase tk) eqn:Hphase; try done;
    (destruct (Num.ltb _ _); [apply invariant_update_job_keep; [|done]|]; apply Hgoal).
Qed.

Lemma invariant_onEntry t path type m : invariant m → invariant (onEntry t path type m).
Proof.
  intros Hinv. unfold onEntry.
  destruct (tasks m !! t) as [tk|] eqn:Htk; [|done].
  destruct (t_phase tk) as [| |promises []|] eqn:Hphase; try done.
  destruct (heap m !! t_job tk) as [j|] eqn:Hj; [|done].
  destruct (_ && _); [|done].
  apply invariant_set_phase; [|done].
  apply invariant_issue. by apply invariant_update_job_keep.
Qed.

Lemma invariant_afterAll t now m : invariant m → invariant (afterAll t now m).
Proof.
  intros Hinv. unfold afterAll.
  destruct (tasks m !! t) as [tk|] eqn:Htk; [|done].
  destruct (t_phase tk) as [| |promises []|] eqn:Hphase; try done.
  destruct (heap m !! t_job tk) as [j|] eqn:Hj; [|done].
  destruct (first_error promises) as [message|].
  { by eapply invariant_settle_in_phase. }
  destruct (all_closed promises); [|done].
  destruct (extractedFiles j).
  { by eapply invariant_settle_in_phase. }
  eapply (invariant_settle t None now _ (set_phase (Zip promises Concluded) tk)).
  - apply invariant_update_job_keep; [|done]. by apply invariant_set_phase.
  - by apply (tasks_update_task_lookup t (set_phase (Zip promises Concluded)) m).
  - done.
Qed.

Lemma invariant_onEntryClose t k now m : invariant m → invariant (onEntryClose t k now m).
Proof.
  intros Hinv. unfold onEntryClose.
  destruct (tasks m !! t) as [tk|] eqn:Htk; [|done].
  destruct (t_phase tk) as [| |promises stage|] eqn:Hphase; try done.
  destruct (promises !! k) as [[path []]|]; try done.
  apply invariant_afterAll. apply invariant_set_phase; [|done].
  by apply invariant_update_job_keep.
Qed.

Lemma invariant_onEntryError t k message now m :
  invariant m → invariant (onEntryError t k message now m).
Proof.
  intros Hinv. unfold onEntryError.
  destruct (tasks m !! t) as [tk|] eqn:Htk; [|done].
  destruct (t_phase tk) as [| |promises stage|] eqn:Hphase; try done.
  destruct (promises !! k) as [[path []]|]; try done.
  apply invariant_afterAll. by apply invariant_set_phase.
Qed.

Lemma invariant_onZipFinish t now m : invariant m → invariant (onZipFinish t now m).
Proof.
  intros Hinv. unfold onZipFinish.
  destruct (tasks m !! t) as [tk|] eqn:Htk; [|done].
  destruct (t_phase tk) as [| |promises []|] eqn:Hphase; try done.
  apply invariant_afterAll. by apply invariant_set_phase.
Qed.

Lemma invariant_onZipError t message now m :
  invariant m → invariant (onZipError t message now m).
Proof.
  intros Hinv. unfold onZipError.
  destruct (tasks m !! t) as [tk|] eqn:Htk; [|done].
  destruct (t_phase tk) as [| |promises stage|] eqn:Hphase; try done.
  eapply invariant_settle; [done..|]. by rewrite Hphase.
Qed.

Lemma invariant_onFileFinish t now m : invariant m → invariant (onFileFinish t now m).
Proof.
  intros Hinv. unfold onFileFinish.
  destruct (tasks m !! t) as [tk|] eqn:Htk; [|done].
  destruct (t_phase tk) as [|targetPath| |] eqn:Hphase; try done.
  eapply (invariant_settle_in_phase t Ended None now _ tk); [|done|done].
  by apply invariant_update_job_keep.
Qed.

Lemma invariant_onFileError t message now m :
  invariant m → invariant (onFileError t message now m).
Proof.
  intros Hinv. unfold onFileError.
  destruct (tasks m !! t) as [tk|] eqn:Htk; [|done].
  destruct (t_phase tk) as [|targetPath| |] eqn:Hphase; try done.
  eapply (invariant_settle_in_phase t Ended _ now _ tk); [|done|done].
  by apply invariant_issue.
Qed.

Lemma invariant_step m e : invariant m → invariant (step m e).
Proof.
  intros Hinv. destruct e.
  - by apply invariant_createJob.
  - by apply invariant_cancelJob.
  - by apply invariant_cleanup.
  - by apply invariant_onResponse.
  - by apply invariant_onRequestError.
  - by apply invariant_onData.
  - by apply invariant_onEntry.
  - by apply invariant_onEntryClose.
  - by apply invariant_onEntryError.
  - by apply invariant_onZipFinish.
  - by apply invariant_onZipError.
  - by apply invariant_onFileFinish.
  - by apply invariant_onFileError.
Qed.

Lemma invariant_init : invariant init.
Proof.
  split; try done; try constructor;
    try (intros ? H; by apply elem_of_nil in H).
Qed.

Lemma invariant_run m events : invariant m → invariant (run m events).
Proof.
  revert m. induction events as [|e events IH]; intros m Hinv; simpl; [done|].
  apply IH. by apply invariant_step.
Qed.

Lemma reachable_invariant m : reachable m → invariant m.
Proof. intros [events ->]. apply invariant_run, invariant_init. Qed.

End ManagerFacts.

Section SchedulingFacts.
Import DownloadManager.

Lemma quiet_refl m : quiet m m.
Proof. by repeat split. Qed.

Lemma quiet_trans m1 m2 m3 : quiet m1 m2 → quiet m2 m3 → quiet m1 m3.
Proof.
  intros ([Hj1 Hq1] & Ha1 & Hv1) ([Hj2 Hq2] & Ha2 & Hv2).
  repeat split; try congruence.
  - intros H. apply Hq1, Hq2, H.
  - intros H. apply Hq2, Hq1, H.
Qed.

Lemma quiet_update_job (r : nat) f m :
  (∀ j, heap m !! r = Some j →
        status (f j) = status j ∨ (status j ≠ queued ∧ status (f j) ≠ queued)) →
  quiet m (update_job r f m).
Proof.
  intros Hf. split; [split|split]; try done.
  intros r'. rewrite statuses_update_job.
  destruct (heap m !! r) as [j|] eqn:Hj; [|done].
  assert (Hold : statuses m !! r = Some (status j)) by (by rewrite statuses_lookup, Hj).
  rewrite list_lookup_insert_Some.
  destruct (Hf j eq_refl) as [He|[Hn1 Hn2]]; split.
  - intros [(<- & Hs & _)|[_ H]]; [|done]. congruence.
  - intros H. destruct (decide (r = r')) as [<-|Hne]; [|by right].
    left. split; [done|]. split; [congruence|]. by eapply lookup_lt_Some.
  - intros [(<- & Hs & _)|[_ H]]; [|done]. congruence.
  - intros H. destruct (decide (r = r')) as [<-|Hne]; [|by right]. congruence.
Qed.

Lemma quiet_update_job_keep (r : nat) f m :
  (∀ j, status (f j) = status j) → quiet m (update_job r f m).
Proof. intros Hf. apply quiet_update_job. intros j _. by left. Qed.

Lemma quiet_update_task (t : nat) f m :
  (∀ tk, t_job (f tk) = t_job tk ∧ t_settled (f tk) = t_settled tk) →
  quiet m (update_task t f m).
Proof.
  intros Hf. split; [split|split]; try done. by apply task_views_update_task.
Qed.

Lemma quiet_issue c m : quiet m (issue c m).
Proof. by repeat split. Qed.

Lemma settle_outcome m x (t : nat) result now tk :
  quiet m x → tasks x !! t = Some tk → t_phase tk ≠ Requesting →
  pipeline_outcome m (settle t result now x).
Proof.
  intros Hq Htk Hphase. destruct (t_settled tk) eqn:Hs.
  - apply outcome_quiet. unfold settle. by rewrite Htk, Hs.
  - by eapply outcome_settle.
Qed.

(** The job of a task is not queued. *)
Lemma task_job_not_queued m (t : nat) tk j :
  invariant m → tasks m !! t = Some tk → heap m !! t_job tk = Some j →
  status j ≠ queued.
Proof.
  intros Hinv Htk Hj Hq.
  apply (inv_not_queued m Hinv (t_job tk, t_settled tk)).
  - unfold task_views. apply list_elem_of_fmap. exists tk. split; [done|].
    by eapply list_elem_of_lookup_2.
  - simpl. by rewrite statuses_lookup, Hj, <- Hq.
Qed.

Ltac quiet_chain :=
  repeat first
    [ apply quiet_refl
    | eapply quiet_trans; [|apply quiet_update_task; done]
    | eapply quiet_trans; [|apply quiet_issue]
    | eapply quiet_trans; [|apply quiet_update_job_keep; done] ].

Lemma afterAll_outcome m x t now :
  quiet m x → pipeline_outcome m (afterAll t now x).
Proof.
  intros Hq. unfold afterAll.
  destruct (tasks x !! t) as [tk|] eqn:Htk; [|by apply outcome_quiet].
  destruct (t_phase tk) as [| |promises []|] eqn:Hphase; try by apply outcome_quiet.
  destruct (heap x !! t_job tk) as [j|] eqn:Hj; [|by apply outcome_quiet].
  destruct (first_error promises) as [message|].
  { eapply (settle_outcome _ _ t _ _ (set_phase (Zip promises Concluded) tk)).
    - eapply quiet_trans; [exact Hq|]. by apply quiet_update_task.
    - by apply tasks_update_task_lookup.
    - done. }
  destruct (all_closed promises); [|by apply outcome_quiet].
  destruct (extractedFiles j).
  { eapply (settle_outcome _ _ t _ _ (set_phase (Zip promises Concluded) tk)).
    - eapply quiet_trans; [exact Hq|]. by apply quiet_update_task.
    - by apply tasks_update_task_lookup.
    - done. }
  eapply (settle_outcome _ _ t _ _ (set_phase (Zip promises Concluded) tk)).
  - eapply quiet_trans; [exact Hq|]. quiet_chain.
  - by apply (tasks_update_task_lookup t (set_phase (Zip promises Concluded)) x).
  - done.
Qed.

(** An event of the network or of a stream either goes unseen by the
    scheduling or settles a promise. *)
Lemma step_outcome m e :
  invariant m → pipeline_event e = true → pipeline_outcome m (step m e).
Proof.
  intros Hinv He. destruct e; try discriminate; simpl.
  - (* Response *)
    unfold onResponse.
    destruct (tasks m !! t) as [tk|] eqn:Htk; [|by apply outcome_quiet, quiet_refl].
    destruct (t_phase tk) eqn:Hphase; try by apply outcome_quiet, quiet_refl.
    destruct (heap m !! t_job tk) as [j|] eqn:Hj; [|by apply outcome_quiet, quiet_refl].
    destruct (_ && _).
    { apply outcome_quiet. by apply quiet_update_job_keep. }
    destruct (negb _).
    { eapply (settle_outcome _ _ t _ _ (set_phase Ended tk)).
      - by apply quiet_update_task.
      - by apply tasks_update_task_lookup.
      - done. }
    apply outcome_quiet.
    destruct (_ || _).
    + eapply quiet_trans; [|by apply quiet_update_task].
      eapply quiet_trans; [|apply quiet_update_job].
      * quiet_chain.
      * intros j'. cbn [heap update_task].
        unfold update_job. cbn [heap]. rewrite Hj.
        rewrite list_lookup_insert_eq by (by eapply lookup_lt_Some).
        intros [= <-]. right. split; [|done].
        simpl. by eapply task_job_not_queued.
    + eapply quiet_trans; [|by apply quiet_update_task].
      eapply quiet_trans; [|apply quiet_issue].
      quiet_chain.
  - (* RequestError *)
    unfold onRequestError.
    destruct (tasks m !! t) as [tk|] eqn:Htk; [|by apply outcome_quiet, quiet_refl].
    destruct (t_phase tk) eqn:Hphase; try by apply outcome_quiet, quiet_refl.
    eapply (settle_outcome _ _ t _ _ (set_phase Ended tk)).
    + by apply quiet_update_task.
    + by apply tasks_update_task_lookup.
    + done.
  - (* Data *)
    apply outcome_quiet. unfold onData.
    destruct (tasks m !! t) as [tk|] eqn:Htk; [|apply quiet_refl].
    destruct (t_phase tk) eqn:Hphase; try apply quiet_refl;
      destruct (Num.ltb _ _); quiet_chain.
  - (* Entry *)
    apply outcome_quiet. unfold onEntry.
    destruct (tasks m !! t) as [tk|] eqn:Htk; [|apply quiet_refl].
    destruct (t_phase tk) as [| |promises []|] eqn:Hphase; try apply quiet_refl.
    destruct (heap m !! t_job tk) as [j|] eqn:Hj; [|apply quiet_refl].
    destruct (_ && _); quiet_chain.
  - (* EntryClose *)
    unfold onEntryClose.
    destruct (tasks m !! t) as [tk|] eqn:Htk; [|by apply outcome_quiet, quiet_refl].
    destruct (t_phase tk) as [| |promises stage|] eqn:Hphase;
      try by apply outcome_quiet, quiet_refl.
    destruct (promises !! k) as [[path0 []]|]; try by apply outcome_quiet, quiet_refl.
    apply afterAll_outcome. quiet_chain.
  - (* EntryError *)
    unfold onEntryError.
    destruct (tasks m !! t) as [tk|] eqn:Htk; [|by apply outcome_quiet, quiet_refl].
    destruct (t_phase tk) as [| |promises stage|] eqn:Hphase;
      try by apply outcome_quiet, quiet_refl.
    destruct (promises !! k) as [[path0 []]|]; try by apply outcome_quiet, quiet_refl.
    apply afterAll_outcome. quiet_chain.
  - (* ZipFinish *)
    unfold onZipFinish.
    destruct (tasks m !! t) as [tk|] eqn:Htk; [|by apply outcome_quiet, quiet_refl].
    destruct (t_phase tk) as [| |promises []|] eqn:Hphase;
      try by apply outcome_quiet, quiet_refl.
    apply afterAll_outcome. quiet_chain.
  - (* ZipError *)
    unfold onZipError.
    destruct (tasks m !! t) as [tk|] eqn:Htk; [|by apply outcome_quiet, quiet_refl].
    destruct (t_phase tk) as [| |promises stage|] eqn:Hphase;
      try by apply outcome_quiet, quiet_refl.
    eapply settle_outcome; [apply quiet_refl|done|]. by rewrite Hphase.
  - (* FileFinish *)
    unfold onFileFinish.
    destruct (tasks m !! t) as [tk|] eqn:Htk; [|by apply outcome_quiet, quiet_refl].
    destruct (t_phase tk) as [|targetPath| |] eqn:Hphase;
      try by apply outcome_quiet, quiet_refl.
    eapply (settle_outcome _ _ t _ _ (set_phase Ended tk)).
    + quiet_chain.
    + by apply (tasks_update_task_lookup t (set_phase Ended)).
    + done.
  - (* FileError *)
    unfold onFileError.
    destruct (tasks m !! t) as [tk|] eqn:Htk; [|by apply outcome_quiet, quiet_refl].
    destruct (t_phase tk) as [|targetPath| |] eqn:Hphase;
      try by apply outcome_quiet, quiet_refl.
    eapply (settle_outcome _ _ t _ _ (set_phase Ended tk)).
    + quiet_chain.
    + by apply (tasks_update_task_lookup t (set_phase Ended)).
    + done.
Qed.

End SchedulingFacts.

Section QueueFacts.
Import DownloadManager.

Lemma has_status_queued m (r : nat) :
  has_status (heap m) queued r = true ↔ statuses m !! r = Some queued.
Proof.
  unfold has_status. rewrite statuses_lookup.
  destruct (heap m !! r) as [j|]; simpl; [|done].
  rewrite bool_decide_eq_true. split; congruence.
Qed.

Lemma find_queued_same m m' : same_queue m m' → find_queued m' = find_queued m.
Proof.
  intros [Hj Hq]. unfold find_queued. rewrite Hj. f_equal.
  apply list_find_ext. intros e. by rewrite !has_status_queued.
Qed.

Lemma find_queued_first m r : find_queued m = Some r → first_queued m r.
Proof. intros H. apply find_queued_Some in H as (i & jobId & ?). by exists i, jobId. Qed.

Lemma first_queued_find m r :
  NoDup (snd <$> jobs m) → first_queued m r → find_queued m = Some r.
Proof.
  intros Hnd (i & jobId & Hi & Hq & Hbefore). unfold find_queued.
  assert (list_find (λ e, has_status (heap m) queued (snd e) = true) (jobs m)
          = Some (i, (jobId, r))) as ->; [|done].
  apply list_find_Some. split; [done|]. split; [by apply has_status_queued|].
  intros k e Hk Hlt. rewrite has_status_queued. by eapply Hbefore.
Qed.

Lemma find_queued_None m r :
  find_queued m = None → (∃ jobId, (jobId, r) ∈ jobs m) →
  statuses m !! r ≠ Some queued.
Proof.
  unfold find_queued. intros Hnone [jobId Hin] Hq.
  apply fmap_None in Hnone. apply list_find_None in Hnone.
  rewrite Forall_forall in Hnone. apply (Hnone _ Hin). by apply has_status_queued.
Qed.

Lemma ended_quiet m x : quiet m x → ended x = ended m.
Proof. intros (_ & _ & Hv). unfold ended. by rewrite Hv. Qed.

Lemma filter_ended (views : list (nat * bool)) (t r : nat) :
  views !! t = Some (r, false) →
  length (filter (λ v, snd v = true) (<[t := (r, true)]> views))
  = S (length (filter (λ v, snd v = true) views)).
Proof.
  intros Ht.
  pose (pre := take t views). pose (post := drop (S t) views).
  assert (Hsplit : views = pre ++ (r, false) :: post).
  { symmetry. by apply take_drop_middle. }
  assert (Hins : <[t := (r, true)]> views = pre ++ (r, true) :: post).
  { apply insert_take_drop. by eapply lookup_lt_Some. }
  rewrite Hins. clearbody pre post. subst views.
  rewrite !filter_app, filter_cons_True, filter_cons_False by (simpl; congruence).
  rewrite !length_app. simpl. lia.
Qed.

Lemma ended_processQueue now m : ended (processQueue now m) = ended m.
Proof.
  unfold processQueue. destruct (_ <=? _)%Z; [done|].
  destruct (find_queued m) as [r|]; [|done].
  unfold ended, start, task_views. simpl.
  rewrite fmap_app, filter_app, length_app. simpl. lia.
Qed.

(** What settling an unsettled promise does to the queue: a slot frees, and
    it goes to the first queued job of the table, if there is one; no other
    job leaves the queue. *)
Lemma settle_effect x (t : nat) result now tk :
  tasks x !! t = Some tk → t_settled tk = false →
  (activeDownloads x ≤ maxConcurrent)%Z →
  statuses x !! t_job tk ≠ Some queued →
  let m' := settle t result now x in
  ended m' = S (ended x)
  ∧ jobs m' = jobs x
  ∧ match find_queued x with
    | Some r =>
        statuses m' !! r = Some downloading
        ∧ activeDownloads m' = activeDownloads x
        ∧ ∀ r', r' ≠ r →
                statuses m' !! r' = Some queued ↔ statuses x !! r' = Some queued
    | None =>
        activeDownloads m' = (activeDownloads x - 1)%Z
        ∧ ∀ r', statuses m' !! r' = Some queued ↔ statuses x !! r' = Some queued
    end.
Proof.
  intros Htk Hs Hbound Hnq m'. unfold m', settle. rewrite Htk, Hs.
  set (r0 := t_job tk) in *.
  set (m1 := update_task t set_settled x).
  set (m2 := update_job r0 (finish_job result now) m1).
  set (m3 := with_active (activeDownloads m2 - 1) m2).
  assert (Hviews : task_views m3 = <[t := (r0, true)]> (task_views x)).
  { unfold m3, m2, m1, task_views, update_task. cbn [tasks with_active update_job].
    rewrite Htk. by rewrite list_fmap_insert. }
  assert (Hview : task_views x !! t = Some (r0, false)).
  { unfold task_views. rewrite list_lookup_fmap, Htk. simpl. by rewrite Hs. }
  assert (Hended : ended m3 = S (ended x)).
  { unfold ended. rewrite Hviews. by apply filter_ended. }
  assert (Hsame : same_queue x m3).
  { split; [done|]. intros r.
    change (statuses m3) with (statuses m2). unfold m2.
    rewrite statuses_update_job. change (heap m1) with (heap x).
    change (statuses m1) with (statuses x).
    destruct (heap x !! r0) as [j|] eqn:Hj; [|done].
    rewrite list_lookup_insert_Some. split.
    - intros [(_ & Hst & _)|[_ H]]; [|done].
      destruct (finish_job_status result now j) as [Hf|Hf]; congruence.
    - intros H. right. split; [|done]. intros <-. done. }
  assert (Hactive : activeDownloads m3 = (activeDownloads x - 1)%Z) by done.
  unfold processQueue.
  destruct (maxConcurrent <=? activeDownloads m3)%Z eqn:Hfull.
  { apply Z.leb_le in Hfull. lia. }
  rewrite (find_queued_same _ _ Hsame).
  destruct (find_queued x) as [r|] eqn:Hfind.
  - apply find_queued_Some in Hfind as (i & jobId & Hi & Hq & _).
    destruct Hsame as [_ Hsame].
    assert (∃ j, heap m3 !! r = Some j) as [j Hj].
    { apply Hsame in Hq. rewrite statuses_lookup in Hq.
      apply fmap_Some in Hq as (j & ? & _). eauto. }
    assert (Hstat : statuses (start r now (with_active (activeDownloads m3 + 1) m3))
                    = <[r := downloading]> (statuses m3)).
    { unfold start. change (statuses ?m) with (status <$> heap m).
      cbn [heap]. fold (statuses (update_job r (λ j, with_startedAt now (with_status downloading j))
                                     (with_active (activeDownloads m3 + 1) m3))).
      rewrite statuses_update_job. cbn [heap with_active]. by rewrite Hj. }
    split; [|split; [done|split; [|split]]].
    + unfold ended in *. unfold start, task_views in *. cbn [tasks] in *.
      rewrite fmap_app, filter_app, length_app.
      change (tasks (update_job r _ (with_active _ m3))) with (tasks m3).
      rewrite Hended. simpl. lia.
    + rewrite Hstat. apply list_lookup_insert_eq.
      apply Hsame in Hq. by eapply lookup_lt_Some.
    + unfold start. cbn [activeDownloads update_job with_active]. lia.
    + intros r' Hne. rewrite Hstat, list_lookup_insert_ne by done. apply Hsame.
  - split; [done|]. split; [done|]. split; [done|]. apply Hsame.
Qed.

End QueueFacts.

Section BoundFacts.
Import DownloadManager.

(** The jobs of the table that are in flight are running jobs, each counted
    once. *)
Lemma in_flight_running m :
  invariant m → snd <$> jobs_in_flight m ⊆+ running m.
Proof.
  intros Hinv. apply NoDup_submseteq.
  - eapply sublist_NoDup; [apply (inv_refs_nodup m Hinv)|].
    apply fmap_sublist. apply sublist_filter.
  - intros r Hr. apply list_elem_of_fmap in Hr as ([jobId r'] & -> & Hin).
    apply list_elem_of_filter in Hin as [Hfl _]. simpl in *.
    unfold ref_in_flight in Hfl.
    destruct (heap m !! r') as [j|] eqn:Hj; [|done].
    apply (inv_in_flight m Hinv r' (status j)).
    + by rewrite statuses_lookup, Hj.
    + unfold in_flight in Hfl. apply orb_true_iff in Hfl.
      rewrite !bool_decide_eq_true in Hfl. done.
Qed.

Lemma in_flight_bound m :
  invariant m →
  (Z.of_nat (length (jobs_in_flight m)) ≤ activeDownloads m)%Z
  ∧ (activeDownloads m ≤ maxConcurrent)%Z.
Proof.
  intros Hinv. split; [|apply Hinv].
  rewrite (inv_active m Hinv).
  pose proof (submseteq_length _ _ (in_flight_running m Hinv)) as Hlen.
  rewrite length_fmap in Hlen. lia.
Qed.

Lemma createJob_full rnd url targetDir chartName now m :
  invariant m → activeDownloads m = maxConcurrent →
  let m' := fst (createJob rnd url targetDir chartName now m) in
  let jobId := snd (createJob rnd url targetDir chartName now m) in
  statuses m' = statuses m ++ [queued]
  ∧ tasks m' = tasks m
  ∧ activeDownloads m' = maxConcurrent
  ∧ ∃ j, getJob m' jobId = Some (length (heap m), j) ∧ status j = queued.
Proof.
  intros Hinv Hfull m' jobId. unfold m', jobId, createJob. cbn [fst snd].
  match goal with |- context [processQueue now ?m1] => set (m0 := m1) end.
  assert (Hpq : processQueue now m0 = m0).
  { unfold processQueue.
    change (activeDownloads m0) with (activeDownloads m). by rewrite Hfull. }
  rewrite Hpq. split; [|split; [done|split; [done|]]].
  - unfold statuses, m0. cbn [heap]. by rewrite fmap_app.
  - eexists. unfold getJob, m0. cbn [jobs heap].
    assert (Hget : ∀ js k (r : nat), map_get (map_set js k r) k = Some r).
    { induction js as [|[k' r'] js IH]; intros k r; simpl.
      - by rewrite decide_True.
      - case_decide; simpl; [by rewrite decide_True|].
        rewrite decide_False by done. apply IH. }
    rewrite Hget. simpl.
    rewrite lookup_app_r, Nat.sub_diag by done. simpl. done.
Qed.

Lemma ended_createJob rnd url targetDir chartName now m :
  ended (fst (createJob rnd url targetDir chartName now m)) = ended m.
Proof. unfold createJob. cbn [fst]. by rewrite ended_processQueue. Qed.

Lemma issues_frame (paths : list string) (f : string → fs_call) m :
  let m' := foldl (λ acc p, issue (f p) acc) m paths in
  heap m' = heap m ∧ jobs m' = jobs m ∧ activeDownloads m' = activeDownloads m
  ∧ tasks m' = tasks m ∧ fs_calls m' = fs_calls m ++ (f <$> paths).
Proof.
  revert m. induction paths as [|p paths IH]; intros m; simpl.
  - by rewrite app_nil_r.
  - destruct (IH (issue (f p) m)) as (? & ? & ? & ? & Hfs).
    repeat split; try done. rewrite Hfs. simpl. by rewrite <- app_assoc.
Qed.

(** While every slot is taken and none frees, a queued job stays queued,
    unless this very step cancels it. *)
Lemma queued_stays m e (r : nat) :
  invariant m → activeDownloads m = maxConcurrent →
  ended (step m e) = ended m →
  statuses m !! r = Some queued →
  activeDownloads (step m e) = maxConcurrent
  ∧ (statuses (step m e) !! r = Some queued
     ∨ ∃ jobId now, e = CancelJob jobId now
                    ∧ map_get (jobs m) jobId = Some r
                    ∧ statuses (step m e) !! r = Some failed).
Proof.
  intros Hinv Hfull Hended Hq.
  destruct (pipeline_event e) eqn:Hev.
  - destruct (step_outcome m e Hinv Hev)
      as [([_ Hsame] & Ha & _)|t result now x tk Hquiet Htk Hs Hphase Heq].
    + split; [congruence|]. left. by apply Hsame.
    + exfalso. destruct Hquiet as ([Hjobs Hsame] & Ha & Hviews).
      assert (Hnq : statuses x !! t_job tk ≠ Some queued).
      { rewrite Hsame. apply (inv_not_queued m Hinv (t_job tk, t_settled tk)).
        rewrite <- Hviews. unfold task_views. apply list_elem_of_fmap.
        exists tk. split; [done|]. by eapply list_elem_of_lookup_2. }
      destruct (settle_effect x t result now tk Htk Hs) as (Hend & _); [lia|done|].
      rewrite <- Heq in Hend. unfold ended in Hend, Hended.
      rewrite Hviews in Hend. lia.
  - destruct e as [rnd u td cn now|jobId now|now| | | | | | | | | |]; try discriminate.
    + destruct (createJob_full rnd u td cn now m Hinv Hfull)
        as (Hs & _ & Ha & _).
      change (step m (CreateJob rnd u td cn now))
        with (fst (createJob rnd u td cn now m)).
      split; [done|]. left. rewrite Hs.
      apply lookup_app_l_Some. done.
    + change (step m (CancelJob jobId now)) with (fst (cancelJob jobId now m)).
      unfold cancelJob.
      destruct (getJob m jobId) as [[r0 j]|] eqn:Hget; [|by split; [|left]].
      case_decide; [by split; [|left]|]. cbn [fst].
      destruct (issues_frame (targetFiles j)
                  (λ fileName, Unlink (Path.join [targetDir j; fileName]))
                  (update_job r0 (λ j, with_completedAt now
                      (with_error "Cancelled by user" (with_status failed j))) m))
        as (Hh & _ & Ha & _).
      split; [by rewrite Ha|].
      unfold getJob in Hget.
      destruct (map_get (jobs m) jobId) as [r1|] eqn:Hmap; simpl in Hget; [|done].
      destruct (heap m !! r1) as [j1|] eqn:Hj1; simpl in Hget; [|done].
      injection Hget as -> ->.
      match goal with
      | |- statuses ?m1 !! _ = _ ∨ _ =>
          assert (Hst : statuses m1 = <[r0 := failed]> (statuses m))
      end.
      { unfold statuses at 1. rewrite Hh.
        fold (statuses (update_job r0 (λ j, with_completedAt now
                        (with_error "Cancelled by user" (with_status failed j))) m)).
        by rewrite statuses_update_job, Hj1. }
      rewrite Hst.
      destruct (decide (r0 = r)) as [->|Hne].
      * right. exists jobId, now. split; [done|]. split; [done|].
        apply list_lookup_insert_eq. by eapply lookup_lt_Some.
      * left. by rewrite list_lookup_insert_ne.
    + split; [done|]. by left.
Qed.

(** When a slot frees, the first queued job of the table is admitted, and it
    is the only job that leaves the queue. *)
Lemma slot_goes_to_first m e :
  invariant m → ended m < ended (step m e) →
  (∀ r, find_queued m = Some r →
        first_queued m r ∧ statuses (step m e) !! r = Some downloading)
  ∧ (∀ r, statuses m !! r = Some queued →
          statuses (step m e) !! r ≠ Some queued → find_queued m = Some r).
Proof.
  intros Hinv Hended.
  destruct (pipeline_event e) eqn:Hev.
  2:{ exfalso.
      destruct e as [rnd u td cn now|jobId now|now| | | | | | | | | |];
        try discriminate.
      - change (step m (CreateJob rnd u td cn now))
          with (fst (createJob rnd u td cn now m)) in Hended.
        rewrite ended_createJob in Hended. lia.
      - change (step m (CancelJob jobId now))
          with (fst (cancelJob jobId now m)) in Hended.
        unfold cancelJob in Hended.
        destruct (getJob m jobId) as [[r0 j]|]; [|simpl in Hended; lia].
        case_decide; [simpl in Hended; lia|]. cbn [fst] in Hended.
        unfold ended, task_views in Hended.
        destruct (issues_frame (targetFiles j)
                    (λ fileName, Unlink (Path.join [targetDir j; fileName]))
                    (update_job r0 (λ j, with_completedAt now
                        (with_error "Cancelled by user" (with_status failed j))) m))
          as (_ & _ & _ & Ht & _).
        rewrite Ht in Hended. cbn [tasks update_job] in Hended. lia.
      - change (step m (Cleanup now)) with (cleanup now m) in Hended.
        unfold ended, task_views, cleanup in Hended.
        cbn [tasks with_jobs] in Hended. lia. }
  destruct (step_outcome m e Hinv Hev)
    as [Hquiet|t result now x tk Hquiet Htk Hs Hphase Heq].
  { apply ended_quiet in Hquiet. lia. }
  destruct Hquiet as ([Hjobs Hsame] & Ha & Hviews).
  assert (Hnq : statuses x !! t_job tk ≠ Some queued).
  { rewrite Hsame. apply (inv_not_queued m Hinv (t_job tk, t_settled tk)).
    rewrite <- Hviews. unfold task_views. apply list_elem_of_fmap.
    exists tk. split; [done|]. by eapply list_elem_of_lookup_2. }
  assert (Hbound : (activeDownloads x ≤ maxConcurrent)%Z).
  { rewrite Ha. apply Hinv. }
  destruct (settle_effect x t result now tk Htk Hs Hbound Hnq) as (_ & _ & Heffect).
  rewrite <- Heq in Heffect.
  assert (Hfq : find_queued x = find_queued m).
  { apply find_queued_same. by split. }
  rewrite Hfq in Heffect. split.
  - intros r Hfind. rewrite Hfind in Heffect. destruct Heffect as (Hd & _ & _).
    split; [by apply find_queued_first|done].
  - intros r Hq Hleft. destruct (find_queued m) as [r1|] eqn:Hfind.
    + destruct Heffect as (_ & _ & Hothers).
      destruct (decide (r = r1)) as [->|Hne]; [done|].
      exfalso. apply Hleft. apply Hothers; [done|]. by apply Hsame.
    + destruct Heffect as (_ & Hall). exfalso. apply Hleft. apply Hall.
      by apply Hsame.
Qed.

End BoundFacts.

(** C3, as amended. In every reachable state at most 3 jobs of the table are
    [downloading] or [extracting]. A job submitted while 3 jobs are in flight
    is stored as [queued] and no request is started for it; while every slot
    is taken, a step in which no slot frees leaves a queued job queued,
    unless the step is the cancellation of that job, which makes it
    [failed]. In a step in which a slot frees, the oldest queued job of the
    table (in insertion order) becomes [downloading], and no other job
    leaves the queue. *)
Theorem bounded_fifo_scheduling (m : DownloadManager.manager)
    (e : DownloadManager.event) (r : nat)
    (rnd url targetDir chartName : string) (now : Z) :
  DownloadManager.reachable m →
  (length (DownloadManager.jobs_in_flight m) ≤ 3)%nat
  ∧ (length (DownloadManager.jobs_in_flight m) = 3 →
     let created := DownloadManager.createJob rnd url targetDir chartName now m in
     DownloadManager.activeDownloads m = DownloadManager.maxConcurrent
     ∧ DownloadManager.tasks (fst created) = DownloadManager.tasks m
     ∧ ∃ j, DownloadManager.getJob (fst created) (snd created)
            = Some (length (DownloadManager.heap m), j)
            ∧ DownloadManager.status j = DownloadManager.queued)
  ∧ (DownloadManager.activeDownloads m = DownloadManager.maxConcurrent →
     DownloadManager.ended (DownloadManager.step m e) = DownloadManager.ended m →
     DownloadManager.statuses m !! r = Some DownloadManager.queued →
     DownloadManager.activeDownloads (DownloadManager.step m e)
     = DownloadManager.maxConcurrent
     ∧ (DownloadManager.statuses (DownloadManager.step m e) !! r
        = Some DownloadManager.queued
        ∨ ∃ jobId now',
            e = DownloadManager.CancelJob jobId now'
            ∧ DownloadManager.map_get (DownloadManager.jobs m) jobId = Some r
            ∧ DownloadManager.statuses (DownloadManager.step m e) !! r
              = Some DownloadManager.failed))
  ∧ (DownloadManager.ended m < DownloadManager.ended (DownloadManager.step m e) →
     (DownloadManager.first_queued m r →
      DownloadManager.statuses (DownloadManager.step m e) !! r
      = Some DownloadManager.downloading)
     ∧ (DownloadManager.statuses m !! r = Some DownloadManager.queued →
        DownloadManager.statuses (DownloadManager.step m e) !! r
        ≠ Some DownloadManager.queued →
        DownloadManager.first_queued m r)).
Proof.
  intros Hreach. apply reachable_invariant in Hreach as Hinv.
  destruct (in_flight_bound m Hinv) as [Hcount Hbound].
  unfold DownloadManager.maxConcurrent in Hbound.
  split; [lia|]. split; [|split].
  - intros Hthree created.
    assert (Hfull : DownloadManager.activeDownloads m = DownloadManager.maxConcurrent).
    { unfold DownloadManager.maxConcurrent. lia. }
    destruct (createJob_full rnd url targetDir chartName now m Hinv Hfull)
      as (_ & Htasks & _ & Hjob).
    done.
  - by apply queued_stays.
  - intros Hfrees. destruct (slot_goes_to_first m e Hinv Hfrees) as [Hfirst Honly].
    split.
    + intros Hr. apply Hfirst. apply first_queued_find; [apply Hinv|done].
    + intros Hq Hleft. apply find_queued_first. by apply Honly.
Qed.

(** Four jobs are submitted; three are admitted at once. The start of the
    first one's body frees no slot and leaves the fourth queued; the failure
    of the first one's request frees a slot, which goes to the fourth. *)
Lemma bounded_fifo_scheduling_witness :
  let m :=
    DownloadManager.run DownloadManager.init
      [DownloadManager.CreateJob "a" "https://host/a.mbtiles" "/charts" "" 1;
       DownloadManager.CreateJob "b" "https://host/b.mbtiles" "/charts" "" 2;
       DownloadManager.CreateJob "c" "https://host/c.zip" "/charts" "" 3;
       DownloadManager.CreateJob "d" "https://host/d.mbtiles" "/charts" "" 4] in
  (length (DownloadManager.jobs_in_flight m) ≤ 3)%nat
  ∧ DownloadManager.statuses
      (DownloadManager.step m (DownloadManager.Response 0 200 None None None 5)) !! 3
    = Some DownloadManager.queued
  ∧ DownloadManager.statuses
      (DownloadManager.step m (DownloadManager.RequestError 0 "ECONNRESET" 6)) !! 3
    = Some DownloadManager.downloading.
Proof.
  intros m.
  assert (Hreach : DownloadManager.reachable m) by (eexists; reflexivity).
  destruct (bounded_fifo_scheduling m
              (DownloadManager.Response 0 200 None None None 5) 3 "" "" "" "" 0 Hreach)
    as (Hcount & _ & Hstays & _).
  destruct (bounded_fifo_scheduling m
              (DownloadManager.RequestError 0 "ECONNRESET" 6) 3 "" "" "" "" 0 Hreach)
    as (_ & _ & _ & Hfrees).
  split; [exact Hcount|]. split.
  - destruct Hstays as [_ [Hq|(jobId & now' & Hcancel & _)]];
      [vm_compute; reflexivity..|exact Hq|discriminate].
  - apply Hfrees; [vm_compute; lia|].
    exists 3, "dl_4_d". split; [vm_compute; reflexivity|].
    split; [vm_compute; reflexivity|].
    intros k e Hk Hlt.
    destruct k as [|[|[|k]]]; [| | |lia];
      vm_compute in Hk; injection Hk as <-; vm_compute; discriminate.
Defined.

(** C3 as stated fails in one point: a queued job does not stay queued
    until a slot frees when it is cancelled. After four submissions the
    fourth job is queued behind three running ones; its cancellation makes
    it [failed] while no slot has freed. *)
Lemma queued_job_cancelled_before_slot_frees :
  let m :=
    DownloadManager.run DownloadManager.init
      [DownloadManager.CreateJob "a" "https://host/a.mbtiles" "/charts" "" 1;
       DownloadManager.CreateJob "b" "https://host/b.mbtiles" "/charts" "" 2;
       DownloadManager.CreateJob "c" "https://host/c.zip" "/charts" "" 3;
       DownloadManager.CreateJob "d" "https://host/d.mbtiles" "/charts" "" 4] in
  let m' := DownloadManager.step m (DownloadManager.CancelJob "dl_4_d" 5) in
  length (DownloadManager.jobs_in_flight m) = 3
  ∧ DownloadManager.map_get (DownloadManager.jobs m) "dl_4_d" = Some 3
  ∧ DownloadManager.statuses m !! 3 = Some DownloadManager.queued
  ∧ DownloadManager.ended m' = DownloadManager.ended m
  ∧ DownloadManager.activeDownloads m' = 3%Z
  ∧ length (DownloadManager.jobs_in_flight m') = 3
  ∧ DownloadManager.statuses m' !! 3 = Some DownloadManager.failed.
Proof. repeat split; vm_compute; reflexivity. Qed.

(** ** The download manager: cancellation *)

Section CancelFacts.
Import DownloadManager.

Lemma map_get_elem js k (r : nat) : map_get js k = Some r → (k, r) ∈ js.
Proof.
  induction js as [|[k' r'] js IH]; simpl; [done|].
  case_decide; [intros [= ->]; subst; by left|]. intros Hget. right. by apply IH.
Qed.


End CancelFacts.



(** ** The download manager: responses and file names *)

Section ResponseFacts.
Import DownloadManager.

Lemma processQueue_heap now m (r : nat) :
  statuses m !! r ≠ Some queued →
  heap (processQueue now m) !! r = heap m !! r.
Proof.
  intros Hnq. unfold processQueue. destruct (_ <=? _)%Z; [done|].
  destruct (find_queued m) as [r'|] eqn:Hfind; [|done].
  apply find_queued_Some in Hfind as (_ & _ & _ & Hq & _).
  unfold start, update_job. cbn [heap with_active].
  destruct (heap m !! r'); [|done].
  apply list_lookup_insert_ne. intros ->. done.
Qed.

(** Settling an unsettled promise ends [processJob] on its job. *)
Lemma settle_job x (t : nat) result now tk j :
  tasks x !! t = Some tk → t_settled tk = false →
  heap x !! t_job tk = Some j →
  heap (settle t result now x) !! t_job tk = Some (finish_job result now j)
  ∧ fs_calls (settle t result now x) = fs_calls x.
Proof.
  intros Htk Hs Hj. unfold settle. rewrite Htk, Hs.
  set (m2 := update_job (t_job tk) (finish_job result now) (update_task t set_settled x)).
  assert (Hm2 : heap m2 !! t_job tk = Some (finish_job result now j)).
  { unfold m2, update_job. cbn [heap update_task]. rewrite Hj.
    apply list_lookup_insert_eq. by eapply lookup_lt_Some. }
  split.
  - rewrite processQueue_heap; [done|].
    change (statuses (with_active _ m2)) with (statuses m2).
    rewrite statuses_lookup, Hm2. simpl.
    destruct (finish_job_status result now j) as [-> | ->]; discriminate.
  - unfold processQueue. destruct (_ <=? _)%Z; [done|].
    by destruct (find_queued _).
Qed.

End ResponseFacts.




Section FileNameFacts.
Import Str.


Lemma drop_slashes_head c l :
  c ≠ Path.slash → Path.drop_slashes (c :: l) = c :: l.
Proof. intros Hc. simpl. by rewrite decide_False. Qed.

Lemma take_segment_app l rest :
  Path.slash ∉ l → Path.take_segment (l ++ Path.slash :: rest) = l.
Proof.
  induction l as [|c l IH]; simpl; intros Hl.
  - done.
  - apply not_elem_of_cons in Hl as [Hc Hl]. rewrite decide_False by done.
    by rewrite IH.
Qed.

(** The base name of a path that ends in a non-empty segment is that
    segment. *)
Lemma basename_last_segment (base seg : string) :
  seg ≠ "" → Path.slash ∉ chars seg →
  Path.basename (base +:+ "/" +:+ seg) = seg.
Proof.
  intros Hne Hfree. unfold Path.basename.
  change (base +:+ "/" +:+ seg) with (base +:+ String Path.slash seg).
  rewrite chars_app. change (chars (String Path.slash seg)) with (Path.slash :: chars seg).
  rewrite rev_app_distr.
  change (rev (Path.slash :: chars seg)) with (rev (chars seg) ++ [Path.slash]).
  rewrite <- app_assoc.
  change ([Path.slash] ++ rev (chars base)) with (Path.slash :: rev (chars base)).
  assert (Hrev : Path.slash ∉ rev (chars seg)).
  { intros Hin. apply Hfree. apply list_elem_of_In. apply in_rev.
    by apply list_elem_of_In. }
  destruct (rev (chars seg)) as [|c l] eqn:Hr.
  { exfalso. apply Hne. apply chars_inj.
    rewrite <- (rev_involutive (chars seg)), Hr. reflexivity. }
  apply not_elem_of_cons in Hrev as Hc. destruct Hc as [Hc _].
  change ((c :: l) ++ Path.slash :: rev (chars base))
    with (c :: (l ++ Path.slash :: rev (chars base))).
  rewrite drop_slashes_head by done.
  change (c :: l ++ Path.slash :: rev (chars base))
    with ((c :: l) ++ Path.slash :: rev (chars base)).
  rewrite take_segment_app by done.
  rewrite <- Hr, rev_involutive. apply of_chars_chars.
Qed.

Lemma prefix_of_app l rest : prefix_of l (l ++ rest) = true.
Proof. induction l as [|c l IH]; simpl; [done|]. by rewrite decide_True. Qed.


End FileNameFacts.




(** The URL rule of [direct_file_name] stops at query strings without a
    slash: the base name is taken before the query string is cut off, so a
    slash in the query string moves the name into it. *)
Example query_with_slash :
  let j :=
    DownloadManager.run DownloadManager.init
      [DownloadManager.CreateJob "a" "https://host/x.mbtiles?sig=a/b" "/charts" "" 1] in
  (DownloadManager.directFileName <$> DownloadManager.heap j !! 0) = Some "b.mbtiles".
Proof. vm_compute; reflexivity. Qed.

(** ** The download manager: the lists of file names *)

Section GrowthFacts.
Import DownloadManager.

Lemma grows_refl j : grows j j.
Proof. by split. Qed.

Lemma extends_refl m : extends m m.
Proof. intros r j Hj. exists j. split; [done|apply grows_refl]. Qed.

Lemma extends_trans m1 m2 m3 : extends m1 m2 → extends m2 m3 → extends m1 m3.
Proof.
  intros H12 H23 r j Hj.
  destruct (H12 r j Hj) as (j2 & Hj2 & [He2 Ht2]).
  destruct (H23 r j2 Hj2) as (j3 & Hj3 & [He3 Ht3]).
  exists j3. split; [done|]. split; by etransitivity.
Qed.

Lemma extends_frame m m' : heap m' = heap m → extends m m'.
Proof. intros Hh r j Hj. exists j. rewrite Hh. split; [done|apply grows_refl]. Qed.

Lemma extends_update_job (r : nat) f m :
  (∀ j, grows j (f j)) → extends m (update_job r f m).
Proof.
  intros Hf r0 j0 Hj0. unfold update_job. cbn [heap].
  destruct (heap m !! r) as [j|] eqn:Hj; [|exists j0; split; [done|apply grows_refl]].
  destruct (decide (r0 = r)) as [->|Hne].
  - exists (f j). split; [apply list_lookup_insert_eq; by eapply lookup_lt_Some|].
    assert (j0 = j) as -> by congruence. apply Hf.
  - exists j0. split; [by rewrite list_lookup_insert_ne|apply grows_refl].
Qed.

Lemma extends_processQueue now m : extends m (processQueue now m).
Proof.
  unfold processQueue. destruct (_ <=? _)%Z; [apply extends_refl|].
  destruct (find_queued m) as [r|]; [|apply extends_refl].
  eapply extends_trans; [|apply extends_frame; reflexivity].
  eapply extends_trans; [apply (extends_frame m (with_active (activeDownloads m + 1) m));
                         reflexivity|].
  apply extends_update_job. intros j. by split.
Qed.

Lemma extends_settle (t : nat) result now m : extends m (settle t result now m).
Proof.
  unfold settle. destruct (tasks m !! t) as [tk|]; [|apply extends_refl].
  destruct (t_settled tk); [apply extends_refl|].
  eapply extends_trans; [|apply extends_processQueue].
  eapply extends_trans; [|apply extends_frame; reflexivity].
  eapply extends_trans; [|apply extends_update_job].
  - apply extends_frame. reflexivity.
  - intros j. by destruct result.
Qed.

Lemma extends_update_task (t : nat) f m : extends m (update_task t f m).
Proof. by apply extends_frame. Qed.

Lemma extends_issue c m : extends m (issue c m).
Proof. by apply extends_frame. Qed.

Ltac grow :=
  repeat first
    [ apply extends_refl
    | eapply extends_trans;
      [|first [ apply extends_settle
              | apply extends_update_job; intros ?; split; cbn;
                first [done|by apply prefix_app_r]
              | apply extends_update_task
              | apply extends_issue ]] ].

Lemma extends_afterAll (t : nat) now m : extends m (afterAll t now m).
Proof.
  unfold afterAll. destruct (tasks m !! t) as [tk|]; [|apply extends_refl].
  destruct (t_phase tk) as [| |promises []|]; try apply extends_refl.
  destruct (heap m !! t_job tk) as [j|]; [|apply extends_refl].
  destruct (first_error promises); [grow|].
  destruct (all_closed promises); [|apply extends_refl].
  destruct (extractedFiles j); grow.
Qed.

(** No step removes a file name from a job: [extractedFiles] and
    [targetFiles] only grow at their end, and cancelling a job leaves its
    lists as they are. *)
Lemma files_only_grow m e : extends m (step m e).
Proof.
  destruct e as [rnd u td cn now|jobId now|now|t sc loc ct cl now|t msg now|t len
                |t path type|t k now|t k msg now|t now|t msg now|t now|t msg now];
    cbn [step].
  - unfold createJob. cbn [fst].
    eapply extends_trans; [|apply extends_processQueue].
    intros r j Hj. exists j. split; [|apply grows_refl].
    cbn [heap]. by apply lookup_app_l_Some.
  - unfold cancelJob. destruct (getJob m jobId) as [[r j]|]; [|apply extends_refl].
    case_decide; [apply extends_refl|]. cbn [fst].
    destruct (issues_frame (targetFiles j)
                (λ fileName, Unlink (Path.join [targetDir j; fileName]))
                (update_job r
                   (λ j, with_completedAt now
                           (with_error "Cancelled by user" (with_status failed j))) m))
      as (Hh & _).
    eapply extends_trans; [|apply extends_frame; exact Hh]. grow.
  - apply extends_frame. reflexivity.
  - unfold onResponse. destruct (tasks m !! t) as [tk|]; [|apply extends_refl].
    destruct (t_phase tk); try apply extends_refl.
    destruct (heap m !! t_job tk); [|apply extends_refl].
    destruct (_ && _); [grow|]. destruct (negb _); [grow|].
    destruct (_ || _); grow.
  - unfold onRequestError. destruct (tasks m !! t) as [tk|]; [|apply extends_refl].
    destruct (t_phase tk); try apply extends_refl. grow.
  - unfold onData. destruct (tasks m !! t) as [tk|]; [|apply extends_refl].
    destruct (t_phase tk); try apply extends_refl; destruct (Num.ltb _ _); grow.
  - unfold onEntry. destruct (tasks m !! t) as [tk|]; [|apply extends_refl].
    destruct (t_phase tk) as [| |promises []|]; try apply extends_refl.
    destruct (heap m !! t_job tk); [|apply extends_refl].
    destruct (_ && _); grow.
  - unfold onEntryClose. destruct (tasks m !! t) as [tk|]; [|apply extends_refl].
    destruct (t_phase tk) as [| |promises stage|]; try apply extends_refl.
    destruct (promises !! k) as [[path []]|]; try apply extends_refl.
    eapply extends_trans; [|apply extends_afterAll]. grow.
  - unfold onEntryError. destruct (tasks m !! t) as [tk|]; [|apply extends_refl].
    destruct (t_phase tk) as [| |promises stage|]; try apply extends_refl.
    destruct (promises !! k) as [[path []]|]; try apply extends_refl.
    eapply extends_trans; [|apply extends_afterAll]. grow.
  - unfold onZipFinish. destruct (tasks m !! t) as [tk|]; [|apply extends_refl].
    destruct (t_phase tk) as [| |promises []|]; try apply extends_refl.
    eapply extends_trans; [|apply extends_afterAll]. grow.
  - unfold onZipError. destruct (tasks m !! t) as [tk|]; [|apply extends_refl].
    destruct (t_phase tk) as [| |promises stage|]; try apply extends_refl. grow.
  - unfold onFileFinish. destruct (tasks m !! t) as [tk|]; [|apply extends_refl].
    destruct (t_phase tk) as [|targetPath| |]; try apply extends_refl. grow.
  - unfold onFileError. destruct (tasks m !! t) as [tk|]; [|apply extends_refl].
    destruct (t_phase tk) as [|targetPath| |]; try apply extends_refl. grow.
Qed.

End GrowthFacts.

(** C7 does not hold of the code as it is. A direct download registers in
    [targetFiles] the file name as computed from the supplied name, and in
    [extractedFiles] the base name of the path written. For the name
    [./chart] the file is written to [/charts/chart.mbtiles], and the
    download completes with [extractedFiles] holding [chart.mbtiles], which
    [targetFiles], holding [./chart.mbtiles], does not have; for the name
    [sub/chart], [targetFiles] holds [sub/chart.mbtiles] and
    [extractedFiles] again [chart.mbtiles]. The archive branch registers the
    base name in both lists. *)
Theorem direct_download_names_diverge :
  let run_with chartName :=
    DownloadManager.run DownloadManager.init
      [DownloadManager.CreateJob "a" "https://host/x.mbtiles" "/charts" chartName 1;
       DownloadManager.Response 0 200 None None None 2;
       DownloadManager.FileFinish 0 3] in
  (∃ j, DownloadManager.heap (run_with "./chart") !! 0 = Some j
        ∧ DownloadManager.status j = DownloadManager.completed
        ∧ DownloadManager.targetFiles j = ["./chart.mbtiles"]
        ∧ DownloadManager.extractedFiles j = ["chart.mbtiles"]
        ∧ DownloadManager.fs_calls (run_with "./chart")
          = [DownloadManager.CreateWriteStream "/charts/chart.mbtiles"]
        ∧ ¬ (DownloadManager.extractedFiles j ⊆ DownloadManager.targetFiles j))
  ∧ (∃ j, DownloadManager.heap (run_with "sub/chart") !! 0 = Some j
          ∧ DownloadManager.status j = DownloadManager.completed
          ∧ DownloadManager.targetFiles j = ["sub/chart.mbtiles"]
          ∧ DownloadManager.extractedFiles j = ["chart.mbtiles"]
          ∧ DownloadManager.fs_calls (run_with "sub/chart")
            = [DownloadManager.CreateWriteStream "/charts/sub/chart.mbtiles"]
          ∧ ¬ (DownloadManager.extractedFiles j ⊆ DownloadManager.targetFiles j)).
Proof.
  split; (eexists; split; [vm_compute; reflexivity|]);
    (repeat split; try (vm_compute; reflexivity));
    intros Hsub; specialize (Hsub "chart.mbtiles");
    cbn in Hsub; rewrite !list_elem_of_singleton in Hsub;
    specialize (Hsub eq_refl); discriminate.
Qed.

(** ** The download manager: archives and file names *)

Section FilesFacts.
Import DownloadManager.

(** A change that leaves the job objects and the tasks alone. *)
Lemma fresh_frame m m' :
  heap m' = heap m → tasks m' = tasks m → fresh m → fresh m'.
Proof. intros Hh Ht Hfresh r j. rewrite Hh, Ht. apply Hfresh. Qed.

Lemma fresh_update_job_keep (r : nat) f m :
  (∀ j, extractedFiles (f j) = extractedFiles j ∧ targetFiles (f j) = targetFiles j) →
  fresh m → fresh (update_job r f m).
Proof.
  intros Hf Hfresh r0 j0 Hlook Hidle.
  unfold update_job in Hlook. cbn [heap] in Hlook.
  destruct (heap m !! r) as [j|] eqn:Hj; [|by apply (Hfresh r0 j0)].
  apply list_lookup_insert_Some in Hlook as [(<- & <- & _)|[Hne Hlook]];
    [|by apply (Hfresh r0 j0)].
  destruct (Hf j) as [He Ht]. unfold untouched. rewrite He, Ht.
  by apply (Hfresh r j).
Qed.

(** Leaving the idle phases, or staying in them, with or without a name
    registered for the task's job. *)
Lemma fresh_set_phase (t : nat) p (r : nat) f m tk :
  tasks m !! t = Some tk →
  (idle p = true →
   idle (t_phase tk) = true
   ∧ ∀ j, extractedFiles (f j) = extractedFiles j ∧ targetFiles (f j) = targetFiles j) →
  t_job tk = r →
  fresh m → fresh (update_task t (set_phase p) (update_job r f m)).
Proof.
  intros Htk Hp Hr Hfresh r0 j0 Hlook Hidle.
  assert (Hnew : set_phase p tk ∈ tasks (update_task t (set_phase p) (update_job r f m))).
  { eapply list_elem_of_lookup_2.
    by apply (tasks_update_task_lookup t (set_phase p) (update_job r f m)). }
  assert (Hold : ∀ tk0, tk0 ∈ tasks m → t_job tk0 = r0 → idle (t_phase tk0) = true).
  { intros tk0 Hin Hr0. apply list_elem_of_lookup in Hin as [i Hi].
    destruct (decide (i = t)) as [->|Hne].
    - assert (tk0 = tk) as -> by congruence.
      apply Hp. apply (Hidle _ Hnew). done.
    - apply Hidle; [|done]. apply list_elem_of_lookup_2 with i.
      unfold update_task, update_job. cbn [tasks]. rewrite Htk.
      by rewrite list_lookup_insert_ne. }
  change (heap (update_job r f m) !! r0 = Some j0) in Hlook.
  destruct (decide (r0 = r)) as [->|Hne].
  - assert (Hidle_p : idle p = true) by (by apply (Hidle _ Hnew)).
    destruct (Hp Hidle_p) as [_ Hf].
    by apply (fresh_update_job_keep r f m Hf Hfresh r j0).
  - unfold update_job in Hlook. cbn [heap] in Hlook.
    destruct (heap m !! r); [rewrite list_lookup_insert_ne in Hlook by done|];
      by apply (Hfresh r0 j0).
Qed.

Lemma fresh_phase (t : nat) p m tk :
  tasks m !! t = Some tk →
  (idle p = true → idle (t_phase tk) = true) →
  fresh m → fresh (update_task t (set_phase p) m).
Proof.
  intros Htk Hp Hfresh.
  assert (Hgoal : fresh (update_task t (set_phase p) (update_job (t_job tk) (λ j, j) m))).
  { eapply fresh_set_phase; [done| |done|done]. intros Hi. split; [by apply Hp|done]. }
  intros r j Hlook Hidle. apply (Hgoal r j); [|exact Hidle].
  unfold update_task, update_job. cbn [heap].
  destruct (heap m !! t_job tk) as [j'|] eqn:Hj; [|done].
  by rewrite list_insert_id.
Qed.

Lemma fresh_task (t : nat) f m :
  (∀ tk, t_job (f tk) = t_job tk ∧ t_phase (f tk) = t_phase tk) →
  fresh m → fresh (update_task t f m).
Proof.
  intros Hf Hfresh r j Hlook Hidle. apply (Hfresh r j Hlook).
  intros tk Hin Hr. apply list_elem_of_lookup in Hin as [i Hi].
  destruct (decide (i = t)) as [->|Hne].
  - destruct (Hf tk) as [Hjob Hphase]. rewrite <- Hphase. apply Hidle; [|congruence].
    eapply list_elem_of_lookup_2. by apply tasks_update_task_lookup.
  - apply Hidle; [|done]. apply list_elem_of_lookup_2 with i.
    unfold update_task. cbn [tasks].
    destruct (tasks m !! t); [by rewrite list_lookup_insert_ne|done].
Qed.

Lemma fresh_start (r : nat) now m : fresh m → fresh (start r now m).
Proof.
  intros Hfresh.
  assert (H1 : fresh (update_job r (λ j, with_startedAt now (with_status downloading j)) m))
    by (by apply fresh_update_job_keep).
  intros r0 j0 Hlook Hidle. apply (H1 r0 j0 Hlook).
  intros tk Hin Hr. apply Hidle; [|done].
  unfold start. cbn [tasks]. apply elem_of_app. by left.
Qed.

Lemma fresh_processQueue now m : fresh m → fresh (processQueue now m).
Proof.
  intros Hfresh. unfold processQueue. destruct (_ <=? _)%Z; [done|].
  destruct (find_queued m); [|done]. by apply fresh_start.
Qed.

Lemma finish_job_files result now j :
  extractedFiles (finish_job result now j) = extractedFiles j
  ∧ targetFiles (finish_job result now j) = targetFiles j.
Proof. by destruct result. Qed.

Lemma fresh_settle (t : nat) result now m : fresh m → fresh (settle t result now m).
Proof.
  intros Hfresh. unfold settle.
  destruct (tasks m !! t) as [tk|]; [|done]. destruct (t_settled tk); [done|].
  apply fresh_processQueue.
  eapply fresh_frame; [reflexivity..|].
  apply fresh_update_job_keep; [apply finish_job_files|].
  by apply fresh_task.
Qed.

Lemma fresh_createJob rnd url targetDir chartName now m :
  fresh m → fresh (fst (createJob rnd url targetDir chartName now m)).
Proof.
  intros Hfresh. unfold createJob. cbn [fst]. apply fresh_processQueue.
  intros r j Hlook Hidle. cbn [heap tasks] in *.
  apply lookup_app_Some in Hlook as [Hlook|[_ Hlook]]; [by apply (Hfresh r j)|].
  destruct (r - length (heap m)) as [|n]; [|done].
  by injection Hlook as <-.
Qed.

Lemma fresh_cancelJob jobId now m : fresh m → fresh (fst (cancelJob jobId now m)).
Proof.
  intros Hfresh. unfold cancelJob.
  destruct (getJob m jobId) as [[r j]|]; [|done].
  case_decide; [done|]. cbn [fst].
  destruct (issues_frame (targetFiles j)
              (λ fileName, Unlink (Path.join [targetDir j; fileName]))
              (update_job r
                 (λ j, with_completedAt now
                         (with_error "Cancelled by user" (with_status failed j))) m))
    as (Hh & _ & _ & Ht & _).
  eapply fresh_frame; [exact Hh|exact Ht|]. by apply fresh_update_job_keep.
Qed.

Lemma idle_set_promise (k : nat) e promises path stage :
  promises !! k = Some (path, Writing) →
  idle (Zip (set_promise k e promises) stage) = false.
Proof.
  intros Hk. unfold set_promise. rewrite Hk.
  destruct promises as [|p promises]; [done|]. by destruct k.
Qed.

Lemma fresh_afterAll t now m : fresh m → fresh (afterAll t now m).
Proof.
  intros Hfresh. unfold afterAll.
  destruct (tasks m !! t) as [tk|] eqn:Htk; [|done].
  destruct (t_phase tk) as [| |promises []|] eqn:Hphase; try done.
  destruct (heap m !! t_job tk) as [j|] eqn:Hj; [|done].
  assert (Hnext : fresh (update_task t (set_phase (Zip promises Concluded)) m)).
  { eapply fresh_phase; [done| |done]. by rewrite Hphase. }
  destruct (first_error promises) as [message|]; [by apply fresh_settle|].
  destruct (all_closed promises); [|done].
  destruct (extractedFiles j); apply fresh_settle; [done|].
  by apply fresh_update_job_keep.
Qed.

Lemma fresh_step m e : fresh m → fresh (step m e).
Proof.
  intros Hfresh.
  destruct e as [rnd u td cn now|jobId now|now|t sc loc ct cl now|t msg now|t len
                |t path type|t k now|t k msg now|t now|t msg now|t now|t msg now];
    cbn [step].
  - by apply fresh_createJob.
  - by apply fresh_cancelJob.
  - done.
  - unfold onResponse.
    destruct (tasks m !! t) as [tk|] eqn:Htk; [|done].
    destruct (t_phase tk) eqn:Hphase; try done.
    destruct (heap m !! t_job tk) as [j|] eqn:Hj; [|done].
    destruct (_ && _); [by apply fresh_update_job_keep|].
    destruct (negb _).
    { apply fresh_settle. by eapply fresh_phase. }
    set (len := Num.parseInt_string _).
    assert (H2 : fresh (update_task t (set_counters len (Num.Int 0))
                          (update_job (t_job tk) (with_totalBytes len) m))).
    { apply fresh_task; [done|]. by apply fresh_update_job_keep. }
    assert (Hlook : tasks (update_task t (set_counters len (Num.Int 0))
                             (update_job (t_job tk) (with_totalBytes len) m)) !! t
                    = Some (set_counters len (Num.Int 0) tk)).
    { by apply (tasks_update_task_lookup t _ (update_job (t_job tk) _ m)). }
    destruct (_ || _).
    + eapply fresh_set_phase; [exact Hlook| |done|exact H2].
      intros _. cbn. by rewrite Hphase.
    + eapply fresh_frame;
        [| |eapply (fresh_set_phase t (Direct (Path.join [targetDir j; directFileName j]))
                      (t_job tk) (push_target (directFileName j)));
            [exact Hlook|done|done|exact H2]];
        reflexivity.
  - unfold onRequestError.
    destruct (tasks m !! t) as [tk|] eqn:Htk; [|done].
    destruct (t_phase tk) eqn:Hphase; try done.
    apply fresh_settle. by eapply fresh_phase.
  - unfold onData.
    destruct (tasks m !! t) as [tk|] eqn:Htk; [|done].
    assert (Hgoal : ∀ d,
              fresh (update_job (t_job tk) (with_downloadedBytes d)
                       (update_task t (set_counters (t_contentLength tk) d) m))).
    { intros d. apply fresh_update_job_keep; [done|]. by apply fresh_task. }
    destruct (t_phase tk) eqn:Hphase; try done;
      (destruct (Num.ltb _ _); [apply fresh_update_job_keep; [done|]|]; apply Hgoal).
  - unfold onEntry.
    destruct (tasks m !! t) as [tk|] eqn:Htk; [|done].
    destruct (t_phase tk) as [| |promises []|] eqn:Hphase; try done.
    destruct (heap m !! t_job tk) as [j|] eqn:Hj; [|done].
    destruct (_ && _); [|done].
    eapply fresh_frame;
      [| |eapply (fresh_set_phase t (Zip (promises ++ [(path, Writing)]) Parsing)
                    (t_job tk) (push_target (Path.basename path)));
          [exact Htk| |done|exact Hfresh]];
      [reflexivity..|].
    by destruct promises.
  - unfold onEntryClose.
    destruct (tasks m !! t) as [tk|] eqn:Htk; [|done].
    destruct (t_phase tk) as [| |promises stage|] eqn:Hphase; try done.
    destruct (promises !! k) as [[path []]|] eqn:Hk; try done.
    apply fresh_afterAll.
    eapply fresh_set_phase; [done| |done..].
    by rewrite (idle_set_promise k Closed promises path stage Hk).
  - unfold onEntryError.
    destruct (tasks m !! t) as [tk|] eqn:Htk; [|done].
    destruct (t_phase tk) as [| |promises stage|] eqn:Hphase; try done.
    destruct (promises !! k) as [[path []]|] eqn:Hk; try done.
    apply fresh_afterAll.
    eapply fresh_phase; [done| |done].
    by rewrite (idle_set_promise k (Errored msg) promises path stage Hk).
  - unfold onZipFinish.
    destruct (tasks m !! t) as [tk|] eqn:Htk; [|done].
    destruct (t_phase tk) as [| |promises []|] eqn:Hphase; try done.
    apply fresh_afterAll. eapply fresh_phase; [done| |done]. by rewrite Hphase.
  - unfold onZipError.
    destruct (tasks m !! t) as [tk|] eqn:Htk; [|done].
    destruct (t_phase tk) as [| |promises stage|] eqn:Hphase; try done.
    by apply fresh_settle.
  - unfold onFileFinish.
    destruct (tasks m !! t) as [tk|] eqn:Htk; [|done].
    destruct (t_phase tk) as [|targetPath| |] eqn:Hphase; try done.
    apply fresh_settle. by eapply fresh_set_phase.
  - unfold onFileError.
    destruct (tasks m !! t) as [tk|] eqn:Htk; [|done].
    destruct (t_phase tk) as [|targetPath| |] eqn:Hphase; try done.
    apply fresh_settle.
    eapply fresh_frame; [| |eapply (fresh_phase t Ended m); [done|done|done]];
      reflexivity.
Qed.

Lemma fresh_run m events : fresh m → fresh (run m events).
Proof.
  revert m. induction events as [|e events IH]; intros m Hfresh; simpl; [done|].
  apply IH. by apply fresh_step.
Qed.

Lemma reachable_fresh m : reachable m → fresh m.
Proof.
  intros [events ->]. apply fresh_run. intros r j Hlook. done.
Qed.

End FilesFacts.

Section ArchiveFacts.
Import DownloadManager.

Lemma tasks_update_job (r : nat) f m : tasks (update_job r f m) = tasks m.
Proof. reflexivity. Qed.















End ArchiveFacts.



(** * Further properties of the code *)

(** ** The download manager: the table and the queue *)



Section RelatedFacts.
Import DownloadManager.

(** A relation between the states of a job object that every write of the
    manager respects. *)
Variable R : job → job → Prop.
Hypothesis R_refl : ∀ j, R j j.
Hypothesis R_trans : ∀ j1 j2 j3, R j1 j2 → R j2 j3 → R j1 j3.
Hypothesis R_url : ∀ v j, R j (with_url v j).
Hypothesis R_status : ∀ v j, R j (with_status v j).
Hypothesis R_progress : ∀ v j, R j (with_progress v j).
Hypothesis R_downloadedBytes : ∀ v j, R j (with_downloadedBytes v j).
Hypothesis R_totalBytes : ∀ v j, R j (with_totalBytes v j).
Hypothesis R_extracted : ∀ v j, R j (push_extracted v j).
Hypothesis R_target : ∀ v j, R j (push_target v j).
Hypothesis R_startedAt : ∀ v j, R j (with_startedAt v j).
Hypothesis R_completedAt : ∀ v j, R j (with_completedAt v j).
Hypothesis R_error : ∀ v j, R j (with_error v j).

Lemma related_refl m : related R m m.
Proof using R_refl. intros r j Hj. by exists j. Qed.

Lemma related_trans m1 m2 m3 : related R m1 m2 → related R m2 m3 → related R m1 m3.
Proof using R_trans.
  intros H12 H23 r j Hj.
  destruct (H12 r j Hj) as (j2 & Hj2 & HR2).
  destruct (H23 r j2 Hj2) as (j3 & Hj3 & HR3).
  exists j3. split; [done|]. by eapply R_trans.
Qed.

Lemma related_frame m m' : heap m' = heap m → related R m m'.
Proof using R_refl. intros Hh r j Hj. exists j. by rewrite Hh. Qed.

Lemma related_update_job (r : nat) f m :
  (∀ j, R j (f j)) → related R m (update_job r f m).
Proof using R_refl.
  intros Hf r0 j0 Hj0. unfold update_job. cbn [heap].
  destruct (heap m !! r) as [j|] eqn:Hj; [|by exists j0].
  destruct (decide (r0 = r)) as [->|Hne].
  - exists (f j). split; [apply list_lookup_insert_eq; by eapply lookup_lt_Some|].
    assert (j0 = j) as -> by congruence. apply Hf.
  - exists j0. split; [by rewrite list_lookup_insert_ne|done].
Qed.

Ltac setters :=
  intros; cbn beta;
  repeat first
    [ apply R_refl
    | eapply R_trans;
      [|first [ apply R_url | apply R_status | apply R_progress
              | apply R_downloadedBytes | apply R_totalBytes | apply R_extracted
              | apply R_target | apply R_startedAt | apply R_completedAt
              | apply R_error ]] ].

Lemma related_processQueue now m : related R m (processQueue now m).
Proof using All.
  unfold processQueue. destruct (_ <=? _)%Z; [apply related_refl|].
  destruct (find_queued m) as [r|]; [|apply related_refl].
  eapply related_trans; [|apply related_frame; reflexivity].
  eapply related_trans;
    [apply (related_frame m (with_active (activeDownloads m + 1) m)); reflexivity|].
  apply related_update_job. setters.
Qed.

Lemma related_settle (t : nat) result now m : related R m (settle t result now m).
Proof using All.
  unfold settle. destruct (tasks m !! t) as [tk|]; [|apply related_refl].
  destruct (t_settled tk); [apply related_refl|].
  eapply related_trans; [|apply related_processQueue].
  eapply related_trans; [|apply related_frame; reflexivity].
  eapply related_trans; [|apply related_update_job].
  - apply related_frame. reflexivity.
  - intros j. destruct result; unfold finish_job; setters.
Qed.

Lemma related_update_task (t : nat) f m : related R m (update_task t f m).
Proof using R_refl. by apply related_frame. Qed.

Lemma related_issue c m : related R m (issue c m).
Proof using R_refl. by apply related_frame. Qed.

Ltac relate :=
  repeat first
    [ apply related_refl
    | eapply related_trans;
      [|first [ apply related_settle
              | apply related_update_job; setters
              | apply related_update_task
              | apply related_issue ]] ].

Lemma related_afterAll (t : nat) now m : related R m (afterAll t now m).
Proof using All.
  unfold afterAll. destruct (tasks m !! t) as [tk|]; [|apply related_refl].
  destruct (t_phase tk) as [| |promises []|]; try apply related_refl.
  destruct (heap m !! t_job tk) as [j|]; [|apply related_refl].
  destruct (first_error promises); [relate|].
  destruct (all_closed promises); [|apply related_refl].
  destruct (extractedFiles j); relate.
Qed.

(** Every job object is still there after a step, in a related state. *)
Lemma step_related m e : related R m (step m e).
Proof using All.
  destruct e as [rnd u td cn now|jobId now|now|t sc loc ct cl now|t msg now|t len
                |t path type|t k now|t k msg now|t now|t msg now|t now|t msg now];
    cbn [step].
  - unfold createJob. cbn [fst].
    eapply related_trans; [|apply related_processQueue].
    intros r j Hj. exists j. split; [|apply R_refl].
    cbn [heap]. by apply lookup_app_l_Some.
  - unfold cancelJob. destruct (getJob m jobId) as [[r j]|]; [|apply related_refl].
    case_decide; [apply related_refl|]. cbn [fst].
    destruct (issues_frame (targetFiles j)
                (λ fileName, Unlink (Path.join [targetDir j; fileName]))
                (update_job r
                   (λ j, with_completedAt now
                           (with_error "Cancelled by user" (with_status failed j))) m))
      as (Hh & _).
    eapply related_trans; [|apply related_frame; exact Hh]. relate.
  - apply related_frame. reflexivity.
  - unfold onResponse. destruct (tasks m !! t) as [tk|]; [|apply related_refl].
    destruct (t_phase tk); try apply related_refl.
    destruct (heap m !! t_job tk); [|apply related_refl].
    destruct (_ && _); [relate|]. destruct (negb _); [relate|].
    destruct (_ || _); relate.
  - unfold onRequestError. destruct (tasks m !! t) as [tk|]; [|apply related_refl].
    destruct (t_phase tk); try apply related_refl. relate.
  - unfold onData. destruct (tasks m !! t) as [tk|]; [|apply related_refl].
    destruct (t_phase tk); try apply related_refl; destruct (Num.ltb _ _); relate.
  - unfold onEntry. destruct (tasks m !! t) as [tk|]; [|apply related_refl].
    destruct (t_phase tk) as [| |promises []|]; try apply related_refl.
    destruct (heap m !! t_job tk); [|apply related_refl].
    destruct (_ && _); relate.
  - unfold onEntryClose. destruct (tasks m !! t) as [tk|]; [|apply related_refl].
    destruct (t_phase tk) as [| |promises stage|]; try apply related_refl.
    destruct (promises !! k) as [[path []]|]; try apply related_refl.
    eapply related_trans; [|apply related_afterAll]. relate.
  - unfold onEntryError. destruct (tasks m !! t) as [tk|]; [|apply related_refl].
    destruct (t_phase tk) as [| |promises stage|]; try apply related_refl.
    destruct (promises !! k) as [[path []]|]; try apply related_refl.
    eapply related_trans; [|apply related_afterAll]. relate.
  - unfold onZipFinish. destruct (tasks m !! t) as [tk|]; [|apply related_refl].
    destruct (t_phase tk) as [| |promises []|]; try apply related_refl.
    eapply related_trans; [|apply related_afterAll]. relate.
  - unfold onZipError. destruct (tasks m !! t) as [tk|]; [|apply related_refl].
    destruct (t_phase tk) as [| |promises stage|]; try apply related_refl. relate.
  - unfold onFileFinish. destruct (tasks m !! t) as [tk|]; [|apply related_refl].
    destruct (t_phase tk) as [|targetPath| |]; try apply related_refl. relate.
  - unfold onFileError. destruct (tasks m !! t) as [tk|]; [|apply related_refl].
    destruct (t_phase tk) as [|targetPath| |]; try apply related_refl. relate.
Qed.

Lemma run_related m events : related R m (run m events).
Proof using All.
  revert m. induction events as [|e events IH]; intros m; simpl;
    [apply related_refl|].
  eapply related_trans; [apply step_related|apply IH].
Qed.

End RelatedFacts.

Section TableFacts.
Import DownloadManager.

(** The id, the target directory, the name and the creation time of a job
    never change. *)
Lemma run_identity m events (r : nat) j :
  heap m !! r = Some j →
  ∃ j', heap (run m events) !! r = Some j' ∧ same_identity j j'.
Proof.
  apply (run_related same_identity); try done.
  intros j1 j2 j3 (? & ? & ? & ?) (? & ? & ? & ?). repeat split; congruence.
Qed.

Lemma step_identity m e (r : nat) j :
  heap m !! r = Some j →
  ∃ j', heap (step m e) !! r = Some j' ∧ same_identity j j'.
Proof. apply (run_identity m [e]). Qed.

Lemma jobs_processQueue now m : jobs (processQueue now m) = jobs m.
Proof.
  unfold processQueue. destruct (_ <=? _)%Z; [done|]. by destruct (find_queued m).
Qed.

Lemma jobs_settle (t : nat) result now m : jobs (settle t result now m) = jobs m.
Proof.
  unfold settle. destruct (tasks m !! t) as [tk|]; [|done].
  destruct (t_settled tk); [done|]. by rewrite jobs_processQueue.
Qed.

(** Only [createJob] and [cleanup] change the table. *)
Lemma step_jobs m e :
  invariant m →
  match e with CreateJob _ _ _ _ _ | Cleanup _ => True | _ => jobs (step m e) = jobs m end.
Proof.
  intros Hinv.
  destruct (pipeline_event e) eqn:Hev.
  - assert (Hjobs : jobs (step m e) = jobs m).
    { destruct (step_outcome m e Hinv Hev)
        as [([Hj _] & _)|t result now x tk ([Hj _] & _) _ _ _ ->]; [done|].
      by rewrite jobs_settle. }
    by destruct e.
  - destruct e as [rnd u td cn now|jobId now|now| | | | | | | | | |]; try done.
    cbn [step]. unfold cancelJob. destruct (getJob m jobId) as [[r j]|]; [|done].
    case_decide; [done|]. cbn [fst].
    by destruct (issues_frame (targetFiles j)
                   (λ fileName, Unlink (Path.join [targetDir j; fileName]))
                   (update_job r
                      (λ j, with_completedAt now
                              (with_error "Cancelled by user" (with_status failed j))) m))
      as (_ & -> & _).
Qed.

Lemma map_set_keys js k (r : nat) :
  fst <$> map_set js k r
  = if decide (k ∈ fst <$> js) then fst <$> js else (fst <$> js) ++ [k].
Proof.
  induction js as [|[k' r'] js IH].
  { cbn. destruct (decide (k ∈ [])) as [Hin|_]; [by apply elem_of_nil in Hin|done]. }
  cbn [map_set]. destruct (decide (k' = k)) as [->|Hk]; rewrite !fmap_cons; cbn [fst].
  - by rewrite decide_True by (by left).
  - rewrite IH. destruct (decide (k ∈ fst <$> js)) as [Hin|Hnin].
    + by rewrite decide_True by (by right).
    + rewrite decide_False; [done|]. intros [->|?]%elem_of_cons; done.
Qed.

Lemma map_get_set js k (r : nat) : map_get (map_set js k r) k = Some r.
Proof.
  induction js as [|[k' r'] js IH]; simpl.
  - by rewrite decide_True.
  - case_decide; simpl; [by rewrite decide_True|]. by rewrite decide_False.
Qed.

Lemma map_get_set_ne js k k' (r : nat) :
  k' ≠ k → map_get (map_set js k r) k' = map_get js k'.
Proof.
  intros Hne. induction js as [|[k0 r0] js IH]; simpl.
  - by rewrite decide_False.
  - case_decide; simpl.
    + subst k0. by rewrite !decide_False by done.
    + case_decide; [done|apply IH].
Qed.


Lemma table_ok_step m e : invariant m → table_ok m → table_ok (step m e).
Proof.
  intros Hinv [Hnd Hids].
  assert (Hkeep : jobs (step m e) = jobs m → table_ok (step m e)).
  { intros Hjobs. split; rewrite Hjobs; [done|].
    intros k r Hin. destruct (Hids k r Hin) as (j & Hj & Hid).
    destruct (step_identity m e r j Hj) as (j' & Hj' & Hid' & _).
    exists j'. split; [done|congruence]. }
  pose proof (step_jobs m e Hinv) as Hjobs.
  destruct e as [rnd u td cn now|jobId now|now| | | | | | | | | |];
    try (by apply Hkeep).
  - cbn [step]. unfold createJob. cbn [fst].
    match goal with |- table_ok (processQueue now ?m1) => set (m0 := m1) end.
    assert (H0 : table_ok m0).
    { split; unfold m0; cbn [jobs heap].
      - rewrite map_set_keys. case_decide; [done|].
        apply NoDup_app. split; [done|]. split; [|apply NoDup_singleton].
        intros k Hk ->%list_elem_of_singleton. done.
      - intros k r [[= -> ->]|Hin]%map_set_elem.
        + eexists. split; [by rewrite lookup_app_r, Nat.sub_diag|done].
        + destruct (Hids k r Hin) as (j & Hj & Hid). exists j.
          split; [by apply lookup_app_l_Some|done]. }
    destruct H0 as [Hnd0 Hids0]. split; rewrite jobs_processQueue; [done|].
    intros k r Hin. destruct (Hids0 k r Hin) as (j & Hj & Hid).
    destruct (related_processQueue same_identity) with (now := now) (m := m0)
      (r := r) (j := j) as (j' & Hj' & Hid' & _); try done.
    { intros j1 j2 j3 (? & ? & ? & ?) (? & ? & ? & ?). repeat split; congruence. }
    exists j'. split; [done|congruence].
  - cbn [step]. unfold cleanup. split; cbn [jobs heap with_jobs].
    + eapply sublist_NoDup; [exact Hnd|]. apply fmap_sublist, sublist_filter.
    + intros k r [_ Hin]%list_elem_of_filter. by apply Hids.
Qed.

Lemma reachable_table_ok m : reachable m → table_ok m.
Proof.
  intros [events ->].
  assert (Hgoal : ∀ m, invariant m → table_ok m → table_ok (run m events)).
  { induction events as [|e events IH]; intros m Hinv Hok; simpl; [done|].
    apply IH; [by apply invariant_step|by apply table_ok_step]. }
  apply Hgoal; [apply invariant_init|].
  split; [constructor|]. intros k r Hin. by apply elem_of_nil in Hin.
Qed.


End TableFacts.

Section ConservationFacts.
Import DownloadManager.

Lemma map_set_in js k (r : nat) : (k, r) ∈ map_set js k r.
Proof.
  induction js as [|[k' r'] js IH]; simpl; [by left|].
  case_decide; [by left|by right].
Qed.

Lemma statuses_start (r : nat) now x j :
  heap x !! r = Some j →
  statuses (start r now x) = <[r := downloading]> (statuses x)
  ∧ jobs (start r now x) = jobs x.
Proof.
  intros Hj. split; [|done].
  change (statuses (start r now x))
    with (statuses (update_job r (λ j, with_startedAt now (with_status downloading j)) x)).
  by rewrite statuses_update_job, Hj.
Qed.

Lemma work_conserving_step m e :
  invariant m → work_conserving m → work_conserving (step m e).
Proof.
  intros Hinv HW.
  destruct (pipeline_event e) eqn:Hev.
  - destruct (step_outcome m e Hinv Hev)
      as [([Hjobs Hsame] & Ha & _)|t result now x tk Hquiet Htk Hs Hphase Heq].
    + intros Hfree e0 He0. rewrite Hsame. apply HW; [by rewrite <- Ha|by rewrite <- Hjobs].
    + destruct Hquiet as ([Hjobs Hsame] & Ha & Hviews).
      assert (Hnq : statuses x !! t_job tk ≠ Some queued).
      { rewrite Hsame. apply (inv_not_queued m Hinv (t_job tk, t_settled tk)).
        rewrite <- Hviews. unfold task_views. apply list_elem_of_fmap.
        exists tk. split; [done|]. by eapply list_elem_of_lookup_2. }
      pose proof (inv_bound m Hinv) as Hbound.
      destruct (settle_effect x t result now tk Htk Hs) as (_ & Hj' & Hcase);
        [lia|done|].
      rewrite <- Heq in Hj', Hcase.
      intros Hfree e0 He0. rewrite Hj' in He0.
      destruct (find_queued x) as [r|] eqn:Hfind.
      * destruct Hcase as (_ & Ha' & _).
        apply find_queued_Some in Hfind as (i & jobId & Hi & Hq & _).
        exfalso. rewrite Hsame in Hq. rewrite Hjobs in Hi.
        apply (HW ltac:(lia) (jobId, r)); [by eapply list_elem_of_lookup_2|done].
      * destruct Hcase as (_ & Hsame'). rewrite Hsame'.
        apply (find_queued_None x (snd e0) Hfind).
        exists (fst e0). by destruct e0.
  - destruct e as [rnd u td cn now|jobId now|now| | | | | | | | | |]; try discriminate.
    + cbn [step]. unfold createJob. cbn [fst].
      match goal with |- work_conserving (processQueue now ?m1) => set (m0 := m1) end.
      assert (Hold : ∀ e0, e0 ∈ jobs m → statuses m0 !! snd e0 = statuses m !! snd e0).
      { intros e0 He0. unfold statuses, m0. cbn [heap]. rewrite fmap_app.
        apply lookup_app_l. apply (inv_job_ref m Hinv e0 He0). }
      assert (Hnew : statuses m0 !! length (heap m) = Some queued).
      { unfold statuses, m0. cbn [heap]. rewrite fmap_app.
        rewrite lookup_app_r by (by rewrite length_fmap).
        by rewrite length_fmap, Nat.sub_diag. }
      unfold processQueue. change (activeDownloads m0) with (activeDownloads m).
      destruct (maxConcurrent <=? activeDownloads m)%Z eqn:Hfull.
      { intros Hfree. change (activeDownloads m0) with (activeDownloads m) in Hfree. lia. }
      assert (Hfree : (activeDownloads m < maxConcurrent)%Z) by lia.
      destruct (find_queued m0) as [r|] eqn:Hfind.
      * apply find_queued_Some in Hfind as (i & jobId & Hi & Hq & _).
        assert (Hr : r = length (heap m)).
        { apply list_elem_of_lookup_2 in Hi.
          apply map_set_elem in Hi as [[= _ ->]|Hin]; [done|].
          exfalso. pose proof (Hold _ Hin) as Ho. cbn [snd] in Ho.
          rewrite Ho in Hq. by apply (HW Hfree _ Hin). }
        assert (is_Some (heap (with_active (activeDownloads m + 1) m0) !! r))
          as [j Hj].
        { rewrite statuses_lookup in Hq. cbn [heap with_active].
          destruct (heap m0 !! r); [by eexists|done]. }
        destruct (statuses_start r now _ j Hj) as [Hst Hjobs].
        intros _ e0 He0. rewrite Hjobs in He0. rewrite Hst.
        change (statuses (with_active (activeDownloads m + 1) m0)) with (statuses m0).
        destruct (decide (snd e0 = r)) as [->|Hne].
        -- rewrite list_lookup_insert_eq; [done|]. by eapply lookup_lt_Some.
        -- rewrite list_lookup_insert_ne by done.
           apply map_set_elem in He0 as [->|Hin]; [by subst r|].
           rewrite (Hold _ Hin). by apply (HW Hfree).
      * exfalso. apply (find_queued_None m0 (length (heap m)) Hfind); [|done].
        eexists. apply map_set_in.
    + cbn [step]. unfold cancelJob.
      destruct (getJob m jobId) as [[r0 j]|] eqn:Hget; [|done].
      case_decide; [done|]. cbn [fst].
      destruct (issues_frame (targetFiles j)
                  (λ fileName, Unlink (Path.join [targetDir j; fileName]))
                  (update_job r0 (λ j, with_completedAt now
                      (with_error "Cancelled by user" (with_status failed j))) m))
        as (Hh & Hj & Ha & _).
      intros Hfree e0 He0. rewrite Ha in Hfree. rewrite Hj in He0.
      unfold statuses. rewrite Hh.
      fold (statuses (update_job r0 (λ j, with_completedAt now
                        (with_error "Cancelled by user" (with_status failed j))) m)).
      rewrite statuses_update_job.
      destruct (heap m !! r0); [|by apply HW].
      destruct (decide (snd e0 = r0)) as [<-|Hne].
      * intros Hq. apply list_lookup_insert_Some in Hq as [(_ & ? & _)|[? _]]; done.
      * rewrite list_lookup_insert_ne by done. by apply HW.
    + cbn [step]. unfold cleanup. intros Hfree e0 He0.
      apply list_elem_of_filter in He0 as [_ He0]. by apply HW.
Qed.

Lemma reachable_work_conserving m : reachable m → work_conserving m.
Proof.
  intros [events ->].
  assert (Hgoal : ∀ m, invariant m → work_conserving m →
                       work_conserving (run m events)).
  { induction events as [|e events IH]; intros m Hinv Hok; simpl; [done|].
    apply IH; [by apply invariant_step|by apply work_conserving_step]. }
  apply Hgoal; [apply invariant_init|].
  intros _ e He. by apply elem_of_nil in He.
Qed.

End ConservationFacts.

Section LookupFacts.
Import DownloadManager.

Lemma map_get_None js k : k ∉ fst <$> js → map_get js k = None.
Proof.
  induction js as [|[k0 r0] js IH]; simpl; [done|].
  intros Hnin. rewrite decide_False.
  - apply IH. intros Hin. apply Hnin. by right.
  - intros ->. apply Hnin. by left.
Qed.

Lemma map_get_filter (P : string * nat → Prop) `{∀ e, Decision (P e)} js k :
  NoDup (fst <$> js) →
  map_get (filter P js) k
  = match map_get js k with
    | Some r => if decide (P (k, r)) then Some r else None
    | None => None
    end.
Proof.
  induction js as [|[k0 r0] js IH]; [done|].
  rewrite fmap_cons. intros [Hnin Hnd]%NoDup_cons. cbn [fst] in Hnin.
  rewrite filter_cons. cbn [map_get].
  destruct (decide (k0 = k)) as [->|Hne].
  - destruct (decide (P (k, r0))) as [HP|HP]; cbn [map_get].
    + by rewrite decide_True.
    + apply map_get_None. intros Hin. apply Hnin.
      apply list_elem_of_fmap in Hin as (e & -> & He).
      apply list_elem_of_filter in He as [_ He].
      apply list_elem_of_fmap. by exists e.
  - destruct (decide (P (k0, r0))); cbn [map_get];
      [rewrite decide_False by done|]; by apply IH.
Qed.

Lemma values_elem m j :
  j ∈ values m ↔ ∃ e, e ∈ jobs m ∧ heap m !! snd e = Some j.
Proof. unfold values. apply list_elem_of_omap. Qed.

(** With a free slot, the job that [createJob] stores is the one
    [processQueue] finds. *)
Lemma find_queued_created m jobId j :
  invariant m → work_conserving m → status j = queued →
  (activeDownloads m < maxConcurrent)%Z →
  find_queued {| heap := heap m ++ [j];
                 jobs := map_set (jobs m) jobId (length (heap m));
                 activeDownloads := activeDownloads m; tasks := tasks m;
                 fs_calls := fs_calls m |}
  = Some (length (heap m)).
Proof.
  intros Hinv HW Hstatus Hfree.
  match goal with |- find_queued ?m1 = _ => set (m0 := m1) end.
  assert (Hold : ∀ e0, e0 ∈ jobs m → statuses m0 !! snd e0 = statuses m !! snd e0).
  { intros e0 He0. unfold statuses, m0. cbn [heap]. rewrite fmap_app.
    apply lookup_app_l. apply (inv_job_ref m Hinv e0 He0). }
  assert (Hnew : statuses m0 !! length (heap m) = Some queued).
  { unfold statuses, m0. cbn [heap]. rewrite fmap_app.
    rewrite lookup_app_r by (by rewrite length_fmap).
    rewrite length_fmap, Nat.sub_diag. simpl. by rewrite Hstatus. }
  destruct (find_queued m0) as [r|] eqn:Hfind.
  - apply find_queued_Some in Hfind as (i & jobId' & Hi & Hq & _).
    apply list_elem_of_lookup_2 in Hi.
    apply map_set_elem in Hi as [[= _ ->]|Hin]; [done|].
    exfalso. pose proof (Hold _ Hin) as Ho. cbn [snd] in Ho.
    rewrite Ho in Hq. by apply (HW Hfree _ Hin).
  - exfalso. apply (find_queued_None m0 (length (heap m)) Hfind); [|done].
    eexists. apply map_set_in.
Qed.

End LookupFacts.

(** In every reachable state [cleanup] deletes from the table exactly the
    jobs that are [completed] or [failed] and whose [completedAt] is set and
    more than an hour old: the id of such a job is not found afterwards, and
    every other id leads to the job it led to. The job objects, the running
    downloads, the counter and the file system are left alone, the order of
    the table is kept, and a second [cleanup] at the same time changes
    nothing. *)
Theorem cleanup_deletes_expired (m : DownloadManager.manager) (now : Z)
    (jobId : string) :
  DownloadManager.reachable m →
  let m' := DownloadManager.cleanup now m in
  DownloadManager.getJob m' jobId
  = match DownloadManager.getJob m jobId with
    | Some (r, j) => if DownloadManager.expired now j then None else Some (r, j)
    | None => None
    end
  ∧ DownloadManager.heap m' = DownloadManager.heap m
  ∧ DownloadManager.tasks m' = DownloadManager.tasks m
  ∧ DownloadManager.activeDownloads m' = DownloadManager.activeDownloads m
  ∧ DownloadManager.fs_calls m' = DownloadManager.fs_calls m
  ∧ DownloadManager.jobs m' `sublist_of` DownloadManager.jobs m
  ∧ DownloadManager.cleanup now m' = m'.
Proof.
  intros Hreach m'.
  apply reachable_invariant in Hreach as Hinv.
  apply reachable_table_ok in Hreach as [Hnd Hids].
  split; [|split; [done|split; [done|split; [done|split; [done|split]]]]].
  - unfold DownloadManager.getJob, m', DownloadManager.cleanup.
    cbn [DownloadManager.jobs DownloadManager.heap DownloadManager.with_jobs].
    rewrite map_get_filter by done.
    destruct (DownloadManager.map_get (DownloadManager.jobs m) jobId) as [r|] eqn:Hget;
      [|done].
    apply map_get_elem in Hget. destruct (Hids _ _ Hget) as (j & Hj & _).
    cbn beta. cbn [snd].
    assert (Hkept : DownloadManager.kept now (DownloadManager.heap m) r
                    = negb (DownloadManager.expired now j)).
    { unfold DownloadManager.kept. by rewrite Hj. }
    rewrite Hkept. simpl. rewrite Hj. simpl.
    destruct (DownloadManager.expired now j); simpl; [done|by rewrite Hj].
  - apply sublist_filter.
  - unfold m', DownloadManager.cleanup, DownloadManager.with_jobs.
    cbn [DownloadManager.jobs DownloadManager.heap DownloadManager.activeDownloads
         DownloadManager.tasks DownloadManager.fs_calls].
    f_equal. rewrite list_filter_filter. apply list_filter_iff. tauto.
Qed.

(** A job that failed two hours ago is deleted; one that is still
    downloading stays. *)
Lemma cleanup_deletes_expired_witness :
  let m :=
    DownloadManager.run DownloadManager.init
      [DownloadManager.CreateJob "a" "https://host/a.mbtiles" "/charts" "" 1;
       DownloadManager.CreateJob "b" "https://host/b.mbtiles" "/charts" "" 2;
       DownloadManager.RequestError 0 "ECONNRESET" 3] in
  let m' := DownloadManager.cleanup 7200000 m in
  DownloadManager.getJob m' "dl_1_a" = None
  ∧ DownloadManager.getJob m' "dl_2_b" = DownloadManager.getJob m "dl_2_b"
  ∧ DownloadManager.tasks m' = DownloadManager.tasks m.
Proof.
  intros m m'.
  assert (Hreach : DownloadManager.reachable m) by (eexists; reflexivity).
  destruct (cleanup_deletes_expired m 7200000 "dl_1_a" Hreach) as (Ha & _ & Ht & _).
  destruct (cleanup_deletes_expired m 7200000 "dl_2_b" Hreach) as (Hb & _).
  split; [|split].
  - etransitivity; [exact Ha|]. vm_compute. reflexivity.
  - etransitivity; [exact Hb|]. vm_compute. reflexivity.
  - exact Ht.
Defined.

(** [createJob] stores a job under the id it returns: [getJob] of that id
    gives a new job object with the URL, the target directory and the name
    as passed, no progress and no file names, and every other id leads to
    what it led to before. The job is [downloading] at once when fewer than
    3 downloads are running, and [queued] otherwise. *)
Theorem createJob_registers (m : DownloadManager.manager)
    (rnd url targetDir chartName : string) (now : Z) :
  DownloadManager.reachable m →
  let m' := fst (DownloadManager.createJob rnd url targetDir chartName now m) in
  let jobId := snd (DownloadManager.createJob rnd url targetDir chartName now m) in
  (∃ j, DownloadManager.getJob m' jobId = Some (length (DownloadManager.heap m), j)
        ∧ DownloadManager.id j = jobId
        ∧ DownloadManager.url j = url
        ∧ DownloadManager.targetDir j = targetDir
        ∧ DownloadManager.chartName j = chartName
        ∧ DownloadManager.createdAt j = now
        ∧ DownloadManager.progress j = Num.Int 0
        ∧ DownloadManager.extractedFiles j = []
        ∧ DownloadManager.targetFiles j = []
        ∧ DownloadManager.status j
          = if (DownloadManager.activeDownloads m <? DownloadManager.maxConcurrent)%Z
            then DownloadManager.downloading else DownloadManager.queued)
  ∧ (∀ jobId', jobId' ≠ jobId →
       DownloadManager.getJob m' jobId' = DownloadManager.getJob m jobId').
Proof.
  intros Hreach m' jobId.
  apply reachable_invariant in Hreach as Hinv.
  apply reachable_work_conserving in Hreach as HW.
  unfold m', jobId, DownloadManager.createJob. cbn [fst snd].
  match goal with
  | |- context [DownloadManager.processQueue now ?m1] => set (m0 := m1)
  end.
  set (k := "dl_" +:+ Num.to_string (Num.of_Z now) +:+ "_" +:+ rnd) in *.
  assert (Hj0 : DownloadManager.heap m0 !! length (DownloadManager.heap m)
                = Some {| DownloadManager.id := k; DownloadManager.url := url;
                          DownloadManager.targetDir := targetDir;
                          DownloadManager.chartName := chartName;
                          DownloadManager.status := DownloadManager.queued;
                          DownloadManager.progress := Num.Int 0;
                          DownloadManager.downloadedBytes := Num.Int 0;
                          DownloadManager.totalBytes := Num.Int 0;
                          DownloadManager.extractedFiles := [];
                          DownloadManager.targetFiles := [];
                          DownloadManager.createdAt := now;
                          DownloadManager.startedAt := None;
                          DownloadManager.completedAt := None;
                          DownloadManager.error := None |}).
  { unfold m0. cbn [DownloadManager.heap]. by rewrite lookup_app_r, Nat.sub_diag. }
  assert (Hother : ∀ jobId', jobId' ≠ k →
            DownloadManager.getJob m0 jobId' = DownloadManager.getJob m jobId').
  { intros jobId' Hne. unfold DownloadManager.getJob, m0.
    cbn [DownloadManager.jobs DownloadManager.heap].
    rewrite map_get_set_ne by done.
    destruct (DownloadManager.map_get (DownloadManager.jobs m) jobId') as [r|] eqn:Hget;
      [|done].
    simpl. rewrite lookup_app_l; [done|].
    apply map_get_elem in Hget.
    pose proof (DownloadManager.inv_job_ref m Hinv _ Hget) as Hlt.
    unfold DownloadManager.statuses in Hlt. by rewrite length_fmap in Hlt. }
  assert (Hmine : DownloadManager.map_get (DownloadManager.jobs m0) k
                  = Some (length (DownloadManager.heap m))).
  { unfold m0. cbn [DownloadManager.jobs]. apply map_get_set. }
  unfold DownloadManager.processQueue.
  change (DownloadManager.activeDownloads m0) with (DownloadManager.activeDownloads m).
  destruct (DownloadManager.maxConcurrent <=? DownloadManager.activeDownloads m)%Z
    eqn:Hfull.
  - assert ((DownloadManager.activeDownloads m <? DownloadManager.maxConcurrent)%Z
            = false) as -> by lia.
    split; [|done]. eexists.
    split; [unfold DownloadManager.getJob; rewrite Hmine; cbn [mbind option_bind];
            by rewrite Hj0|done].
  - assert (Hfree : (DownloadManager.activeDownloads m < DownloadManager.maxConcurrent)%Z)
      by lia.
    assert ((DownloadManager.activeDownloads m <? DownloadManager.maxConcurrent)%Z
            = true) as -> by lia.
    assert (Hfind : DownloadManager.find_queued m0
                    = Some (length (DownloadManager.heap m)))
      by (by apply find_queued_created).
    rewrite Hfind.
    unfold DownloadManager.start, DownloadManager.update_job, DownloadManager.getJob.
    cbn [DownloadManager.heap DownloadManager.jobs DownloadManager.with_active].
    rewrite Hj0. split.
    + eexists. rewrite Hmine. simpl.
      rewrite list_lookup_insert_eq by (by eapply lookup_lt_Some). simpl.
      split; [reflexivity|done].
    + intros jobId' Hne. specialize (Hother jobId' Hne).
      unfold DownloadManager.getJob in Hother.
      destruct (DownloadManager.map_get (DownloadManager.jobs m0) jobId') as [r|] eqn:Hget.
      * simpl in *. rewrite list_lookup_insert_ne; [done|].
        intros <-. apply map_get_elem in Hget. unfold m0 in Hget.
        cbn [DownloadManager.jobs] in Hget.
        apply map_set_elem in Hget as [[= ->]|Hin]; [done|].
        pose proof (DownloadManager.inv_job_ref m Hinv _ Hin) as Hlt.
        unfold DownloadManager.statuses in Hlt. rewrite length_fmap in Hlt.
        simpl in Hlt. lia.
      * done.
Qed.

(** The first job submitted starts at once; the fourth one waits. *)
Lemma createJob_registers_witness :
  let m :=
    DownloadManager.run DownloadManager.init
      [DownloadManager.CreateJob "a" "https://host/a.mbtiles" "/charts" "" 1;
       DownloadManager.CreateJob "b" "https://host/b.mbtiles" "/charts" "" 2;
       DownloadManager.CreateJob "c" "https://host/c.zip" "/charts" "" 3] in
  let created := DownloadManager.createJob "d" "https://host/d.mbtiles" "/charts" "sea" 4 m in
  ∃ j, DownloadManager.getJob (fst created) (snd created) = Some (3, j)
       ∧ DownloadManager.chartName j = "sea"
       ∧ DownloadManager.status j = DownloadManager.queued.
Proof.
  intros m created.
  assert (Hreach : DownloadManager.reachable m) by (eexists; reflexivity).
  destruct (createJob_registers m "d" "https://host/d.mbtiles" "/charts" "sea" 4 Hreach)
    as [(j & Hget & _ & _ & _ & Hname & _ & _ & _ & _ & Hstatus) _].
  exists j. split; [exact Hget|]. split; [exact Hname|].
  etransitivity; [exact Hstatus|]. vm_compute. reflexivity.
Defined.

(** In every reachable state [activeDownloads] is the number of calls of
    [processJob] that have not ended, it lies between 0 and 3, and no job of
    the table is [queued] while it is below 3: a job waits only while three
    downloads are running. *)
Theorem no_job_waits_for_a_free_slot (m : DownloadManager.manager) :
  DownloadManager.reachable m →
  DownloadManager.activeDownloads m
  = Z.of_nat (length (DownloadManager.running m))
  ∧ (0 ≤ DownloadManager.activeDownloads m ≤ 3)%Z
  ∧ ((DownloadManager.activeDownloads m < 3)%Z →
     ∀ j, j ∈ DownloadManager.values m →
          DownloadManager.status j ≠ DownloadManager.queued).
Proof.
  intros Hreach.
  apply reachable_invariant in Hreach as Hinv.
  apply reachable_work_conserving in Hreach as HW.
  pose proof (DownloadManager.inv_active m Hinv) as Ha.
  pose proof (DownloadManager.inv_bound m Hinv) as Hb.
  unfold DownloadManager.maxConcurrent in Hb.
  split; [done|]. split; [lia|].
  intros Hfree j (e & He & Hj)%values_elem Hq.
  apply (HW Hfree e He). by rewrite statuses_lookup, Hj, <- Hq.
Qed.

(** After two submissions and the failure of the first request one download
    is running and nothing waits. *)
Lemma no_job_waits_for_a_free_slot_witness :
  let m :=
    DownloadManager.run DownloadManager.init
      [DownloadManager.CreateJob "a" "https://host/a.mbtiles" "/charts" "" 1;
       DownloadManager.CreateJob "b" "https://host/b.mbtiles" "/charts" "" 2;
       DownloadManager.RequestError 0 "ECONNRESET" 3] in
  DownloadManager.activeDownloads m = 1%Z
  ∧ ∀ j, j ∈ DownloadManager.values m →
         DownloadManager.status j ≠ DownloadManager.queued.
Proof.
  intros m.
  assert (Hreach : DownloadManager.reachable m) by (eexists; reflexivity).
  destruct (no_job_waits_for_a_free_slot m Hreach) as (Ha & _ & Hfree).
  split; [vm_compute; reflexivity|]. apply Hfree. vm_compute. reflexivity.
Defined.

(** [cancelJob] does not stop a download. A job cancelled while its file is
    being written becomes [failed], keeps its slot and its call of
    [processJob]; when the file stream finishes afterwards, the job becomes
    [completed] with progress 100 and the file name in [extractedFiles],
    the error [Cancelled by user] still set. *)
Theorem cancelled_download_completes (m : DownloadManager.manager) (t : nat)
    (tk : DownloadManager.task) (jobId : string) (j : DownloadManager.job)
    (targetPath : string) (now finished : Z) :
  DownloadManager.tasks m !! t = Some tk →
  DownloadManager.t_phase tk = DownloadManager.Direct targetPath →
  DownloadManager.t_settled tk = false →
  DownloadManager.getJob m jobId = Some (DownloadManager.t_job tk, j) →
  DownloadManager.status j ≠ DownloadManager.completed →
  let cancelled := fst (DownloadManager.cancelJob jobId now m) in
  let ended := DownloadManager.step cancelled (DownloadManager.FileFinish t finished) in
  DownloadManager.success (snd (DownloadManager.cancelJob jobId now m)) = true
  ∧ (DownloadManager.status <$> DownloadManager.heap cancelled !! DownloadManager.t_job tk)
    = Some DownloadManager.failed
  ∧ DownloadManager.tasks cancelled = DownloadManager.tasks m
  ∧ DownloadManager.activeDownloads cancelled = DownloadManager.activeDownloads m
  ∧ ∃ j', DownloadManager.heap ended !! DownloadManager.t_job tk = Some j'
          ∧ DownloadManager.status j' = DownloadManager.completed
          ∧ DownloadManager.progress j' = Num.Int 100
          ∧ DownloadManager.error j' = Some "Cancelled by user"
          ∧ DownloadManager.completedAt j' = Some finished
          ∧ DownloadManager.extractedFiles j'
            = DownloadManager.extractedFiles j ++ [Path.basename targetPath].
Proof.
  intros Htk Hphase Hs Hget Hlive cancelled ended.
  assert (Hj : DownloadManager.heap m !! DownloadManager.t_job tk = Some j).
  { unfold DownloadManager.getJob in Hget.
    destruct (DownloadManager.map_get _ _) as [r1|]; simpl in Hget; [|done].
    destruct (DownloadManager.heap m !! r1) eqn:E; simpl in Hget; [|done].
    by injection Hget as -> ->. }
  unfold ended, cancelled, DownloadManager.cancelJob. rewrite Hget.
  rewrite decide_False by done. cbn [fst snd DownloadManager.success].
  set (f := λ j, DownloadManager.with_completedAt now
                   (DownloadManager.with_error "Cancelled by user"
                      (DownloadManager.with_status DownloadManager.failed j))).
  destruct (issues_frame (DownloadManager.targetFiles j)
              (λ fileName,
                 DownloadManager.Unlink
                   (Path.join [DownloadManager.targetDir j; fileName]))
              (DownloadManager.update_job (DownloadManager.t_job tk) f m))
    as (Hh & _ & Ha & Ht & _).
  set (m2 := foldl _ _ _) in *.
  assert (Hj2 : DownloadManager.heap m2 !! DownloadManager.t_job tk = Some (f j)).
  { rewrite Hh. unfold DownloadManager.update_job. cbn [DownloadManager.heap].
    rewrite Hj. apply list_lookup_insert_eq. by eapply lookup_lt_Some. }
  split; [done|]. split; [by rewrite Hj2|]. split; [done|]. split; [done|].
  cbn [DownloadManager.step]. unfold DownloadManager.onFileFinish.
  rewrite Ht. change (DownloadManager.tasks (DownloadManager.update_job _ f m))
    with (DownloadManager.tasks m).
  rewrite Htk, Hphase.
  set (g := λ j, DownloadManager.with_progress (Num.Int 100)
                   (DownloadManager.push_extracted (Path.basename targetPath) j)).
  set (x := DownloadManager.update_task t (DownloadManager.set_phase DownloadManager.Ended)
              (DownloadManager.update_job (DownloadManager.t_job tk) g m2)).
  assert (Htx : DownloadManager.tasks x !! t
                = Some (DownloadManager.set_phase DownloadManager.Ended tk)).
  { apply tasks_update_task_lookup. rewrite tasks_update_job, Ht. exact Htk. }
  assert (Hjx : DownloadManager.heap x !! DownloadManager.t_job tk = Some (g (f j))).
  { unfold x, DownloadManager.update_task, DownloadManager.update_job.
    cbn [DownloadManager.heap]. rewrite Hj2.
    apply list_lookup_insert_eq. by eapply lookup_lt_Some. }
  destruct (settle_job x t None finished _ (g (f j)) Htx) as [Hheap _]; [done|done|].
  cbn [DownloadManager.t_job DownloadManager.set_phase] in Hheap.
  eexists. split; [exact Hheap|]. done.
Qed.

(** A download is cancelled after its response and completes all the
    same. *)
Lemma cancelled_download_completes_witness :
  let m :=
    DownloadManager.run DownloadManager.init
      [DownloadManager.CreateJob "a" "https://host/a.mbtiles" "/charts" "" 1;
       DownloadManager.Response 0 200 None None None 2] in
  let ended :=
    DownloadManager.step (fst (DownloadManager.cancelJob "dl_1_a" 3 m))
      (DownloadManager.FileFinish 0 4) in
  ∃ j', DownloadManager.heap ended !! 0 = Some j'
        ∧ DownloadManager.status j' = DownloadManager.completed
        ∧ DownloadManager.error j' = Some "Cancelled by user".
Proof.
  intros m ended.
  assert (∃ j, DownloadManager.getJob m "dl_1_a" = Some (0, j)) as [j Hj]
    by (eexists; vm_compute; reflexivity).
  assert (∃ tk, DownloadManager.tasks m !! 0 = Some tk) as [tk Htk]
    by (eexists; vm_compute; reflexivity).
  assert (Hjob : DownloadManager.t_job tk = 0).
  { injection Htk as <-. vm_compute; reflexivity. }
  destruct (cancelled_download_completes m 0 tk "dl_1_a" j "/charts/a.mbtiles" 3 4 Htk)
    as (_ & _ & _ & _ & j' & Hj' & Hs & _ & He & _).
  - injection Htk as <-. vm_compute; reflexivity.
  - injection Htk as <-. vm_compute; reflexivity.
  - by rewrite Hjob.
  - injection Hj as <-. vm_compute. discriminate.
  - exists j'. rewrite Hjob in Hj'. exact (conj Hj' (conj Hs He)).
Defined.

(** A request that fails before its response fails the job: the job becomes
    [failed] with the message of the error, or with [Download failed] when
    the message is empty, nothing is written, and the slot goes to the
    oldest queued job of the table or, when none waits, is freed. *)
Theorem request_error_fails_job (m : DownloadManager.manager) (t : nat)
    (tk : DownloadManager.task) (j : DownloadManager.job) (message : string)
    (now : Z) :
  DownloadManager.reachable m →
  DownloadManager.tasks m !! t = Some tk →
  DownloadManager.t_phase tk = DownloadManager.Requesting →
  DownloadManager.heap m !! DownloadManager.t_job tk = Some j →
  let m' := DownloadManager.step m (DownloadManager.RequestError t message now) in
  DownloadManager.heap m' !! DownloadManager.t_job tk
  = Some (DownloadManager.with_completedAt now
            (DownloadManager.with_error
               (if decide (message = "") then "Download failed" else message)
               (DownloadManager.with_status DownloadManager.failed j)))
  ∧ DownloadManager.fs_calls m' = DownloadManager.fs_calls m
  ∧ DownloadManager.jobs m' = DownloadManager.jobs m
  ∧ match DownloadManager.find_queued m with
    | Some r =>
        DownloadManager.statuses m' !! r = Some DownloadManager.downloading
        ∧ DownloadManager.activeDownloads m' = DownloadManager.activeDownloads m
    | None =>
        DownloadManager.activeDownloads m' = (DownloadManager.activeDownloads m - 1)%Z
    end.
Proof.
  intros Hreach Htk Hphase Hj m'. apply reachable_invariant in Hreach as Hinv.
  assert (Hs : DownloadManager.t_settled tk = false).
  { eapply DownloadManager.inv_requesting; [exact Hinv| |done].
    by eapply list_elem_of_lookup_2. }
  unfold m'. cbn [DownloadManager.step]. unfold DownloadManager.onRequestError.
  rewrite Htk, Hphase.
  set (x := DownloadManager.update_task t
              (DownloadManager.set_phase DownloadManager.Ended) m).
  assert (Htx : DownloadManager.tasks x !! t
                = Some (DownloadManager.set_phase DownloadManager.Ended tk))
    by (by apply tasks_update_task_lookup).
  destruct (settle_job x t (Some message) now _ j Htx) as [Hheap Hfs]; [done|done|].
  cbn [DownloadManager.t_job DownloadManager.set_phase] in Hheap.
  assert (Hquiet : DownloadManager.quiet m x) by (by apply quiet_update_task).
  destruct Hquiet as (Hsame & Ha & Hviews).
  destruct (settle_effect x t (Some message) now _ Htx) as (_ & Hjobs & Hcase).
  { done. }
  { rewrite Ha. apply Hinv. }
  { cbn [DownloadManager.t_job DownloadManager.set_phase].
    change (DownloadManager.statuses x) with (DownloadManager.statuses m).
    rewrite statuses_lookup, Hj. simpl. intros [= Hq].
    by eapply task_job_not_queued. }
  rewrite (find_queued_same m x Hsame) in Hcase.
  split.
  { rewrite Hheap. unfold DownloadManager.finish_job. do 3 f_equal.
    by destruct message. }
  split; [done|]. split; [done|].
  destruct (DownloadManager.find_queued m); [by destruct Hcase as (? & ? & _)|].
  by destruct Hcase as [? _].
Qed.

(** The only request fails without a message: the job is failed with the
    default error and the slot is freed. *)
Lemma request_error_fails_job_witness :
  let m :=
    DownloadManager.run DownloadManager.init
      [DownloadManager.CreateJob "a" "https://host/a.mbtiles" "/charts" "" 1] in
  let m' := DownloadManager.step m (DownloadManager.RequestError 0 "" 2) in
  (DownloadManager.error <$> DownloadManager.heap m' !! 0)
  = Some (Some "Download failed")
  ∧ DownloadManager.activeDownloads m' = 0%Z.
Proof.
  intros m m'.
  assert (Hreach : DownloadManager.reachable m) by (eexists; reflexivity).
  assert (∃ j, DownloadManager.heap m !! 0 = Some j) as [j Hj]
    by (eexists; vm_compute; reflexivity).
  assert (∃ tk, DownloadManager.tasks m !! 0 = Some tk) as [tk Htk]
    by (eexists; vm_compute; reflexivity).
  assert (Hjob : DownloadManager.t_job tk = 0).
  { injection Htk as <-. vm_compute; reflexivity. }
  destruct (request_error_fails_job m 0 tk j "" 2 Hreach Htk) as (Hheap & _ & _ & Hslot).
  - injection Htk as <-. vm_compute; reflexivity.
  - by rewrite Hjob.
  - fold m' in Hheap, Hslot. rewrite Hjob in Hheap. split.
    + by rewrite Hheap.
    + assert (Hnone : DownloadManager.find_queued m = None) by (vm_compute; reflexivity).
      rewrite Hnone in Hslot. etransitivity; [exact Hslot|]. vm_compute. reflexivity.
Defined.

Section SortFacts.
Import DownloadManager.

Lemma insert_newest_Permutation j l : insert_newest j l ≡ₚ j :: l.
Proof.
  induction l as [|k l IH]; simpl; [done|].
  destruct (_ <? _)%Z; [done|]. rewrite IH. apply Permutation_swap.
Qed.

Lemma insert_newest_elem j l x : x ∈ insert_newest j l ↔ x = j ∨ x ∈ l.
Proof. rewrite insert_newest_Permutation. apply elem_of_cons. Qed.

Lemma insert_newest_sorted j l :
  newest_first l → newest_first (insert_newest j l).
Proof.
  induction l as [|k l IH]; simpl; [by repeat constructor|].
  intros [Hk Hl]. destruct (createdAt k <? createdAt j)%Z eqn:Hlt.
  - split; [|done].
    constructor; [lia|]. eapply Forall_impl; [exact Hk|]. simpl. intros; lia.
  - split; [|by apply IH]. rewrite Forall_forall. intros x Hx.
    apply insert_newest_elem in Hx as [->|Hx]; [lia|].
    rewrite Forall_forall in Hk. by apply Hk.
Qed.

Lemma filter_none {A} (P : A → Prop) `{∀ x, Decision (P x)} (l : list A) :
  Forall (λ x, ¬ P x) l → filter P l = [].
Proof.
  induction 1 as [|x l Hx Hl IH]; [done|]. by rewrite filter_cons_False.
Qed.

Lemma filter_agree {A} (P1 P2 : A → Prop) `{∀ x, Decision (P1 x)}
    `{∀ x, Decision (P2 x)} (l : list A) :
  (∀ x, x ∈ l → (P1 x ↔ P2 x)) → filter P1 l = filter P2 l.
Proof.
  induction l as [|x l IH]; intros Hl; [done|].
  rewrite !filter_cons, IH by (intros y Hy; apply Hl; by right).
  destruct (decide (P1 x)) as [H1|H1], (decide (P2 x)) as [H2|H2]; try done;
    exfalso; apply (Hl x) in H1 || apply (Hl x) in H2; try done; by left.
Qed.

(** A job is inserted behind the jobs of its own creation time. *)
Lemma insert_newest_filter time j l :
  newest_first l →
  filter (λ x, createdAt x = time) (insert_newest j l)
  = filter (λ x, createdAt x = time) l
    ++ (if decide (createdAt j = time) then [j] else []).
Proof.
  induction l as [|k l IH]; cbn [insert_newest].
  { intros _. rewrite filter_cons, filter_nil. by destruct (decide _). }
  intros [Hk Hl]. destruct (createdAt k <? createdAt j)%Z eqn:Hlt.
  - rewrite (filter_cons _ j). destruct (decide (createdAt j = time)) as [Hj|Hj];
      [|by rewrite app_nil_r].
    rewrite (filter_none _ (k :: l)); [done|].
    constructor; [lia|]. eapply Forall_impl; [exact Hk|]. simpl. intros; lia.
  - rewrite !(filter_cons _ k), IH by done.
    by destruct (decide (createdAt k = time)).
Qed.

Lemma sort_steps (l : list job) :
  let sorted := foldl (λ sorted j, insert_newest j sorted) [] l in
  sorted ≡ₚ l
  ∧ newest_first sorted
  ∧ ∀ time, filter (λ x, createdAt x = time) sorted
            = filter (λ x, createdAt x = time) l.
Proof.
  induction l as [|j l IH] using rev_ind; [by repeat constructor|].
  rewrite foldl_app. cbn [foldl]. cbn zeta in IH. destruct IH as (Hp & Hs & Hf).
  split; [|split].
  - rewrite insert_newest_Permutation, Hp. by rewrite Permutation_app_comm.
  - by apply insert_newest_sorted.
  - intros time. rewrite insert_newest_filter by done.
    rewrite Hf, filter_app, filter_cons, filter_nil. done.
Qed.

End SortFacts.

(** [getAllJobs] returns every job of the table once, the newest first:
    each job was created no later than the one before it, and the jobs
    created in the same millisecond come in the order of the table. *)
Theorem getAllJobs_newest_first (m : DownloadManager.manager) :
  DownloadManager.getAllJobs m ≡ₚ DownloadManager.values m
  ∧ DownloadManager.newest_first (DownloadManager.getAllJobs m)
  ∧ ∀ time,
      filter (λ j, DownloadManager.createdAt j = time) (DownloadManager.getAllJobs m)
      = filter (λ j, DownloadManager.createdAt j = time) (DownloadManager.values m).
Proof. apply sort_steps. Qed.

Section TargetFacts.
Import DownloadManager.

(** A queued job has no call of [processJob], hence no file name. *)
Lemma queued_untouched m (r : nat) j :
  invariant m → fresh m → heap m !! r = Some j → status j = queued → untouched j.
Proof.
  intros Hinv Hfresh Hj Hq. apply (Hfresh r j Hj).
  intros tk Hin Hr. exfalso.
  apply (inv_not_queued m Hinv (t_job tk, t_settled tk)).
  - unfold task_views. apply list_elem_of_fmap. by exists tk.
  - simpl. rewrite Hr, statuses_lookup, Hj. simpl. by rewrite Hq.
Qed.

End TargetFacts.

(** In every reachable state [findJobsByTargetFile] returns the jobs of the
    table that are [downloading] or [extracting] and have the name in
    [targetFiles], in the order of the table. It never returns a queued
    job, although it tests for one: a queued job has no file name yet. *)
Theorem findJobsByTargetFile_in_flight (m : DownloadManager.manager)
    (fileName : string) :
  DownloadManager.reachable m →
  DownloadManager.findJobsByTargetFile m fileName
  = filter (λ j, DownloadManager.in_flight j = true
                 ∧ fileName ∈ DownloadManager.targetFiles j)
      (DownloadManager.values m).
Proof.
  intros Hreach. apply reachable_invariant in Hreach as Hinv.
  apply reachable_fresh in Hreach as Hfresh.
  unfold DownloadManager.findJobsByTargetFile.
  apply filter_agree. intros j (e & He & Hj)%values_elem.
  unfold DownloadManager.is_active, DownloadManager.in_flight.
  rewrite andb_true_iff, bool_decide_eq_true.
  split; [|intros [Hf Hin]; split; [|done]].
  - intros [Hact Hin]. split; [|done].
    destruct (decide (DownloadManager.status j = DownloadManager.queued)) as [Hq|Hq].
    + destruct (queued_untouched m _ j Hinv Hfresh Hj Hq) as [_ Hnone].
      rewrite Hnone in Hin. by apply elem_of_nil in Hin.
    + rewrite (bool_decide_eq_false_2 _ Hq) in Hact. done.
  - apply orb_true_iff in Hf as [Hf|Hf]; rewrite Hf; by rewrite ?orb_true_r.
Qed.

(** Of a running download and a waiting one, only the running one is found
    under its file name. *)
Lemma findJobsByTargetFile_in_flight_witness :
  let m :=
    DownloadManager.run DownloadManager.init
      [DownloadManager.CreateJob "a" "https://host/a.mbtiles" "/charts" "" 1;
       DownloadManager.Response 0 200 None None None 2] in
  DownloadManager.id <$> DownloadManager.findJobsByTargetFile m "a.mbtiles" = ["dl_1_a"].
Proof.
  intros m.
  assert (Hreach : DownloadManager.reachable m) by (eexists; reflexivity).
  rewrite (findJobsByTargetFile_in_flight m "a.mbtiles" Hreach).
  vm_compute. reflexivity.
Defined.

Section RedirectFacts.
Import DownloadManager.


End RedirectFacts.



(** ** The routes of the plugin: the path check, renaming, folders *)

Section NormalizeFacts.
Import Str Routes.

Lemma join_nonempty (l : list string) :
  l ≠ [] → Forall (λ s, s ≠ "") l → join "/" l ≠ "".
Proof.
  intros Hne Hl. destruct Hl as [|s [|s' l] Hs _]; [done| |]; simpl.
  - done.
  - destruct s; [done|discriminate].
Qed.

Lemma normalize_segments_nonempty allow acc segs :
  Forall (λ s, s ≠ "") acc →
  Forall (λ s, s ≠ "") (Path.normalize_segments allow acc segs).
Proof.
  revert acc. induction segs as [|seg segs IH]; intros acc Hacc; simpl.
  - by apply Forall_rev.
  - repeat case_decide; try by apply IH.
    + destruct acc as [|last acc'].
      * destruct allow; apply IH; by repeat constructor.
      * case_decide; apply IH; [by constructor|]. by apply Forall_cons in Hacc as [_ ?].
    + apply IH. by constructor.
Qed.

(** The last character of ["/" + segs.join("/")] is a slash exactly when
    the last segment is empty. *)
Lemma rev_chars_join (segs : list string) :
  segs ≠ [] → Forall (λ s, Path.slash ∉ chars s) segs →
  prefix_of [Path.slash] (rev (chars ("/" +:+ join "/" segs)))
  = bool_decide (last segs = Some "").
Proof.
  intros Hne Hl. induction Hl as [|seg segs Hseg Hl IH]; [done|].
  destruct segs as [|seg' segs].
  - cbn [join last]. change (chars ("/" +:+ seg)) with (Path.slash :: chars seg).
    destruct (rev (chars seg)) as [|c l] eqn:Hrev.
    + assert (chars seg = []) as Hnil.
      { apply (f_equal (@rev _)) in Hrev. by rewrite rev_involutive in Hrev. }
      assert (seg = "") as -> by (by apply chars_inj).
      done.
    + cbn [rev]. rewrite Hrev. cbn [app prefix_of].
      assert (c ≠ Path.slash).
      { intros ->. apply Hseg. apply list_elem_of_In, in_rev.
        rewrite Hrev. by left. }
      rewrite decide_False by done.
      rewrite bool_decide_eq_false_2; [done|].
      intros [= ->]. by destruct (chars "") eqn:E.
  - specialize (IH ltac:(done)).
    change (last (seg :: seg' :: segs)) with (last (seg' :: segs)).
    rewrite <- IH.
    change (join "/" (seg :: seg' :: segs))
      with (seg +:+ "/" +:+ join "/" (seg' :: segs)).
    change ("/" +:+ seg +:+ "/" +:+ join "/" (seg' :: segs))
      with (("/" +:+ seg) +:+ ("/" +:+ join "/" (seg' :: segs))).
    rewrite chars_app, rev_app_distr.
    change (chars ("/" +:+ join "/" (seg' :: segs)))
      with (Path.slash :: chars (join "/" (seg' :: segs))).
    cbn [rev].
    destruct (rev (chars (join "/" (seg' :: segs)))); reflexivity.
Qed.

Lemma split_rooted (segs : list string) :
  segs ≠ [] → Forall (λ s, Path.slash ∉ chars s) segs →
  split Path.slash ("/" +:+ join "/" segs) = "" :: segs.
Proof.
  intros Hne Hl.
  change ("/" +:+ join "/" segs)
    with ("" +:+ String Path.slash (join (String Path.slash "") segs)).
  rewrite split_app, split_join by done. reflexivity.
Qed.

(** [path.normalize] of an absolute path, by segments. *)
Lemma normalize_rooted (segs : list string) :
  segs ≠ [] → Forall (λ s, Path.slash ∉ chars s) segs →
  Path.normalize ("/" +:+ join "/" segs)
  = match Path.normalize_segments false [] segs with
    | [] => "/"
    | q => "/" +:+ join "/" q
           +:+ (if bool_decide (last segs = Some "") then "/" else "")
    end.
Proof.
  intros Hne Hl. unfold Path.normalize.
  rewrite decide_False by done.
  assert (Path.isAbsolute ("/" +:+ join "/" segs) = true) as -> by done.
  unfold endsWith. change (rev (chars "/")) with [Path.slash].
  rewrite rev_chars_join by done.
  unfold Path.normalizeString. rewrite split_rooted by done.
  change (Path.normalize_segments (negb true) [] ("" :: segs))
    with (Path.normalize_segments false [] segs).
  pose proof (normalize_segments_nonempty false [] segs ltac:(constructor)) as Hq.
  destruct (Path.normalize_segments false [] segs) as [|s q] eqn:Hsegs.
  - rewrite decide_True by done. done.
  - rewrite decide_False by (by apply join_nonempty).
    destruct (bool_decide _); [done|]. by rewrite append_empty_r.
Qed.

End NormalizeFacts.

Section CheckFacts.
Import Str Routes.

Lemma plain_slash_free (l : list string) :
  Forall plain l → Forall (λ s, Path.slash ∉ chars s) l.
Proof. intros H. eapply Forall_impl; [exact H|]. by intros s (_ & _ & _ & ?). Qed.

Lemma plain_kept (l : list string) :
  Forall plain l → Forall (λ seg, seg ≠ "" ∧ seg ≠ "." ∧ seg ≠ "..") l.
Proof. intros H. eapply Forall_impl; [exact H|]. by intros s (? & ? & ? & _). Qed.

Lemma normalize_segments_all_plain acc (l : list string) :
  Forall plain l →
  Path.normalize_segments false acc l = rev acc ++ l.
Proof.
  intros Hl. rewrite <- (app_nil_r l) at 1.
  rewrite normalize_segments_plain by (by apply plain_kept).
  cbn [Path.normalize_segments]. by rewrite rev_app_distr, rev_involutive.
Qed.

(** Without leave to climb above the root, normalization returns plain
    segments. *)
Lemma normalize_segments_out acc (segs : list string) :
  Forall plain acc → Forall (λ s, Path.slash ∉ chars s) segs →
  Forall plain (Path.normalize_segments false acc segs).
Proof.
  intros Hacc Hsegs. revert acc Hacc.
  induction Hsegs as [|seg segs Hseg Hsegs IH]; intros acc Hacc; simpl.
  - by apply Forall_rev.
  - repeat case_decide; try by apply IH.
    + destruct acc as [|last acc']; [by apply IH|].
      apply Forall_cons in Hacc as [(_ & _ & Hlast & _) Hacc].
      rewrite decide_False by done. by apply IH.
    + apply IH. by constructor.
Qed.

Lemma last_plain (l : list string) :
  Forall plain l → bool_decide (last l = Some "") = false.
Proof.
  intros Hl. apply bool_decide_eq_false_2. intros Hlast.
  apply last_Some in Hlast as [l' ->].
  apply Forall_app in Hl as [_ Hl]. by apply Forall_cons in Hl as [(? & _) _].
Qed.

(** An absolute path of plain segments is normalized. *)
Lemma normalize_plain (dirs : list string) :
  dirs ≠ [] → Forall plain dirs →
  Path.normalize ("/" +:+ join "/" dirs) = "/" +:+ join "/" dirs.
Proof.
  intros Hne Hd. rewrite normalize_rooted by (by try apply plain_slash_free).
  rewrite normalize_segments_all_plain by done. cbn [rev app].
  rewrite last_plain by done. destruct dirs; [done|]. by rewrite append_empty_r.
Qed.

(** Normalizing twice is normalizing once. *)
Lemma normalize_rooted_idem (segs : list string) :
  segs ≠ [] → Forall (λ s, Path.slash ∉ chars s) segs →
  Path.normalize (Path.normalize ("/" +:+ join "/" segs))
  = Path.normalize ("/" +:+ join "/" segs).
Proof.
  intros Hne Hl. rewrite normalize_rooted by done.
  pose proof (normalize_segments_out [] segs ltac:(constructor) Hl) as Hq.
  destruct (Path.normalize_segments false [] segs) as [|s q] eqn:Hsegs; [done|].
  destruct (bool_decide (last segs = Some "")).
  - assert (join "/" (s :: q) +:+ "/" = join "/" ((s :: q) ++ [""])) as Hj.
    { rewrite join_app by done. simpl join at 3. done. }
    change ("/" +:+ join "/" (s :: q) +:+ "/")
      with ("/" +:+ (join "/" (s :: q) +:+ "/")).
    rewrite Hj. rewrite normalize_rooted.
    + rewrite normalize_segments_plain by (by apply plain_kept).
      cbn [Path.normalize_segments]. rewrite decide_True by done.
      rewrite app_nil_r, rev_involutive.
      rewrite bool_decide_eq_true_2 by (by rewrite last_snoc).
      by rewrite <- Hj.
    + by destruct q.
    + apply Forall_app. split; [by apply plain_slash_free|].
      constructor; [|done]. by intros ?%elem_of_nil.
  - rewrite append_empty_r. by apply normalize_plain.
Qed.

(** [path.join] of an absolute directory and a relative path, by
    segments. *)
Lemma join_rooted (dirs ps : list string) :
  dirs ≠ [] → Forall plain dirs →
  ps ≠ [] → Forall (λ s, Path.slash ∉ chars s) ps → join "/" ps ≠ "" →
  Path.join ["/" +:+ join "/" dirs; join "/" ps]
  = Path.normalize ("/" +:+ join "/" (dirs ++ ps)).
Proof.
  intros Hd Hdirs Hp Hps Hparam. unfold Path.join.
  rewrite filter_cons_True by done.
  rewrite filter_cons_True by done. rewrite filter_nil.
  cbn [join]. rewrite join_app by done. by rewrite append_assoc.
Qed.

Lemma prefix_of_length p l : prefix_of p l = true → (length p ≤ length l)%nat.
Proof.
  revert l. induction p as [|a p IH]; intros [|b l]; simpl; try done; [lia|].
  case_decide; [|done]. intros Hp. apply IH in Hp. lia.
Qed.

Lemma prefix_of_cancel l a b : prefix_of (l ++ a) (l ++ b) = prefix_of a b.
Proof. induction l as [|c l IH]; [done|]. simpl. by rewrite decide_True. Qed.

Lemma length_join_take (dirs : list string) (i : nat) :
  Forall plain dirs → (i < length dirs)%nat →
  (length (chars (join "/" (take i dirs))) < length (chars (join "/" dirs)))%nat.
Proof.
  intros Hd Hi.
  assert (Hdrop : drop i dirs ≠ []).
  { intros Hnil. apply (f_equal length) in Hnil. rewrite length_drop in Hnil.
    simpl in Hnil. lia. }
  assert (Hlen : (0 < length (chars (join "/" (drop i dirs))))%nat).
  { assert (join "/" (drop i dirs) ≠ "") as Hne.
    { apply join_nonempty; [done|]. apply Forall_drop.
      eapply Forall_impl; [exact Hd|]. by intros s (? & _). }
    destruct (join "/" (drop i dirs)); [done|]. simpl. lia. }
  destruct i as [|i].
  - rewrite take_0. rewrite drop_0 in Hlen. simpl. lia.
  - rewrite <- (take_drop (S i) dirs) at 2.
    rewrite join_app; [|destruct dirs; [simpl in Hi; lia|done]|done].
    rewrite !chars_app, !length_app. lia.
Qed.

End CheckFacts.

Section ClimbFacts.
Import Str Routes.

Lemma normalize_segments_climb acc (k : nat) :
  Forall plain acc →
  Path.normalize_segments false acc (replicate k "..") = rev (drop k acc).
Proof.
  revert acc. induction k as [|k IH]; intros acc Hacc; [done|].
  cbn [replicate Path.normalize_segments].
  rewrite decide_False by done. rewrite decide_False by done.
  rewrite decide_True by done.
  destruct acc as [|last acc]; [rewrite IH by done; by rewrite !drop_nil|].
  apply Forall_cons in Hacc as [(_ & _ & Hlast & _) Hacc].
  rewrite decide_False by done. by apply IH.
Qed.

Lemma last_nonempty (l : list string) :
  Forall (λ s, s ≠ "") l → bool_decide (last l = Some "") = false.
Proof.
  intros Hl. apply bool_decide_eq_false_2. intros Hlast.
  apply last_Some in Hlast as [l' ->].
  apply Forall_app in Hl as [_ Hl]. by apply Forall_cons in Hl as [? _].
Qed.

Lemma normalize_segments_up acc (last : string) rest :
  last ≠ ".." →
  Path.normalize_segments false (last :: acc) (".." :: rest)
  = Path.normalize_segments false acc rest.
Proof. intros Hlast. simpl. by rewrite decide_False. Qed.

Lemma join_last_app (ds : list string) (d e : string) :
  join "/" (ds ++ [d +:+ e]) = join "/" (ds ++ [d]) +:+ e.
Proof.
  destruct ds as [|d0 ds]; [done|].
  rewrite !join_app by done. cbn [join]. by rewrite !append_assoc.
Qed.

Lemma startsWith_app (s rest : string) : startsWith (s +:+ rest) s = true.
Proof. unfold startsWith. rewrite chars_app. apply prefix_of_app. Qed.

End ClimbFacts.

(** The path check of the routes
    ([path.normalize(fullPath).startsWith(path.normalize(basePath))]), for
    an absolute, normalized base directory. A parameter made of plain
    segments passes, and the full path is the base directory followed by
    the parameter. A parameter that climbs out of the base directory by
    [..] segments only is refused. *)
Theorem path_check_subpaths_and_climbing (dirs : list string) :
  dirs ≠ [] → Forall Routes.plain dirs →
  let basePath := "/" +:+ Str.join "/" dirs in
  (∀ ps, ps ≠ [] → Forall Routes.plain ps →
         Path.join [basePath; Str.join "/" ps] = basePath +:+ "/" +:+ Str.join "/" ps
         ∧ Routes.withinBase basePath (Path.join [basePath; Str.join "/" ps]) = true)
  ∧ (∀ k, (0 < k)%nat →
          Routes.withinBase basePath
            (Path.join [basePath; Str.join "/" (replicate k "..")]) = false).
Proof.
  intros Hne Hdirs basePath.
  assert (Hbase : Path.normalize basePath = basePath) by (by apply normalize_plain).
  split.
  - intros ps Hps Hplain.
    assert (Hfull : Path.join [basePath; Str.join "/" ps]
                    = basePath +:+ "/" +:+ Str.join "/" ps).
    { unfold basePath. rewrite join_rooted; try done.
      - rewrite normalize_plain; [|by destruct dirs|by apply Forall_app].
        rewrite join_app by done. by rewrite append_assoc.
      - by apply plain_slash_free.
      - apply join_nonempty; [done|].
        eapply Forall_impl; [exact Hplain|]. by intros s (? & _). }
    split; [done|]. unfold Routes.withinBase. rewrite Hfull, Hbase.
    assert (Path.normalize (basePath +:+ "/" +:+ Str.join "/" ps)
            = basePath +:+ "/" +:+ Str.join "/" ps) as ->.
    { unfold basePath. rewrite append_assoc, <- join_app by done.
      apply normalize_plain; [by destruct dirs|by apply Forall_app]. }
    apply startsWith_app.
  - intros k Hk.
    assert (Hslash : Forall (λ s, Path.slash ∉ Str.chars s) (replicate k "..")).
    { apply Forall_replicate. by_computation. }
    assert (Hps : replicate k ".." ≠ []) by (destruct k; [lia|done]).
    assert (Hfull : Path.join [basePath; Str.join "/" (replicate k "..")]
                    = Path.normalize
                        ("/" +:+ Str.join "/" (dirs ++ replicate k ".."))).
    { unfold basePath. apply join_rooted; try done.
      apply join_nonempty; [done|]. apply Forall_replicate. done. }
    assert (Hall : Forall (λ s, Path.slash ∉ Str.chars s) (dirs ++ replicate k "..")).
    { apply Forall_app. split; [by apply plain_slash_free|done]. }
    unfold Routes.withinBase. rewrite Hfull, Hbase.
    rewrite normalize_rooted_idem by (by try destruct dirs).
    rewrite normalize_rooted by (by try destruct dirs).
    rewrite normalize_segments_plain by (by apply plain_kept).
    rewrite app_nil_r, normalize_segments_climb by (by apply Forall_rev).
    rewrite skipn_rev, rev_involutive.
    assert (bool_decide (last (dirs ++ replicate k "..") = Some "") = false) as ->.
    { apply bool_decide_eq_false_2.
      destruct k as [|k]; [lia|]. rewrite replicate_S_end, app_assoc, last_snoc.
      discriminate. }
    set (i := (length dirs - k)%nat).
    assert (Hi : (i < length dirs)%nat).
    { unfold i. destruct dirs; [done|]. simpl. lia. }
    pose proof (length_join_take dirs i Hdirs Hi) as Hlen.
    apply not_true_is_false. intros Hpre.
    assert (Hshort : ∀ full,
              (length (Str.chars full) ≤ S (length (Str.chars (Str.join "/" (take i dirs)))))%nat →
              Str.startsWith full basePath = true → False).
    { intros full Hfl Hst. apply prefix_of_length in Hst.
      unfold basePath in Hst.
      change (Str.chars ("/" +:+ Str.join "/" dirs))
        with (Path.slash :: Str.chars (Str.join "/" dirs)) in Hst.
      simpl in Hst. lia. }
    destruct (take i dirs) as [|s q] eqn:Htake.
    + apply (Hshort "/"); [simpl; lia|done].
    + eapply Hshort; [|exact Hpre]. rewrite append_empty_r.
      change (Str.chars ("/" +:+ Str.join "/" (s :: q)))
        with (Path.slash :: Str.chars (Str.join "/" (s :: q))).
      simpl. lia.
Qed.

(** Under [/data/charts], the parameter [atlas/north.mbtiles] passes and
    [../..] does not. *)
Lemma path_check_subpaths_and_climbing_witness :
  Path.join ["/data/charts"; "atlas/north.mbtiles"] = "/data/charts/atlas/north.mbtiles"
  ∧ Routes.withinBase "/data/charts" (Path.join ["/data/charts"; "atlas/north.mbtiles"])
    = true
  ∧ Routes.withinBase "/data/charts" (Path.join ["/data/charts"; "../.."]) = false.
Proof.
  assert (Hplain : ∀ l, Forall (λ s, bool_decide (Routes.plain s)) l → Forall Routes.plain l).
  { intros l Hl. eapply Forall_impl; [exact Hl|]. intros s Hs.
    by apply bool_decide_unpack in Hs. }
  destruct (path_check_subpaths_and_climbing ["data"; "charts"]) as [Hsub Hclimb].
  - done.
  - apply Hplain. repeat constructor.
  - destruct (Hsub ["atlas"; "north.mbtiles"]) as [Hfull Hok].
    + done.
    + apply Hplain. repeat constructor.
    + split; [exact Hfull|]. split; [exact Hok|]. apply (Hclimb 2%nat). lia.
Defined.

(** The path check is a test on strings, not on directories: it lets a
    path through that leaves the base directory for a sibling whose name
    starts with the name of the base directory. With the base [/…/d], the
    parameter [../de/…] gives the full path [/…/de/…], which passes the
    check although it is neither the base directory nor inside it. *)
Theorem path_check_accepts_sibling_prefix (ds rest : list string) (d e : string) :
  Forall Routes.plain (ds ++ [d]) → Forall Routes.plain rest →
  e ≠ "" → Path.slash ∉ Str.chars e →
  let basePath := "/" +:+ Str.join "/" (ds ++ [d]) in
  let fullPath := Path.join [basePath; Str.join "/" (".." :: (d +:+ e) :: rest)] in
  fullPath = "/" +:+ Str.join "/" (ds ++ (d +:+ e) :: rest)
  ∧ Routes.withinBase basePath fullPath = true
  ∧ fullPath ≠ basePath
  ∧ Str.startsWith fullPath (basePath +:+ "/") = false.
Proof.
  intros Hdirs Hrest He Hslash basePath fullPath.
  assert (Hd : Routes.plain d).
  { apply Forall_app in Hdirs as [_ Hd]. by apply Forall_cons in Hd as [? _]. }
  assert (Hds : Forall Routes.plain ds) by (by apply Forall_app in Hdirs as [? _]).
  assert (Hde : Routes.plain (d +:+ e)).
  { destruct Hd as (Hd1 & Hd2 & Hd3 & Hd4).
    destruct d as [|c d]; [done|]. destruct e as [|c' e]; [done|].
    split; [done|]. split; [by destruct d|]. split.
    - intros Heq. simpl in Heq. injection Heq as -> Heq.
      destruct d as [|c2 d]; simpl in Heq; [by apply Hd2|].
      injection Heq as _ Heq. destruct d; discriminate.
    - rewrite chars_app. intros [?|?]%elem_of_app; done. }
  assert (Hne : ds ++ [d] ≠ []) by (by destruct ds).
  assert (Hbase : Path.normalize basePath = basePath) by (by apply normalize_plain).
  assert (Hfull : fullPath = "/" +:+ Str.join "/" (ds ++ (d +:+ e) :: rest)).
  { unfold fullPath, basePath. rewrite join_rooted; try done.
    - rewrite normalize_rooted.
      + rewrite normalize_segments_plain by (by apply plain_kept).
        rewrite app_nil_r, rev_app_distr.
        change (rev [d] ++ rev ds) with (d :: rev ds).
        rewrite normalize_segments_up by apply Hd.
        rewrite normalize_segments_all_plain by (by constructor).
        rewrite rev_involutive.
        rewrite last_nonempty.
        2:{ apply Forall_app. split.
            - eapply Forall_impl; [exact Hdirs|]. by intros s (? & _).
            - constructor; [done|]. constructor; [apply Hde|].
              eapply Forall_impl; [exact Hrest|]. by intros s (? & _). }
        destruct ds; cbn [app]; by rewrite append_empty_r.
      + by destruct ds.
      + apply Forall_app. split; [by apply plain_slash_free|].
        constructor; [by_computation|]. apply plain_slash_free. by constructor.
    - constructor; [by_computation|]. apply plain_slash_free. by constructor. }
  split; [done|].
  assert (Hshape : fullPath = basePath +:+ e
                              +:+ (match rest with [] => "" | _ => "/" +:+ Str.join "/" rest end)).
  { rewrite Hfull. unfold basePath.
    change (ds ++ (d +:+ e) :: rest) with (ds ++ [d +:+ e] ++ rest).
    rewrite app_assoc. destruct rest as [|r rest].
    - rewrite app_nil_r, join_last_app. by rewrite append_empty_r, append_assoc.
    - rewrite join_app by (by try destruct ds). rewrite join_last_app.
      by rewrite !append_assoc. }
  split; [|split].
  - unfold Routes.withinBase. rewrite Hbase.
    assert (Path.normalize fullPath = fullPath) as ->.
    { rewrite Hfull. apply normalize_plain; [by destruct ds|].
      apply Forall_app. split; [done|]. by constructor. }
    rewrite Hshape. apply startsWith_app.
  - rewrite Hshape. intros Heq. apply (f_equal Str.chars) in Heq.
    rewrite !chars_app in Heq.
    rewrite <- (app_nil_r (Str.chars basePath)) in Heq at 2.
    apply app_inv_head in Heq. apply app_eq_nil in Heq as [Heq _].
    apply He. apply chars_inj. by rewrite Heq.
  - rewrite Hshape. unfold Str.startsWith. rewrite !chars_app.
    rewrite prefix_of_cancel.
    destruct e as [|c e]; [done|].
    change (Str.chars (String c e)) with (c :: Str.chars e).
    change (Str.chars "/") with [Path.slash]. cbn [app Str.prefix_of].
    rewrite decide_False; [done|]. intros <-. apply Hslash. by left.
Qed.

(** With the base directory [/data/charts], the path
    [/data/charts-private/secret.mbtiles] passes the check. *)
Lemma path_check_accepts_sibling_prefix_witness :
  Path.join ["/data/charts"; "../charts-private/secret.mbtiles"]
  = "/data/charts-private/secret.mbtiles"
  ∧ Routes.withinBase "/data/charts"
      (Path.join ["/data/charts"; "../charts-private/secret.mbtiles"]) = true
  ∧ Str.startsWith (Path.join ["/data/charts"; "../charts-private/secret.mbtiles"])
      "/data/charts/" = false.
Proof.
  assert (Hplain : ∀ l, Forall (λ s, bool_decide (Routes.plain s)) l → Forall Routes.plain l).
  { intros l Hl. eapply Forall_impl; [exact Hl|]. intros s Hs.
    by apply bool_decide_unpack in Hs. }
  destruct (path_check_accepts_sibling_prefix ["data"] ["secret.mbtiles"]
              "charts" "-private")
    as (Hfull & Hok & _ & Hout).
  - apply Hplain. repeat constructor.
  - apply Hplain. repeat constructor.
  - done.
  - by_computation.
  - split; [exact Hfull|]. split; [exact Hok|exact Hout].
Defined.

Section RenameFacts.
Import Str Routes.

Lemma prefix_of_split p l : prefix_of p l = true → ∃ rest, l = p ++ rest.
Proof.
  revert l. induction p as [|a p IH]; intros l; [by exists l|].
  destruct l as [|b l]; simpl; [done|]. case_decide; [|done]. subst b.
  intros [rest ->]%IH. by exists rest.
Qed.

Lemma endsWith_split (s p : string) :
  endsWith s p = true →
  chars s = take (length (chars s) - length (chars p)) (chars s) ++ chars p.
Proof.
  unfold endsWith. intros [rest Hrest]%prefix_of_split.
  apply (f_equal (@rev _)) in Hrest.
  rewrite rev_involutive, rev_app_distr, rev_involutive in Hrest.
  rewrite Hrest. rewrite length_app, Nat.add_sub. by rewrite take_app_length.
Qed.

Lemma infix_of_singleton c l : infix_of [c] l = false → c ∉ l.
Proof.
  induction l as [|b l IH]; simpl; [intros _; apply not_elem_of_nil|].
  case_decide; [done|]. simpl. intros Hl [?|?]%elem_of_cons; [done|]. by apply IH.
Qed.

Lemma normalize_segments_dot allow acc rest :
  Path.normalize_segments allow acc ("." :: rest)
  = Path.normalize_segments allow acc rest.
Proof. reflexivity. Qed.

Lemma before_segment_scan (seg l : list ascii) b :
  Forall (λ c, c ≠ Path.slash) seg → seg ≠ [] →
  before_segment (seg ++ Path.slash :: l) b = Some l.
Proof.
  intros Hseg Hne. revert b.
  induction Hseg as [|c seg Hc Hseg IH]; intros b; [done|].
  cbn [app before_segment]. rewrite decide_False by done.
  destruct seg as [|c' seg]; [|by apply IH].
  cbn [app before_segment]. by rewrite decide_True.
Qed.

Lemma before_segment_none (seg : list ascii) b :
  Forall (λ c, c ≠ Path.slash) seg → before_segment seg b = None.
Proof.
  intros Hseg. revert b. induction Hseg as [|c seg Hc Hseg IH]; intros b; [done|].
  cbn [before_segment]. by rewrite decide_False.
Qed.

Lemma slash_free_chars (s : string) :
  Path.slash ∉ chars s → Forall (λ c, c ≠ Path.slash) (chars s).
Proof. intros Hs. apply Forall_forall. by intros c Hc ->. Qed.

(** The directory of a relative path of plain segments. *)
Lemma dirname_plain (ps : list string) (file : string) :
  Forall plain (ps ++ [file]) →
  dirname (join "/" (ps ++ [file]))
  = match ps with [] => "." | _ => join "/" ps end.
Proof.
  intros Hall.
  assert (Hfile : plain file).
  { apply Forall_app in Hall as [_ Hf]. by apply Forall_cons in Hf as [? _]. }
  assert (Hps : Forall plain ps) by (by apply Forall_app in Hall as [? _]).
  destruct Hfile as (Hf1 & _ & _ & Hf4).
  destruct ps as [|p ps].
  - cbn [app join]. unfold dirname.
    destruct (chars file) as [|c0 rest] eqn:Hchars.
    { exfalso. apply Hf1. apply chars_inj. by rewrite Hchars. }
    assert (Hfree : Forall (λ c, c ≠ Path.slash) (c0 :: rest)).
    { apply Forall_forall. intros c Hc ->. by apply Hf4. }
    apply Forall_cons in Hfree as [Hc0 Hrest].
    rewrite before_segment_none by (by apply Forall_rev).
    by rewrite bool_decide_eq_false_2.
  - rewrite join_app by done. change (join "/" [file]) with file.
    assert (Hdir : join "/" (p :: ps) ≠ "").
    { apply join_nonempty; [done|]. eapply Forall_impl; [exact Hps|]. by intros s (? & _). }
    assert (Hfirst : ∃ rest0, chars (join "/" (p :: ps)) = rest0
                              ∧ ∀ c0 rest, rest0 = c0 :: rest → c0 ≠ Path.slash).
    { eexists. split; [done|]. intros c0 rest Hchars.
      apply Forall_cons in Hps as [(Hp1 & _ & _ & Hp4) _].
      destruct p as [|c p]; [done|].
      assert (c0 = c) as ->.
      { destruct ps; simpl in Hchars; by injection Hchars as <-. }
      intros ->. apply Hp4. by left. }
    destruct Hfirst as (rest0 & Hchars & Hc0).
    set (dir := join "/" (p :: ps)) in *.
    unfold dirname. rewrite !chars_app, Hchars.
    destruct rest0 as [|c0 rest].
    { exfalso. apply Hdir. apply chars_inj. by rewrite Hchars. }
    specialize (Hc0 c0 rest eq_refl).
    cbn [app]. change (chars "/") with [Path.slash].
    rewrite rev_app_distr, rev_app_distr. cbn [rev app].
    rewrite <- app_assoc. cbn [app].
    assert (Hfile : rev (chars file) ≠ []).
    { intros Hnil. apply Hf1. apply chars_inj.
      apply (f_equal (@rev _)) in Hnil. by rewrite rev_involutive in Hnil. }
    rewrite before_segment_scan;
      [|apply Forall_rev; by apply slash_free_chars|done].
    rewrite bool_decide_eq_false_2 by done. cbn [andb].
    rewrite rev_involutive, <- Hchars. apply of_chars_chars.
Qed.

(** [path.join] of an absolute directory and two relative paths, by
    segments. *)
Lemma join_rooted3 (dirs ps : list string) (name : string) :
  dirs ≠ [] → Forall plain dirs →
  ps ≠ [] → Forall (λ s, Path.slash ∉ chars s) ps → join "/" ps ≠ "" →
  name ≠ "" →
  Path.join ["/" +:+ join "/" dirs; join "/" ps; name]
  = Path.normalize ("/" +:+ join "/" (dirs ++ ps ++ [name])).
Proof.
  intros Hd Hdirs Hp Hps Hparam Hname. unfold Path.join.
  rewrite !filter_cons_True by done. rewrite filter_nil.
  cbn [join]. rewrite !join_app by (by try destruct ps).
  cbn [join]. by rewrite !append_assoc.
Qed.

End RenameFacts.

(** The renaming of a chart keeps it in its folder. Whenever the handler of
    [rename-chart] goes as far as renaming, the new name is a single plain
    path segment that ends in [.mbtiles]: it has no slash and no backslash
    and is none of [.] and [..]. For a base directory and a chart path made
    of plain segments, the file is renamed from its place under the base
    directory to the new name in the same directory, the source exists and
    the target does not. *)
Theorem rename_keeps_folder (exists_ : string → bool) (basePath chartPath newName : string)
    (source target : string) (dirs ps : list string) (file : string) :
  Routes.renameChart exists_ basePath chartPath newName = inr (source, target) →
  (Routes.plain newName ∧ Str.endsWith newName ".mbtiles" = true
   ∧ "\"%char ∉ Str.chars (Routes.withoutExtension newName))
  ∧ (dirs ≠ [] → Forall Routes.plain dirs → Forall Routes.plain (ps ++ [file]) →
     basePath = "/" +:+ Str.join "/" dirs →
     chartPath = Str.join "/" (ps ++ [file]) →
     source = "/" +:+ Str.join "/" (dirs ++ ps ++ [file])
     ∧ target = "/" +:+ Str.join "/" (dirs ++ ps ++ [newName])
     ∧ exists_ source = true ∧ exists_ target = false).
Proof.
  unfold Routes.renameChart. intros Hrename.
  destruct (_ || _) eqn:Hgiven in Hrename; [done|].
  destruct (negb (Str.endsWith newName ".mbtiles")) eqn:Hext in Hrename; [done|].
  apply negb_false_iff in Hext.
  destruct (_ || _) eqn:Hbad in Hrename; [done|].
  apply orb_false_iff in Hbad as [Hbad Hback].
  apply orb_false_iff in Hbad as [Hdots Hslash].
  destruct (_ || _) eqn:Hwithin in Hrename; [done|].
  destruct (negb (exists_ _)) eqn:Hsrc in Hrename; [done|].
  apply negb_false_iff in Hsrc.
  destruct (exists_ (Path.join [basePath; Routes.dirname chartPath; newName]))
    eqn:Hdst in Hrename; [done|].
  injection Hrename as <- <-.
  assert (Hchars : Str.chars newName
                   = Str.chars (Routes.withoutExtension newName) ++ Str.chars ".mbtiles").
  { unfold Routes.withoutExtension. rewrite Hext, chars_of_chars.
    by apply endsWith_split in Hext. }
  assert (Hplain : Routes.plain newName).
  { split; [by intros ->|]. split; [by intros ->|]. split; [by intros ->|].
    rewrite Hchars. intros [Hin|Hin]%elem_of_app.
    - by apply infix_of_singleton in Hslash.
    - revert Hin. by_computation. }
  split.
  { split; [done|]. split; [done|]. by apply infix_of_singleton in Hback. }
  intros Hne Hdirs Hpath -> ->.
  assert (Hfile : Routes.plain file).
  { apply Forall_app in Hpath as [_ Hf]. by apply Forall_cons in Hf as [? _]. }
  assert (Hps : Forall Routes.plain ps) by (by apply Forall_app in Hpath as [? _]).
  assert (Hsource : Path.join ["/" +:+ Str.join "/" dirs; Str.join "/" (ps ++ [file])]
                    = "/" +:+ Str.join "/" (dirs ++ ps ++ [file])).
  { rewrite join_rooted; try done.
    - apply normalize_plain; [by destruct dirs|by apply Forall_app].
    - by destruct ps.
    - by apply plain_slash_free.
    - apply join_nonempty; [by destruct ps|].
      eapply Forall_impl; [exact Hpath|]. by intros s (? & _). }
  assert (Htarget : Path.join ["/" +:+ Str.join "/" dirs;
                               Routes.dirname (Str.join "/" (ps ++ [file])); newName]
                    = "/" +:+ Str.join "/" (dirs ++ ps ++ [newName])).
  { rewrite dirname_plain by done. destruct ps as [|p ps].
    - change "." with (Str.join "/" ["."]).
      rewrite join_rooted3; try done;
        [|constructor; [by_computation|constructor]|apply Hplain].
      rewrite normalize_rooted.
      + rewrite normalize_segments_plain by (by apply plain_kept).
        cbn [app]. rewrite normalize_segments_dot.
        rewrite normalize_segments_all_plain by (constructor; [exact Hplain|constructor]).
        rewrite app_nil_r, rev_involutive.
        rewrite last_nonempty.
        2:{ apply Forall_app. split.
            - eapply Forall_impl; [exact Hdirs|]. by intros s (? & _).
            - constructor; [done|]. constructor; [apply Hplain|constructor]. }
        destruct dirs; [done|]. cbn [app]. by rewrite append_empty_r.
      + by destruct dirs.
      + apply Forall_app. split; [by apply plain_slash_free|].
        constructor; [by_computation|]. constructor; [apply Hplain|constructor].
    - rewrite join_rooted3; try done.
      + apply normalize_plain; [by destruct dirs|].
        apply Forall_app. split; [done|]. apply Forall_app. split; [done|].
        constructor; [exact Hplain|constructor].
      + by apply plain_slash_free.
      + apply join_nonempty; [done|].
        eapply Forall_impl; [exact Hps|]. by intros s (? & _).
      + apply Hplain. }
  rewrite Hsource in *. rewrite Htarget in *. done.
Qed.

(** [atlas/north.mbtiles] is renamed to [polar.mbtiles]. *)
Lemma rename_keeps_folder_witness :
  let exists_ := λ p, bool_decide (p = "/data/charts/atlas/north.mbtiles") in
  Routes.renameChart exists_ "/data/charts" "atlas/north.mbtiles" "polar.mbtiles"
  = inr ("/data/charts/atlas/north.mbtiles", "/data/charts/atlas/polar.mbtiles")
  ∧ Routes.plain "polar.mbtiles".
Proof.
  intros exists_.
  assert (Hplain : ∀ l, Forall (λ s, bool_decide (Routes.plain s)) l → Forall Routes.plain l).
  { intros l Hl. eapply Forall_impl; [exact Hl|]. intros s Hs.
    by apply bool_decide_unpack in Hs. }
  assert (Hrun : Routes.renameChart exists_ "/data/charts" "atlas/north.mbtiles"
                   "polar.mbtiles"
                 = inr ("/data/charts/atlas/north.mbtiles",
                        "/data/charts/atlas/polar.mbtiles"))
    by (vm_compute; reflexivity).
  destruct (rename_keeps_folder exists_ "/data/charts" "atlas/north.mbtiles"
              "polar.mbtiles" _ _ ["data"; "charts"] ["atlas"] "north.mbtiles" Hrun)
    as [(Hname & _) Hfolder].
  destruct Hfolder as (Hsource & _);
    [done|apply Hplain; repeat constructor|apply Hplain; repeat constructor
    |reflexivity|reflexivity|].
  split; [exact Hrun|exact Hname].
Defined.

Section FolderFacts.
Import Str Routes.

Lemma startsWith_refl (s : string) : startsWith s s = true.
Proof.
  unfold startsWith. rewrite <- (app_nil_r (chars s)) at 2. apply prefix_of_app.
Qed.

Lemma append_slash_ne (s : string) : s +:+ "/" ≠ s.
Proof.
  intros Heq. apply (f_equal (λ x, length (chars x))) in Heq.
  rewrite chars_app, length_app in Heq. simpl in Heq. lia.
Qed.

(** A parameter whose segments are empty or [.] and that ends in a slash
    leads to the base directory with a slash behind it. *)
Lemma join_trailing (dirs : list string) (seg : string) :
  dirs ≠ [] → Forall plain dirs → seg = "" ∨ seg = "." →
  Path.join ["/" +:+ join "/" dirs; seg +:+ "/"]
  = ("/" +:+ join "/" dirs) +:+ "/"
  ∧ Path.normalize (("/" +:+ join "/" dirs) +:+ "/") = ("/" +:+ join "/" dirs) +:+ "/".
Proof.
  intros Hne Hdirs Hseg.
  assert (Hfree : Forall (λ s, Path.slash ∉ chars s) (dirs ++ [seg; ""])).
  { apply Forall_app. split; [by apply plain_slash_free|].
    destruct Hseg as [-> | ->]; repeat constructor; by_computation. }
  assert (Hnorm : Path.normalize ("/" +:+ join "/" (dirs ++ [seg; ""]))
                  = ("/" +:+ join "/" dirs) +:+ "/").
  { rewrite normalize_rooted by (by try destruct dirs).
    rewrite normalize_segments_plain by (by apply plain_kept).
    assert (Path.normalize_segments false (rev dirs ++ []) [seg; ""] = dirs) as ->.
    { destruct Hseg as [-> | ->]; cbn; by rewrite app_nil_r, rev_involutive. }
    rewrite bool_decide_eq_true_2.
    2:{ change (dirs ++ [seg; ""]) with (dirs ++ [seg] ++ [""]).
        by rewrite app_assoc, last_snoc. }
    destruct dirs; [done|]. by rewrite append_assoc. }
  split.
  - change (seg +:+ "/") with (join "/" [seg; ""]).
    rewrite join_rooted; [exact Hnorm|done|done|done| |].
    + by apply Forall_app in Hfree as [_ ?].
    + destruct Hseg as [-> | ->]; cbn; discriminate.
  - rewrite <- Hnorm at 2. rewrite <- normalize_rooted_idem by (by try destruct dirs).
    by rewrite Hnorm.
Qed.

End FolderFacts.

(** The root chart directory is guarded by a comparison of strings. The
    handler that deletes a folder refuses a parameter that leads to the base
    directory itself, such as the empty one and [.]. A parameter that leads
    there with a slash at its end, such as [/] and [./], passes both checks:
    when the base directory exists and is empty, the handler removes it. *)
Theorem deleteFolder_root_guard (d : Routes.disk) (dirs : list string) :
  dirs ≠ [] → Forall Routes.plain dirs →
  let basePath := "/" +:+ Str.join "/" dirs in
  (∀ param, Path.join [basePath; param] = basePath →
            Routes.deleteFolder d basePath param
            = (Routes.Send 403 "Cannot delete the root chart directory", None))
  ∧ Path.join [basePath; ""] = basePath
  ∧ Path.join [basePath; "."] = basePath
  ∧ (∀ param, param = "/" ∨ param = "./" →
       Path.join [basePath; param] = basePath +:+ "/"
       ∧ (Routes.existsSync d (basePath +:+ "/") = true →
          Routes.readdir d (basePath +:+ "/") = Some [] →
          Routes.deleteFolder d basePath param
          = (if Routes.rmdir d (basePath +:+ "/")
             then Routes.SendSuccess 200 "Folder deleted successfully"
             else Routes.Send 500 "Error deleting folder",
             Some (basePath +:+ "/")))).
Proof.
  intros Hne Hdirs basePath.
  assert (Hbase : Path.normalize basePath = basePath) by (by apply normalize_plain).
  split; [|split; [|split]].
  - intros param Hjoin. unfold Routes.deleteFolder.
    rewrite Hjoin, Hbase, startsWith_refl. cbn [negb].
    by rewrite decide_True.
  - unfold Path.join. rewrite filter_cons_True by done.
    rewrite filter_cons_False by (by intros ?). by rewrite filter_nil.
  - change "." with (Str.join "/" ["."]). unfold basePath.
    rewrite join_rooted; try done; [|repeat constructor; by_computation].
    rewrite normalize_rooted.
    + rewrite normalize_segments_plain by (by apply plain_kept).
      rewrite normalize_segments_dot. cbn [Path.normalize_segments].
      rewrite app_nil_r, rev_involutive.
      rewrite last_nonempty.
      2:{ apply Forall_app. split; [|by repeat constructor].
          eapply Forall_impl; [exact Hdirs|]. by intros s (? & _). }
      destruct dirs; [done|]. by rewrite append_empty_r.
    + by destruct dirs.
    + apply Forall_app. split; [by apply plain_slash_free|].
      repeat constructor. by_computation.
  - intros param Hparam.
    assert (∃ seg, (seg = "" ∨ seg = ".") ∧ param = seg +:+ "/") as (seg & Hseg & ->).
    { destruct Hparam as [-> | ->]; [exists ""|exists "."]; split; auto. }
    destruct (join_trailing dirs seg Hne Hdirs Hseg) as [Hjoin Hnorm].
    fold basePath in Hjoin, Hnorm. split; [done|].
    intros Hexists Hempty. unfold Routes.deleteFolder.
    rewrite Hjoin, Hnorm, Hbase, startsWith_app. cbn [negb].
    rewrite decide_False by apply append_slash_ne.
    rewrite Hexists, Hempty. cbn [negb length Nat.ltb Nat.leb].
    by destruct (Routes.rmdir d _).
Qed.

(** The request [DELETE .../folders/%2F] removes an empty chart directory
    [/data/charts]; the parameter [.] is refused. *)
Lemma deleteFolder_root_guard_witness :
  let d := {| Routes.existsSync := λ _, true;
              Routes.readdir := λ _, Some [];
              Routes.rmdir := λ _, true |} in
  Routes.deleteFolder d "/data/charts" "."
  = (Routes.Send 403 "Cannot delete the root chart directory", None)
  ∧ Routes.deleteFolder d "/data/charts" "/"
    = (Routes.SendSuccess 200 "Folder deleted successfully", Some "/data/charts/").
Proof.
  intros d.
  assert (Hplain : ∀ l, Forall (λ s, bool_decide (Routes.plain s)) l → Forall Routes.plain l).
  { intros l Hl. eapply Forall_impl; [exact Hl|]. intros s Hs.
    by apply bool_decide_unpack in Hs. }
  destruct (deleteFolder_root_guard d ["data"; "charts"]) as (Hroot & _ & Hdot & Hslash).
  - done.
  - apply Hplain. repeat constructor.
  - split; [by apply Hroot|].
    destruct (Hslash "/") as [_ Hrun]; [by left|]. by apply Hrun.
Defined.

(** * The plugin and its handlers *)

(** ** The switches of the charts *)

Section SwitchFacts.
Import Js ChartState.

Lemma assoc_replace_own props k v :
  is_Some (assoc props k) → assoc (replace_own props k v) k = Some v.
Proof.
  induction props as [|[k0 v0] props IH]; simpl; [by intros [? ?]|].
  destruct (decide (k0 = k)) as [->|Hne]; simpl.
  - by rewrite decide_True.
  - intros Hs. rewrite decide_False by done. by apply IH.
Qed.

Lemma assoc_replace_own_ne props k k' v :
  k' ≠ k → assoc (replace_own props k v) k' = assoc props k'.
Proof.
  intros Hne. induction props as [|[k0 v0] props IH]; simpl; [done|].
  destruct (decide (k0 = k)) as [->|Hk]; simpl.
  - by rewrite !decide_False by done.
  - destruct (decide (k0 = k')); [done|apply IH].
Qed.

Lemma assoc_snoc props k k' v :
  assoc (props ++ [(k, v)]) k'
  = match assoc props k' with
    | Some v' => Some v'
    | None => if decide (k = k') then Some v else None
    end.
Proof.
  induction props as [|[k0 v0] props IH]; simpl; [done|].
  destruct (decide (k0 = k')); [done|apply IH].
Qed.

(** What is read right after [setChartEnabled]. *)
Lemma lookup_set st k enabled :
  lookup (setChartEnabled st k enabled) k = Value (VObj [("enabled", enabled)]).
Proof.
  unfold setChartEnabled, assign, lookup.
  destruct (assoc (own st) k) as [v|] eqn:Hown; cbn [own proto].
  - by rewrite assoc_replace_own by (by rewrite Hown).
  - destruct (decide (k = "__proto__")) as [->|Hne]; cbn [own proto].
    + rewrite Hown. reflexivity.
    + rewrite assoc_snoc, Hown. by rewrite decide_True.
Qed.

(** What is read under another name. *)
Lemma lookup_set_ne st k k' enabled :
  k' ≠ k → (k = "__proto__" → is_Some (assoc (own st) "__proto__")) →
  lookup (setChartEnabled st k enabled) k' = lookup st k'.
Proof.
  intros Hne Hproto. unfold setChartEnabled, assign, lookup.
  destruct (assoc (own st) k) as [v|] eqn:Hown; cbn [own proto].
  - by rewrite assoc_replace_own_ne by done.
  - destruct (decide (k = "__proto__")) as [->|Hk]; cbn [own proto].
    + destruct (Hproto eq_refl) as [v Hv]. congruence.
    + rewrite assoc_snoc. destruct (assoc (own st) k'); [done|].
      by rewrite decide_False by done.
Qed.

Lemma isChartEnabled_set st k enabled :
  isChartEnabled (setChartEnabled st k enabled) k = enabled.
Proof. unfold isChartEnabled. by rewrite lookup_set. Qed.

Lemma isChartEnabled_set_ne st k k' enabled :
  k' ≠ k → (k = "__proto__" → is_Some (assoc (own st) "__proto__")) →
  isChartEnabled (setChartEnabled st k enabled) k' = isChartEnabled st k'.
Proof. intros Hne Hproto. unfold isChartEnabled. by rewrite lookup_set_ne. Qed.

End SwitchFacts.

(** [setChartEnabled] and [isChartEnabled]: a switch that was set is read
    back as it was set, under every name; setting it leaves the switches
    of all other names as they were, unless the name is [__proto__] and the
    state has no own property of that name; in the state [{}] every chart
    is enabled except under the twelve names that objects inherit, where
    the answer is [undefined]. Setting the switch [__proto__] in a state
    without own properties [__proto__] and [enabled] changes the switch of
    the name [enabled] from [true] to [undefined]. *)
Theorem chart_switch_set_and_read (st : ChartState.state) (k : string)
    (enabled : Js.value) :
  ChartState.isChartEnabled (ChartState.setChartEnabled st k enabled) k = enabled
  ∧ (∀ k', k' ≠ k →
           (k = "__proto__" → is_Some (Js.assoc (ChartState.own st) "__proto__")) →
           ChartState.isChartEnabled (ChartState.setChartEnabled st k enabled) k'
           = ChartState.isChartEnabled st k')
  ∧ ChartState.isChartEnabled ChartState.empty k
    = (if bool_decide (k ∈ ChartState.inherited_names)
       then Js.VUndefined else Js.VBool true)
  ∧ (ChartState.proto st = None →
     Js.assoc (ChartState.own st) "__proto__" = None →
     Js.assoc (ChartState.own st) "enabled" = None →
     ChartState.isChartEnabled st "enabled" = Js.VBool true
     ∧ ChartState.isChartEnabled
         (ChartState.setChartEnabled st "__proto__" (Js.VBool true)) "enabled"
       = Js.VUndefined).
Proof.
  split; [apply isChartEnabled_set|]. split; [intros k'; apply isChartEnabled_set_ne|].
  split.
  - unfold ChartState.isChartEnabled, ChartState.lookup. cbn.
    destruct (decide (k = "__proto__")) as [->|Hne]; [done|].
    by destruct (bool_decide (k ∈ ChartState.inherited_names)).
  - intros Hp Hown He.
    unfold ChartState.isChartEnabled, ChartState.setChartEnabled, ChartState.assign,
      ChartState.lookup.
    rewrite Hown. destruct (decide ("__proto__" = "__proto__")) as [_|Hne]; [|done].
    cbn [ChartState.own ChartState.proto]. rewrite He, Hp. split; reflexivity.
Qed.

(** The switches [a.mbtiles] and [__proto__] set in [{}]. *)
Lemma chart_switch_set_and_read_witness :
  let st := ChartState.setChartEnabled ChartState.empty "a.mbtiles" (Js.VBool false) in
  ChartState.isChartEnabled st "a.mbtiles" = Js.VBool false
  ∧ ChartState.isChartEnabled st "b.mbtiles" = Js.VBool true
  ∧ ChartState.isChartEnabled ChartState.empty "toString" = Js.VUndefined
  ∧ ChartState.isChartEnabled
      (ChartState.setChartEnabled ChartState.empty "__proto__" (Js.VBool true)) "enabled"
    = Js.VUndefined.
Proof.
  intros st.
  destruct (chart_switch_set_and_read ChartState.empty "a.mbtiles" (Js.VBool false))
    as (Hset & Hother & _ & _).
  destruct (chart_switch_set_and_read ChartState.empty "toString" Js.VUndefined)
    as (_ & _ & Hinit & Hproto).
  split; [exact Hset|]. split.
  - unfold st. rewrite (Hother "b.mbtiles"); [reflexivity|discriminate|discriminate].
  - split; [exact Hinit|]. by apply Hproto.
Defined.

(** ** The name of a chart's switch *)

Section RelativeFacts.
Import Str Routes.

(** An absolute, normalized path resolves to itself. *)
Lemma resolve_rooted cwd (dirs : list string) :
  dirs ≠ [] → Forall plain dirs →
  Path.resolve cwd ["/" +:+ join "/" dirs] = "/" +:+ join "/" dirs.
Proof.
  intros Hd Hdirs.
  unfold Path.resolve. simpl rev. simpl Path.resolve_from_right.
  assert (Habs : Path.isAbsolute (("/" +:+ join "/" dirs) +:+ "/" +:+ "") = true)
    by reflexivity.
  rewrite Habs. cbn [negb].
  assert (Hsplit : split Path.slash (("/" +:+ join "/" dirs) +:+ "/" +:+ "")
                   = "" :: dirs ++ [""]).
  { change (("/" +:+ join "/" dirs) +:+ "/" +:+ "")
      with (("" +:+ String Path.slash (join (String Path.slash "") dirs))
              +:+ String Path.slash "").
    rewrite !split_app, !split_join by (try done; by apply plain_slash_free).
    done. }
  unfold Path.normalizeString. rewrite Hsplit. simpl.
  rewrite normalize_segments_plain by (by apply plain_kept).
  simpl. by rewrite app_nil_r, rev_involutive.
Qed.

Lemma segments_rooted (dirs : list string) :
  dirs ≠ [] → Forall plain dirs → Path.segments ("/" +:+ join "/" dirs) = dirs.
Proof.
  intros Hd Hdirs. unfold Path.segments.
  rewrite split_rooted by (try done; by apply plain_slash_free).
  rewrite filter_cons, decide_False by (by intros H).
  clear Hd. induction Hdirs as [|seg l (Hseg & _) _ IH]; [done|].
  by rewrite filter_cons, decide_True, IH.
Qed.

Lemma strip_common_app (l r : list string) : Path.strip_common l (l ++ r) = ([], r).
Proof.
  induction l as [|a l IH]; simpl; [by destruct r|]. by rewrite decide_True.
Qed.

(** From a directory to a path below it. *)
Lemma relative_plain cwd (dirs rel : list string) :
  dirs ≠ [] → Forall plain dirs → Forall plain rel →
  Path.relative cwd ("/" +:+ join "/" dirs) ("/" +:+ join "/" (dirs ++ rel))
  = join "/" rel.
Proof.
  intros Hd Hdirs Hrel. unfold Path.relative.
  rewrite !resolve_rooted, !segments_rooted
    by (try apply Forall_app; try done; by destruct dirs).
  by rewrite strip_common_app.
Qed.

End RelativeFacts.

Section LocatedFacts.
Import Str Routes.

Lemma join_plain_not_dot (ps : list string) :
  ps ≠ [] → Forall plain ps → Str.truthy (join "/" ps) = true ∧ join "/" ps ≠ ".".
Proof.
  intros Hne Hps. destruct Hps as [|p ps (Hp & Hdot & _) Hps]; [done|].
  destruct p as [|c p]; [done|]. split; [by destruct ps|].
  destruct ps as [|p' ps]; [exact Hdot|].
  cbn [join]. intros Heq. injection Heq as -> Heq. by destruct p.
Qed.

End LocatedFacts.

(** The loader and the scanner name a file alike. For a chart directory
    [/d1/../dn] and a file [name] in its subfolder [p1/../pk] (all of them
    names that normalization keeps), the loader gives the chart the path
    [/d1/../dn/p1/../pk/name], and the name under which the providers are
    filtered, [path.relative] of the chart directory and that path, is
    [p1/../pk/name]: the [relativePath] that the scanner reports for the
    file, whose [folder] is [p1/../pk], or [/] for a file of the chart
    directory itself. *)
Theorem switch_name_is_relative_path (cwd : string) (dirs ps : list string)
    (name : string) :
  dirs ≠ [] → Forall Routes.plain dirs → Forall Routes.plain ps → Routes.plain name →
  let basePath := "/" +:+ Str.join "/" dirs in
  let currentDir := "/" +:+ Str.join "/" (dirs ++ ps) in
  let fullPath := "/" +:+ Str.join "/" (dirs ++ ps ++ [name]) in
  let relativePath := Str.join "/" (ps ++ [name]) in
  Path.resolve cwd [currentDir; name] = fullPath
  ∧ Path.relative cwd basePath (Path.resolve cwd [currentDir; name]) = relativePath
  ∧ Scanner.located cwd basePath currentDir name
    = (fullPath, relativePath, match ps with [] => "/" | _ => Str.join "/" ps end).
Proof.
  intros Hd Hdirs Hps Hname basePath currentDir fullPath relativePath.
  assert (Hall : Forall Routes.plain (dirs ++ ps)) by (by apply Forall_app).
  assert (Hne : dirs ++ ps ≠ []) by (by destruct dirs).
  assert (Hfile : Forall Routes.plain (ps ++ [name])).
  { apply Forall_app. split; [done|]. by constructor. }
  assert (Hresolve : Path.resolve cwd [currentDir; name] = fullPath).
  { unfold currentDir, fullPath.
    change name with (Str.join "/" [name]) at 1.
    rewrite resolve_plain; [|done|done|exact Hall|by constructor].
    rewrite (app_assoc dirs ps [name]), (join_app "/" (dirs ++ ps) [name]) by done.
    by rewrite append_assoc. }
  assert (Hrel : Path.relative cwd basePath fullPath = relativePath).
  { unfold basePath, fullPath. by rewrite relative_plain. }
  split; [exact Hresolve|]. split; [by rewrite Hresolve|].
  unfold Scanner.located.
  assert (Hjoin : Path.join [currentDir; name] = fullPath).
  { unfold currentDir, fullPath.
    change name with (Str.join "/" [name]) at 1.
    rewrite join_rooted; [| done | exact Hall | done | | ].
    - rewrite <- (app_assoc dirs ps [name]). apply normalize_plain.
      + by destruct dirs.
      + apply Forall_app. split; [done|exact Hfile].
    - constructor; [apply Hname|constructor].
    - apply Hname. }
  rewrite Hjoin, Hrel. unfold relativePath. rewrite dirname_plain by done.
  destruct ps as [|p ps]; [done|].
  destruct (join_plain_not_dot (p :: ps)) as [Ht Hdot]; [done|done|].
  rewrite Ht. by rewrite decide_False.
Qed.

(** The file [sub/a.mbtiles] of the chart directory [/data/charts]. *)
Lemma switch_name_is_relative_path_witness :
  Path.resolve "/srv" ["/data/charts/sub"; "a.mbtiles"] = "/data/charts/sub/a.mbtiles"
  ∧ Path.relative "/srv" "/data/charts" "/data/charts/sub/a.mbtiles" = "sub/a.mbtiles"
  ∧ Scanner.located "/srv" "/data/charts" "/data/charts/sub" "a.mbtiles"
    = ("/data/charts/sub/a.mbtiles", "sub/a.mbtiles", "sub").
Proof.
  destruct (switch_name_is_relative_path "/srv" ["data"; "charts"] ["sub"] "a.mbtiles")
    as (Hresolve & Hrel & Hlocated).
  - discriminate.
  - repeat constructor; try discriminate; by_computation.
  - repeat constructor; try discriminate; by_computation.
  - repeat split; try discriminate; by_computation.
  - split; [exact Hresolve|]. split; [|exact Hlocated].
    rewrite Hresolve in Hrel. exact Hrel.
Defined.

(** ** Where the charts of the registry lie *)

Section WalkFacts.
Import Js Loader Routes Plugin.

Lemma openMbtilesFile_identifier file fname opened c :
  openMbtilesFile file fname opened = Some c →
  identifier c = stripMbtiles fname ∧ _filePath c = file ∧ _fileFormat c = "mbtiles".
Proof.
  unfold openMbtilesFile. destruct opened as [md|]; simpl; [|done].
  destruct (Lodash.isEmpty md || is_undefined (prop md "bounds")); [done|].
  destruct (if truthy _ then _ else _); simpl; [|done].
  by intros [= <-].
Qed.

Lemma ordinary_name_plain name :
  Plugin.ordinary_name name = true → plain name ∧ stripMbtiles name ≠ "__proto__".
Proof.
  unfold Plugin.ordinary_name. intros [Hp Hs]%andb_true_iff.
  apply bool_decide_eq_true in Hp. apply negb_true_iff, bool_decide_eq_false in Hs.
  done.
Qed.

Lemma placed_deeper dirs ps fname c :
  plain fname → Scanner.skipped fname = false → isMbtilesName fname = false →
  placed dirs (ps ++ [fname]) c → placed dirs ps c.
Proof.
  intros Hf Hs Hm (qs & name & Hqs & Hname & Hkept & Hpath & Hid & Hkind).
  exists (fname :: qs), name. split; [by constructor|]. split; [done|].
  split; [by constructor|]. split; [|done].
  rewrite Hpath. by rewrite <- !app_assoc.
Qed.

Ltac destruct_others H rest others Hrest :=
  match type of H with
  | context [?each rest] => destruct (each rest) as [others|] eqn:Hrest
  end.

Lemma findChartsRecursive_placed cwd (dirs : list string) n :
  dirs ≠ [] → Forall plain dirs →
  ∀ ps results c,
    Forall plain ps → Plugin.ordinary n = true →
    findChartsRecursive cwd ("/" +:+ Str.join "/" (dirs ++ ps)) n = Some results →
    Some c ∈ results → placed dirs ps c.
Proof.
  intros Hd Hdirs.
  induction n as [d|entries IH|] using node_induction;
    intros ps results c Hps Hord; simpl; [done| |done].
  simpl in Hord.
  revert results. induction IH as [|[fname child] rest Hchild _ IHrest];
    intros results Hres Hin.
  - simplify_eq. by apply elem_of_nil in Hin.
  - apply andb_true_iff in Hord as [Hord Hrest_ord].
    apply andb_true_iff in Hord as [Hname Hchild_ord].
    apply ordinary_name_plain in Hname as [Hplain Hproto].
    specialize (IHrest Hrest_ord).
    assert (Hpath : Path.resolve cwd ["/" +:+ Str.join "/" (dirs ++ ps); fname]
                    = "/" +:+ Str.join "/" (dirs ++ ps ++ [fname])).
    { change fname with (Str.join "/" [fname]) at 1.
      rewrite resolve_plain;
        [|by destruct dirs|done|by apply Forall_app|by constructor].
      rewrite (app_assoc dirs ps [fname]), (join_app "/" (dirs ++ ps) [fname])
        by (try done; by destruct dirs).
      by rewrite append_assoc. }
    simpl in Hchild. rewrite Hpath in Hres.
    destruct (isMbtilesName fname) eqn:Hmb.
    + simpl in Hres.
      destruct_others Hres rest others Hrest; simpl in Hres; [|done].
      injection Hres as <-. apply elem_of_cons in Hin as [Hin|Hin]; [|by eapply IHrest].
      symmetry in Hin. apply openMbtilesFile_identifier in Hin as (Hid & Hfile & Hff).
      exists [], fname. split; [done|]. split; [done|]. split; [done|].
      split; [by rewrite Hfile|]. split; [by rewrite Hid|]. left. done.
    + destruct (isDirectory child) eqn:Hdir.
      * destruct (Str.startsWith fname "." || bool_decide (fname = "node_modules"))
          eqn:Hskip.
        -- simpl in Hres.
           destruct_others Hres rest others Hrest; simpl in Hres; [|done].
           injection Hres as <-. by eapply IHrest.
        -- destruct child as [d|sub|]; [done| |done].
           destruct (directoryToMapInfo _ fname sub) as [chartInfo|] eqn:Hinfo.
           ++ simpl in Hres.
              destruct_others Hres rest others Hrest; simpl in Hres; [|done].
              injection Hres as <-.
              apply elem_of_cons in Hin as [Hin|Hin]; [|by eapply IHrest].
              injection Hin as ->.
              apply directoryToMapInfo_some in Hinfo
                as (info & _ & _ & _ & _ & Hff & Hfile & Hid & _).
              exists [], fname. split; [done|]. split; [done|]. split; [done|].
              split; [by rewrite Hfile|]. split.
              ** rewrite Hid. intros ->. apply Hproto.
                 unfold stripMbtiles. by rewrite Hmb.
              ** right. done.
           ++ destruct (findChartsRecursive cwd _ (Dir sub)) as [inner|] eqn:Hinner;
                simpl in Hres; [|done].
              destruct_others Hres rest others Hrest; simpl in Hres; [|done].
              injection Hres as <-. apply elem_of_app in Hin as [Hin|Hin];
                [|by eapply IHrest].
              apply (placed_deeper dirs ps fname c Hplain Hskip Hmb).
              apply (Hchild (ps ++ [fname]) inner c).
              ** apply Forall_app. split; [done|]. by constructor.
              ** exact Hchild_ord.
              ** exact Hinner.
              ** exact Hin.
      * simpl in Hres.
        destruct_others Hres rest others Hrest; simpl in Hres; [|done].
        injection Hres as <-. by eapply IHrest.
Qed.

End WalkFacts.

Section RegistryFacts.
Import Js Loader Routes Plugin.

Lemma findCharts_placed cwd (dirs : list string) root reg key c :
  dirs ≠ [] → Forall plain dirs → ordinary root = true →
  findCharts cwd ("/" +:+ Str.join "/" dirs) root = Some reg →
  reg !! key = Some c → placed dirs [] c ∧ identifier c = key.
Proof.
  intros Hd Hdirs Hord Hfind Hkey. unfold findCharts in Hfind.
  destruct (findChartsRecursive cwd _ root) as [results|] eqn:Hwalk;
    simpl in Hfind; [|done].
  injection Hfind as <-.
  apply foldl_assign_lookup in Hkey as [[Hin Hident]|Hempty];
    [|by rewrite lookup_empty in Hempty].
  split; [|done]. apply list_elem_of_omap in Hin as (oc & Hoc & Hid).
  simpl in Hid. subst oc.
  apply (findChartsRecursive_placed cwd dirs root Hd Hdirs [] results c); try done.
  by rewrite app_nil_r.
Qed.

Lemma stripMbtiles_slash_free name :
  Path.slash ∉ Str.chars name → Path.slash ∉ Str.chars (stripMbtiles name).
Proof.
  intros Hfree. unfold stripMbtiles. destruct (isMbtilesName name); [|done].
  rewrite chars_of_chars. intros Hin. apply Hfree.
  eapply elem_of_sublist; [exact Hin|apply sublist_take].
Qed.

Lemma placed_slash_free dirs ps c :
  placed dirs ps c → Path.slash ∉ Str.chars (identifier c).
Proof.
  intros (qs & name & _ & (_ & _ & _ & Hfree) & _ & _ & _ & Hkind).
  destruct Hkind as [(_ & -> & _)|(_ & _ & -> & _)]; [|done].
  by apply stripMbtiles_slash_free.
Qed.

End RegistryFacts.

(** Where the charts of the registry lie. For a chart directory
    [/d1/../dn] whose tree has ordinary names, every chart that
    [findCharts] registers comes from a container file or a chart
    directory [name] in a chain of folders [q1/../qk] below the chart
    directory; none of the folders is hidden, is called [node_modules] or
    has the name of a container. The path of the chart is
    [/d1/../dn/q1/../qk/name], its switch is read under
    [q1/../qk/name], and its key in the registry is its identifier: the
    name, for a container without the extension; it holds no slash. *)
Theorem registry_charts_are_placed (cwd : string) (dirs : list string)
    (root : Loader.node) (reg : gmap string Loader.chart) (key : string)
    (c : Loader.chart) :
  dirs ≠ [] → Forall Routes.plain dirs → Plugin.ordinary root = true →
  let chartPath := "/" +:+ Str.join "/" dirs in
  Loader.findCharts cwd chartPath root = Some reg →
  reg !! key = Some c →
  ∃ qs name,
    Forall Routes.plain qs ∧ Routes.plain name
    ∧ Forall (λ q, Scanner.skipped q = false ∧ Loader.isMbtilesName q = false) qs
    ∧ Loader._filePath c = chartPath +:+ "/" +:+ Str.join "/" (qs ++ [name])
    ∧ Path.relative cwd chartPath (Loader._filePath c) = Str.join "/" (qs ++ [name])
    ∧ Loader.identifier c = key
    ∧ (Path.slash ∉ Str.chars key)
    ∧ ((Loader.isMbtilesName name = true ∧ key = Loader.stripMbtiles name
          ∧ Loader._fileFormat c = "mbtiles")
       ∨ (Loader.isMbtilesName name = false ∧ Scanner.skipped name = false
          ∧ key = name ∧ Loader._fileFormat c = "directory")).
Proof.
  intros Hd Hdirs Hord chartPath Hfind Hkey.
  destruct (findCharts_placed cwd dirs root reg key c Hd Hdirs Hord Hfind Hkey)
    as [Hplaced Hid].
  pose proof (placed_slash_free _ _ _ Hplaced) as Hfree.
  destruct Hplaced as (qs & name & Hqs & Hname & Hkept & Hpath & _ & Hkind).
  exists qs, name. rewrite <- Hid.
  assert (Hfile : Forall Routes.plain (qs ++ [name])).
  { apply Forall_app. split; [done|]. by constructor. }
  split; [done|]. split; [done|]. split; [done|].
  cbn [app] in Hpath. split; [|split].
  - rewrite Hpath. unfold chartPath.
    rewrite (join_app "/" dirs (qs ++ [name])) by (try done; by destruct qs).
    by rewrite append_assoc.
  - rewrite Hpath. by apply relative_plain.
  - split; [done|]. split; [done|].
    destruct Hkind as [(? & ? & ?)|(? & ? & ? & ?)]; [left|right]; done.
Qed.

(** A chart directory with a container, a hidden folder and a container
    with an upper-case extension in a subfolder. *)
Lemma registry_charts_are_placed_witness :
  let md := Js.VObj [("bounds", Js.VStr "1,2,3,4"); ("format", Js.VStr "png")] in
  let root :=
    Loader.Dir
      [("a.mbtiles", Loader.File (Loader.MbtilesDb md));
       (".old", Loader.Dir [("h.mbtiles", Loader.File (Loader.MbtilesDb md))]);
       ("sub", Loader.Dir [("b.MBTILES", Loader.File (Loader.MbtilesDb md))])] in
  ∃ reg c,
    Loader.findCharts "/srv" "/data/charts" root = Some reg
    ∧ reg !! "h" = None
    ∧ reg !! "b" = Some c
    ∧ Loader._filePath c = "/data/charts/sub/b.MBTILES"
    ∧ Path.relative "/srv" "/data/charts" (Loader._filePath c) = "sub/b.MBTILES".
Proof.
  intros md root.
  assert (HR : ∃ reg c,
            Loader.findCharts "/srv" "/data/charts" root = Some reg
            ∧ reg !! "h" = None ∧ reg !! "b" = Some c
            ∧ Loader._filePath c = "/data/charts/sub/b.MBTILES").
  { eexists _, _. split; [vm_compute; reflexivity|].
    split; [vm_compute; reflexivity|]. split; vm_compute; reflexivity. }
  destruct HR as (reg & c & Hfind & Hh & Hb & Hfile).
  destruct (registry_charts_are_placed "/srv" ["data"; "charts"] root reg "b" c)
    as (qs & name & _ & _ & _ & Hpath & Hrel & _).
  - discriminate.
  - repeat constructor; try discriminate; by_computation.
  - vm_compute. reflexivity.
  - exact Hfind.
  - exact Hb.
  - exists reg, c. split; [exact Hfind|]. split; [exact Hh|]. split; [exact Hb|].
    split; [exact Hfile|].
    transitivity (Str.join "/" (qs ++ [name])); [exact Hrel|].
    rewrite Hfile in Hpath. simpl in Hpath. injection Hpath as Hj.
    exact (eq_sym Hj).
Defined.

(** ** Switching a chart on and off *)

Section ToggleFacts.
Import Js Loader Routes Plugin.

Lemma lookup_pickBy predicate (reg : gmap string chart) key :
  pickBy predicate (Some reg) !! key
  = match reg !! key with
    | Some c =>
        if truthy (predicate c) && bool_decide (key ∉ unsettable) then Some c else None
    | None => None
    end.
Proof.
  unfold pickBy. destruct (reg !! key) as [c|] eqn:Hk.
  - destruct (truthy (predicate c) && bool_decide (key ∉ unsettable)) eqn:Hp.
    + apply andb_true_iff in Hp as [Ht Hb]. apply bool_decide_eq_true in Hb.
      by apply map_lookup_filter_Some_2.
    + apply map_lookup_filter_None_2. right. intros c' Hc' [Ht Hn].
      cbn [fst snd] in Ht, Hn. assert (c' = c) as -> by congruence.
      rewrite Ht in Hp. cbn [andb] in Hp. by apply bool_decide_eq_false in Hp.
  - apply map_lookup_filter_None_2. by left.
Qed.

Lemma lookup_refresh cwd chartPath st (reg : gmap string chart) key :
  refreshChartProviders cwd chartPath st (Some reg) !! key
  = match reg !! key with
    | Some c =>
        if truthy (ChartState.isChartEnabled st
                     (Path.relative cwd chartPath (_filePath c)))
           && bool_decide (key ∉ unsettable)
        then Some c else None
    | None => None
    end.
Proof.
  unfold refreshChartProviders. rewrite lookup_pickBy.
  destruct (reg !! key) as [c|]; [|done].
  by destruct (_filePath c).
Qed.

(** Names without slashes are read back from their path. *)
Lemma join_inj (l1 l2 : list string) :
  l1 ≠ [] → l2 ≠ [] →
  Forall (λ s, Path.slash ∉ Str.chars s) l1 →
  Forall (λ s, Path.slash ∉ Str.chars s) l2 →
  Str.join "/" l1 = Str.join "/" l2 → l1 = l2.
Proof.
  intros H1 H2 Hl1 Hl2 Heq.
  rewrite <- (split_join Path.slash l1), <- (split_join Path.slash l2) by done.
  change (String Path.slash "") with "/". by rewrite Heq.
Qed.

End ToggleFacts.

(** The handler that switches a chart, for a chart of the registry that
    lies at [q1/../qk/name] below the chart directory and a request that
    names this path (as the scanner reports it): the switch of the path is
    set, and after the refresh the chart is among the providers exactly
    when it was switched on (a chart under the key [constructor] or
    [prototype] is never among them). The charts at the other paths are
    among the providers as a refresh without the request would have them. *)
Theorem toggle_switches_the_chart (cwd : string) (dirs qs : list string)
    (name : string) (version : Js.value) (reg : gmap string Loader.chart)
    (key : string) (c : Loader.chart) (p : Plugin.plugin) (b : bool) :
  dirs ≠ [] → Forall Routes.plain dirs → Forall Routes.plain qs → Routes.plain name →
  let chartPath := "/" +:+ Str.join "/" dirs in
  let relativePath := Str.join "/" (qs ++ [name]) in
  reg !! key = Some c →
  Loader._filePath c = chartPath +:+ "/" +:+ relativePath →
  let after :=
    (Plugin.toggle cwd chartPath version relativePath (Js.VBool b) (Some reg) p).1.1 in
  Plugin.chartState after
  = ChartState.setChartEnabled (Plugin.chartState p) relativePath (Js.VBool b)
  ∧ Plugin.downloads after = Plugin.downloads p
  ∧ Plugin.chartProviders after !! key
    = (if b && bool_decide (key ∉ Plugin.unsettable) then Some c else None)
  ∧ (∀ key' c' qs' name',
       reg !! key' = Some c' →
       Forall Routes.plain qs' → Routes.plain name' →
       Loader._filePath c' = chartPath +:+ "/" +:+ Str.join "/" (qs' ++ [name']) →
       qs' ++ [name'] ≠ qs ++ [name] →
       relativePath ≠ "__proto__" →
       Plugin.chartProviders after !! key'
       = Plugin.refreshChartProviders cwd chartPath (Plugin.chartState p) (Some reg)
           !! key').
Proof.
  intros Hd Hdirs Hqs Hname chartPath relativePath Hkey Hpath after.
  assert (Hrel : ∀ (qs' : list string) name' (c' : Loader.chart),
            Forall Routes.plain qs' → Routes.plain name' →
            Loader._filePath c'
            = chartPath +:+ "/" +:+ Str.join "/" (qs' ++ [name']) →
            Path.relative cwd chartPath (Loader._filePath c')
            = Str.join "/" (qs' ++ [name'])).
  { intros qs' name' c' Hqs' Hname' ->.
    assert (Heq : chartPath +:+ "/" +:+ Str.join "/" (qs' ++ [name'])
                  = "/" +:+ Str.join "/" (dirs ++ qs' ++ [name'])).
    { unfold chartPath.
      rewrite (join_app "/" dirs (qs' ++ [name'])) by (try done; by destruct qs').
      by rewrite append_assoc. }
    rewrite Heq. apply relative_plain; [done|done|].
    apply Forall_app. split; [done|]. by constructor. }
  assert (Hafter :
            after
            = {| Plugin.chartState :=
                   ChartState.setChartEnabled (Plugin.chartState p) relativePath
                     (Js.VBool b);
                 Plugin.chartProviders :=
                   Plugin.refreshChartProviders cwd chartPath
                     (ChartState.setChartEnabled (Plugin.chartState p) relativePath
                        (Js.VBool b)) (Some reg);
                 Plugin.downloads := Plugin.downloads p |}).
  { unfold after, Plugin.toggle. by destruct (Plugin.toggleDeltas _ _ _ _). }
  rewrite Hafter. cbn [Plugin.chartState Plugin.chartProviders Plugin.downloads].
  split; [done|]. split; [done|]. split.
  - rewrite lookup_refresh, Hkey, (Hrel qs name c) by done.
    fold relativePath. rewrite isChartEnabled_set. by destruct b.
  - intros key' c' qs' name' Hkey' Hqs' Hname' Hpath' Hne Hproto.
    rewrite !lookup_refresh, Hkey', (Hrel qs' name' c') by done.
    rewrite isChartEnabled_set_ne; [done| |done].
    unfold relativePath. intros Heq. apply Hne.
    apply join_inj in Heq; [done|by destruct qs'|by destruct qs| |].
    + apply plain_slash_free, Forall_app. split; [done|]. by constructor.
    + apply plain_slash_free, Forall_app. split; [done|]. by constructor.
Qed.

(** The chart [sub/b.mbtiles] is switched off, and on again. *)
Lemma toggle_switches_the_chart_witness :
  let md := Js.VObj [("bounds", Js.VStr "1,2,3,4"); ("format", Js.VStr "png")] in
  let root :=
    Loader.Dir [("sub", Loader.Dir [("b.mbtiles", Loader.File (Loader.MbtilesDb md))])] in
  let p := {| Plugin.chartState := ChartState.empty; Plugin.chartProviders := ∅;
              Plugin.downloads := DownloadManager.init |} in
  ∃ reg c,
    Loader.findCharts "/srv" "/data/charts" root = Some reg
    ∧ reg !! "b" = Some c
    ∧ Plugin.chartProviders
        (Plugin.toggle "/srv" "/data/charts" (Js.VNum (Num.Int 2)) "sub/b.mbtiles"
           (Js.VBool false) (Some reg) p).1.1 !! "b" = None
    ∧ Plugin.chartProviders
        (Plugin.toggle "/srv" "/data/charts" (Js.VNum (Num.Int 2)) "sub/b.mbtiles"
           (Js.VBool true) (Some reg) p).1.1 !! "b" = Some c.
Proof.
  intros md root p.
  assert (HR : ∃ reg c,
            Loader.findCharts "/srv" "/data/charts" root = Some reg
            ∧ reg !! "b" = Some c
            ∧ Loader._filePath c = "/data/charts/sub/b.mbtiles").
  { eexists _, _. split; [vm_compute; reflexivity|].
    split; vm_compute; reflexivity. }
  destruct HR as (reg & c & Hfind & Hb & Hfile).
  assert (Hplain : Forall Routes.plain ["data"; "charts"]
                   ∧ Forall Routes.plain ["sub"] ∧ Routes.plain "b.mbtiles").
  { repeat split; repeat constructor; try discriminate; by_computation. }
  destruct Hplain as (Hdirs & Hqs & Hname).
  exists reg, c. split; [exact Hfind|]. split; [exact Hb|]. split.
  - destruct (toggle_switches_the_chart "/srv" ["data"; "charts"] ["sub"] "b.mbtiles"
                (Js.VNum (Num.Int 2)) reg "b" c p false)
      as (_ & _ & Hoff & _); [discriminate|exact Hdirs|exact Hqs|exact Hname|
                              exact Hb|exact Hfile|].
    exact Hoff.
  - destruct (toggle_switches_the_chart "/srv" ["data"; "charts"] ["sub"] "b.mbtiles"
                (Js.VNum (Num.Int 2)) reg "b" c p true)
      as (_ & _ & Hon & _); [discriminate|exact Hdirs|exact Hqs|exact Hname|
                             exact Hb|exact Hfile|].
    exact Hon.
Defined.

Section DeltaFacts.
Import Js Loader Routes Plugin.

Lemma inherited_names_slash_free name :
  name ∈ ChartState.inherited_names → Path.slash ∉ Str.chars name.
Proof.
  assert (Hall : Forall (λ n, Path.slash ∉ Str.chars n) ChartState.inherited_names).
  { repeat constructor; by_computation. }
  rewrite Forall_forall in Hall. apply Hall.
Qed.

(** Taking the extension off keeps the slashes. *)
Lemma withoutExtension_slash (s : string) :
  Path.slash ∈ Str.chars s → Path.slash ∈ Str.chars (withoutExtension s).
Proof.
  intros Hin. unfold withoutExtension.
  destruct (Str.endsWith s ".mbtiles") eqn:Hends; [|done].
  apply endsWith_split in Hends. rewrite chars_of_chars.
  change (length (Str.chars ".mbtiles")) with 8%nat in Hends.
  rewrite Hends in Hin. apply elem_of_app in Hin as [Hin|Hin]; [done|].
  exfalso. revert Hin. by_computation.
Qed.

Lemma join_snoc_slash (ps : list string) (name : string) :
  ps ≠ [] → Path.slash ∈ Str.chars (Str.join "/" (ps ++ [name])).
Proof.
  intros Hne. rewrite join_app by done. rewrite !chars_app.
  apply elem_of_app. right. apply elem_of_app. left. by left.
Qed.

Lemma take_segment_free l : Path.slash ∉ l → Path.take_segment l = l.
Proof.
  induction l as [|c l IH]; simpl; intros Hl; [done|].
  apply not_elem_of_cons in Hl as [Hc Hl]. rewrite decide_False by done.
  by rewrite IH.
Qed.

(** The base name of a single segment is that segment. *)
Lemma basename_plain (seg : string) :
  seg ≠ "" → Path.slash ∉ Str.chars seg → Path.basename seg = seg.
Proof.
  intros Hne Hfree. unfold Path.basename.
  assert (Hrev : Path.slash ∉ rev (Str.chars seg)).
  { intros Hin. apply Hfree. apply list_elem_of_In. apply in_rev.
    by apply list_elem_of_In. }
  destruct (rev (Str.chars seg)) as [|c l] eqn:Hr.
  { exfalso. apply Hne. apply chars_inj.
    rewrite <- (rev_involutive (Str.chars seg)), Hr. reflexivity. }
  apply not_elem_of_cons in Hrev as Hc. destruct Hc as [Hc _].
  rewrite drop_slashes_head, take_segment_free by done.
  rewrite <- Hr, rev_involutive. apply of_chars_chars.
Qed.

(** No key of the registry holds a slash. *)
Lemma registry_lookup_slash cwd (dirs : list string) root key :
  dirs ≠ [] → Forall plain dirs → ordinary root = true →
  Path.slash ∈ Str.chars key →
  ∀ st, getProvider
          (refreshChartProviders cwd ("/" +:+ Str.join "/" dirs) st
             (findCharts cwd ("/" +:+ Str.join "/" dirs) root)) key
        = NoProvider.
Proof.
  intros Hd Hdirs Hord Hslash st. unfold getProvider.
  assert (Hnone : refreshChartProviders cwd ("/" +:+ Str.join "/" dirs) st
                    (findCharts cwd ("/" +:+ Str.join "/" dirs) root) !! key = None).
  { destruct (findCharts cwd _ root) as [reg|] eqn:Hfind; [|apply lookup_empty].
    rewrite lookup_refresh. destruct (reg !! key) as [c|] eqn:Hkey; [|done].
    destruct (findCharts_placed cwd dirs root reg key c Hd Hdirs Hord Hfind Hkey)
      as [Hplaced Hid].
    apply placed_slash_free in Hplaced. by rewrite Hid in Hplaced. }
  rewrite Hnone. rewrite bool_decide_eq_false_2; [done|].
  intros Hin. by apply inherited_names_slash_free in Hin.
Qed.

End DeltaFacts.

(** What the handler that switches a chart announces. Switching a chart
    off emits the delta [null] for the file name without its extension,
    in whatever folder the chart lies. Switching on a chart that lies in a
    subfolder emits no delta at all, although the answer is 200 and the
    chart is among the providers again: the handler looks the chart up
    under its relative path without the extension, and no key of the
    registry holds a slash. *)
Theorem toggle_in_subfolder_announces_nothing (cwd : string) (dirs ps : list string)
    (name : string) (version : Js.value) (root : Loader.node) (p : Plugin.plugin) :
  dirs ≠ [] → Forall Routes.plain dirs → Plugin.ordinary root = true →
  Forall Routes.plain ps → Routes.plain name →
  let chartPath := "/" +:+ Str.join "/" dirs in
  let relativePath := Str.join "/" (ps ++ [name]) in
  let charts := Loader.findCharts cwd chartPath root in
  let switch b := Plugin.toggle cwd chartPath version relativePath (Js.VBool b) charts p in
  (switch false).1.2
  = [Plugin.emitChartDelta (Routes.withoutExtension name) None]
  ∧ (switch false).2 = Routes.SendSuccess 200 "Chart disabled"
  ∧ (ps ≠ [] →
     (switch true).1.2 = []
     ∧ (switch true).2 = Routes.SendSuccess 200 "Chart enabled").
Proof.
  intros Hd Hdirs Hord Hps Hname chartPath relativePath charts switch.
  assert (Hbase : Path.basename relativePath = name).
  { unfold relativePath. destruct ps as [|q ps]; cbn [app].
    - apply basename_plain; apply Hname.
    - change (q :: ps ++ [name]) with ((q :: ps) ++ [name]).
      rewrite (join_app "/" (q :: ps) [name]) by done.
      apply basename_last_segment; apply Hname. }
  split; [|split].
  - unfold switch, Plugin.toggle, Plugin.toggleDeltas. cbn. by rewrite Hbase.
  - done.
  - intros Hne.
    assert (Hnone :
              Plugin.getProvider
                (Plugin.refreshChartProviders cwd chartPath
                   (ChartState.setChartEnabled (Plugin.chartState p) relativePath
                      (Js.VBool true)) charts)
                (Routes.withoutExtension relativePath) = Plugin.NoProvider).
    { apply registry_lookup_slash; try done.
      apply withoutExtension_slash. by apply join_snoc_slash. }
    unfold switch, Plugin.toggle, Plugin.toggleDeltas.
    cbn [Plugin.chartProviders]. by rewrite Hnone.
Qed.

(** Switching [sub/b.mbtiles] on announces nothing; switching it off
    announces that [b] is gone. *)
Lemma toggle_in_subfolder_announces_nothing_witness :
  let md := Js.VObj [("bounds", Js.VStr "1,2,3,4"); ("format", Js.VStr "png")] in
  let root :=
    Loader.Dir [("sub", Loader.Dir [("b.mbtiles", Loader.File (Loader.MbtilesDb md))])] in
  let p := {| Plugin.chartState := ChartState.empty; Plugin.chartProviders := ∅;
              Plugin.downloads := DownloadManager.init |} in
  let charts := Loader.findCharts "/srv" "/data/charts" root in
  (Plugin.toggle "/srv" "/data/charts" (Js.VNum (Num.Int 2)) "sub/b.mbtiles"
     (Js.VBool true) charts p).1.2 = []
  ∧ (Plugin.toggle "/srv" "/data/charts" (Js.VNum (Num.Int 2)) "sub/b.mbtiles"
       (Js.VBool false) charts p).1.2
    = [{| Plugin.d_path := "resources.charts.b"; Plugin.d_value := None |}].
Proof.
  intros md root p charts.
  destruct (toggle_in_subfolder_announces_nothing "/srv" ["data"; "charts"] ["sub"]
              "b.mbtiles" (Js.VNum (Num.Int 2)) root p)
    as (Hoff & _ & Hon).
  - discriminate.
  - repeat constructor; try discriminate; by_computation.
  - vm_compute. reflexivity.
  - repeat constructor; try discriminate; by_computation.
  - repeat split; try discriminate; by_computation.
  - split; [apply Hon; discriminate|exact Hoff].
Defined.

(** ** What the interfaces hand out *)

Section SanitizeFacts.
Import Js Loader Routes Plugin.

(** A pattern at the start of the string is the occurrence replaced. *)
Lemma replace_prefix (pattern replacement rest : string) :
  replace (pattern +:+ rest) pattern replacement = replacement +:+ rest.
Proof.
  unfold replace. rewrite chars_app.
  assert (Hstep : ∀ l r, replace_chars (Str.chars pattern) r (Str.chars pattern ++ l)
                         = r ++ l).
  { intros l r. destruct (Str.chars pattern ++ l) eqn:Hl; cbn [replace_chars];
      rewrite <- Hl, prefix_of_app; by rewrite drop_app_length. }
  rewrite Hstep. by rewrite of_chars_app, !of_chars_chars.
Qed.

Lemma openMbtilesFile_urls file fname opened c :
  openMbtilesFile file fname opened = Some c →
  v1_tilemapUrl c = tileUrl (identifier c) ∧ v2_url c = tileUrl (identifier c).
Proof.
  unfold openMbtilesFile. destruct opened as [md|]; simpl; [|done].
  destruct (Lodash.isEmpty md || is_undefined (prop md "bounds")); [done|].
  destruct (if truthy _ then _ else _); simpl; [|done].
  by intros [= <-].
Qed.

Lemma directoryToMapInfo_urls file ident entries c :
  directoryToMapInfo file ident entries = Some c →
  v1_tilemapUrl c = tileUrl (identifier c) ∧ v2_url c = tileUrl (identifier c).
Proof.
  unfold directoryToMapInfo. destruct (loadInfo entries) as [info| |]; [|done..].
  destruct (negb (truthy (i_format info))); [done|]. by intros [= <-].
Qed.

(** Every chart of the registry carries the two URL templates of its key. *)
Lemma findCharts_urls cwd chartBaseDir root reg key c :
  findCharts cwd chartBaseDir root = Some reg → reg !! key = Some c →
  identifier c = key ∧ v1_tilemapUrl c = tileUrl key ∧ v2_url c = tileUrl key.
Proof.
  unfold findCharts. intros Hfind Hkey.
  destruct (findChartsRecursive cwd chartBaseDir root) as [results|] eqn:Hwalk;
    simpl in Hfind; [|done].
  injection Hfind as <-.
  apply foldl_assign_lookup in Hkey as [[Hin Hident]|Hempty];
    [|by rewrite lookup_empty in Hempty].
  apply list_elem_of_omap in Hin as (oc & Hoc & Hid). simpl in Hid. subst oc.
  split; [done|]. rewrite <- Hident.
  destruct (findChartsRecursive_sources _ _ _ _ _ Hwalk Hoc)
    as [(file' & fname' & md' & Hopen)|(file' & ident' & entries' & Hdir)].
  - by eapply openMbtilesFile_urls.
  - by eapply directoryToMapInfo_urls.
Qed.

Lemma tileUrl_replaced key :
  replace (tileUrl key) "~tilePath~" chartTilesPath
  = chartTilesPath +:+ "/" +:+ key +:+ "/{z}/{x}/{y}".
Proof.
  unfold tileUrl.
  change ("~tilePath~/" +:+ key +:+ "/{z}/{x}/{y}")
    with ("~tilePath~" +:+ "/" +:+ key +:+ "/{z}/{x}/{y}").
  apply replace_prefix.
Qed.

End SanitizeFacts.

(** What [sanitizeProvider] makes of a chart of the registry. The object
    keeps the identifier, which is the key of the chart, and none of the
    internal properties. For the version number 1 it has the property
    [tilemapUrl], for the version number 2 the property [url]; either is
    [/signalk/chart-tiles/<key>/{z}/{x}/{y}], the URL of the tile route for
    this key. For every other version it has neither: so for the string
    ['1'] that [serverMajorVersion] is when the server reports no
    version. *)
Theorem sanitized_chart_names_its_key (cwd chartBaseDir : string)
    (root : Loader.node) (reg : gmap string Loader.chart) (key : string)
    (c : Loader.chart) (version : Js.value) :
  Loader.findCharts cwd chartBaseDir root = Some reg → reg !! key = Some c →
  let url := Js.VStr ("/signalk/chart-tiles/" +:+ key +:+ "/{z}/{x}/{y}") in
  let data := Plugin.sanitizeProvider c version in
  data !! "identifier" = Some (Js.VStr key)
  ∧ Forall (λ internal, data !! internal = None)
      ["_filePath"; "_fileFormat"; "_mbtilesHandle"; "_flipY"; "v1"; "v2"]
  ∧ (version = Js.VNum (Num.Int 1) →
     data !! "tilemapUrl" = Some url ∧ data !! "url" = None)
  ∧ (version = Js.VNum (Num.Int 2) →
     data !! "url" = Some url ∧ data !! "tilemapUrl" = None)
  ∧ (Plugin.is_number version 1 = false → Plugin.is_number version 2 = false →
     data !! "tilemapUrl" = None ∧ data !! "url" = None)
  ∧ Plugin.serverMajorVersion None = Js.VStr "1"
  ∧ Plugin.sanitizeProvider c (Plugin.serverMajorVersion None) !! "tilemapUrl" = None
  ∧ Plugin.sanitizeProvider c (Plugin.serverMajorVersion None) !! "url" = None.
Proof.
  intros Hfind Hkey url data.
  destruct (findCharts_urls _ _ _ _ _ _ Hfind Hkey) as (Hid & Hv1 & Hv2).
  assert (Hurl1 : Plugin.replace (Loader.v1_tilemapUrl c) "~tilePath~"
                    Plugin.chartTilesPath
                  = "/signalk/chart-tiles/" +:+ key +:+ "/{z}/{x}/{y}").
  { rewrite Hv1. apply tileUrl_replaced. }
  assert (Hurl2 : (if Str.truthy (Loader.v2_url c)
                   then Plugin.replace (Loader.v2_url c) "~tilePath~"
                          Plugin.chartTilesPath
                   else "")
                  = "/signalk/chart-tiles/" +:+ key +:+ "/{z}/{x}/{y}").
  { rewrite Hv2. change (Str.truthy (Loader.tileUrl key)) with true.
    apply tileUrl_replaced. }
  unfold data, Plugin.sanitizeProvider, Plugin.public. rewrite Hid.
  split; [by destruct (Plugin.is_number version 1), (Plugin.is_number version 2)|].
  split.
  { repeat constructor;
      by destruct (Plugin.is_number version 1), (Plugin.is_number version 2). }
  split; [intros ->; cbn [Plugin.is_number Num.eqb Z.eqb Pos.eqb]; split;
          [by rewrite Hurl1|done]|].
  split; [intros ->; cbn [Plugin.is_number Num.eqb Z.eqb Pos.eqb]; split;
          [by rewrite Hurl2|done]|].
  split; [by intros -> ->|]. done.
Qed.

(** The chart [a] as a server of version 2.7.1 hands it out. *)
Lemma sanitized_chart_names_its_key_witness :
  let md := Js.VObj [("bounds", Js.VStr "1,2,3,4"); ("format", Js.VStr "png")] in
  let root := Loader.Dir [("a.mbtiles", Loader.File (Loader.MbtilesDb md))] in
  ∃ reg c,
    Loader.findCharts "/srv" "/data/charts" root = Some reg
    ∧ reg !! "a" = Some c
    ∧ Plugin.sanitizeProvider c (Plugin.serverMajorVersion (Some "2.7.1")) !! "url"
      = Some (Js.VStr "/signalk/chart-tiles/a/{z}/{x}/{y}")
    ∧ Plugin.sanitizeProvider c (Plugin.serverMajorVersion None) !! "url" = None.
Proof.
  intros md root.
  assert (HR : ∃ reg c,
            Loader.findCharts "/srv" "/data/charts" root = Some reg
            ∧ reg !! "a" = Some c).
  { eexists _, _. split; vm_compute; reflexivity. }
  destruct HR as (reg & c & Hfind & Ha).
  destruct (sanitized_chart_names_its_key "/srv" "/data/charts" root reg "a" c
              (Plugin.serverMajorVersion (Some "2.7.1")) Hfind Ha)
    as (_ & _ & _ & Hv2 & _ & _ & _ & Hnone).
  exists reg, c. split; [exact Hfind|]. split; [exact Ha|].
  split; [|exact Hnone]. apply Hv2. vm_compute. reflexivity.
Defined.

(** ** Charts of one identifier *)

Section ShadowFacts.
Import Js Loader.

Lemma foldl_assign_last (l : list chart) (m : gmap string chart) key :
  key ≠ "__proto__" →
  foldl assign m l !! key
  = match last (filter (λ c, identifier c = key) l) with
    | Some c => Some c
    | None => m !! key
    end.
Proof.
  intros Hkey. revert m. induction l as [|x l IH]; intros m; [done|].
  cbn [foldl]. rewrite IH, filter_cons.
  destruct (decide (identifier x = key)) as [Hx|Hx].
  - rewrite last_cons. destruct (last (filter _ l)); [done|].
    unfold assign. rewrite decide_False by congruence.
    by rewrite Hx, lookup_insert_eq.
  - destruct (last (filter _ l)); [done|].
    unfold assign. case_decide; [done|]. by rewrite lookup_insert_ne.
Qed.

Lemma foldl_assign_proto (l : list chart) (m : gmap string chart) :
  foldl assign m l !! "__proto__" = m !! "__proto__".
Proof.
  revert m. induction l as [|x l IH]; intros m; [done|].
  cbn [foldl]. rewrite IH. unfold assign. case_decide; [done|].
  by rewrite lookup_insert_ne.
Qed.

End ShadowFacts.

(** Of the charts that the walk finds under one identifier, the registry
    holds the one found last: a container or chart directory shadows every
    chart of the same name found before it, in whatever folder. No chart is
    registered under [__proto__]. *)
Theorem later_chart_replaces_earlier (cwd chartBaseDir : string)
    (root : Loader.node) (results : list (option Loader.chart)) (key : string) :
  Loader.findChartsRecursive cwd chartBaseDir root = Some results →
  ∃ reg,
    Loader.findCharts cwd chartBaseDir root = Some reg
    ∧ reg !! "__proto__" = None
    ∧ (key ≠ "__proto__" →
       reg !! key
       = last (filter (λ c, Loader.identifier c = key) (omap (λ c, c) results))).
Proof.
  intros Hwalk. unfold Loader.findCharts. rewrite Hwalk. cbn [mbind option_bind].
  eexists. split; [reflexivity|]. split.
  - by rewrite foldl_assign_proto.
  - intros Hkey. rewrite foldl_assign_last by done.
    by destruct (last _).
Qed.

(** Two containers [a.mbtiles] in two folders: the one read last is
    served. *)
Lemma later_chart_replaces_earlier_witness :
  let md := Js.VObj [("bounds", Js.VStr "1,2,3,4"); ("format", Js.VStr "png")] in
  let root :=
    Loader.Dir
      [("x", Loader.Dir [("a.mbtiles", Loader.File (Loader.MbtilesDb md))]);
       ("y", Loader.Dir [("a.mbtiles", Loader.File (Loader.MbtilesDb md))])] in
  ∃ reg,
    Loader.findCharts "/srv" "/data/charts" root = Some reg
    ∧ Loader._filePath <$> reg !! "a" = Some "/data/charts/y/a.mbtiles".
Proof.
  intros md root.
  assert (HW : ∃ results,
            Loader.findChartsRecursive "/srv" "/data/charts" root = Some results).
  { eexists. vm_compute. reflexivity. }
  destruct HW as (results & Hwalk).
  destruct (later_chart_replaces_earlier "/srv" "/data/charts" root results "a" Hwalk)
    as (reg & Hfind & _ & Hlast).
  exists reg. split; [exact Hfind|]. rewrite Hlast by discriminate.
  vm_compute in Hwalk. injection Hwalk as <-. vm_compute. reflexivity.
Defined.

(** ** The extension of a container *)

Section ExtensionFacts.
Import Str Loader.

Lemma prefix_of_fmap (f : ascii → ascii) p l :
  prefix_of p l = true → prefix_of (f <$> p) (f <$> l) = true.
Proof.
  revert l. induction p as [|a p IH]; intros [|b l]; simpl; try done.
  case_decide; [|done]. subst b. rewrite decide_True by done. apply IH.
Qed.

Lemma isMbtilesName_chars (name : string) :
  isMbtilesName name
  = prefix_of (rev (chars ".mbtiles")) (lower <$> rev (chars name)).
Proof.
  unfold isMbtilesName, endsWith. rewrite chars_of_chars.
  by rewrite <- map_rev.
Qed.

Lemma take_stem (stem ext : string) :
  take (length (chars (stem +:+ ext)) - length (chars ext)) (chars (stem +:+ ext))
  = chars stem.
Proof.
  rewrite chars_app, length_app.
  replace (length (chars stem) + length (chars ext) - length (chars ext))%nat
    with (length (chars stem)) by lia.
  by rewrite take_app_length.
Qed.

End ExtensionFacts.

(** The three tests for the extension of a container. A file that the
    scanner lists (its name ends in [.mbtiles]) is one that the loader opens
    as a container, and the identifier the loader gives it is the chart id
    that the handlers compute from its name. The converse fails: the loader
    opens [<stem>.MBTILES] as the chart [<stem>], while the scanner does
    not list the file and the handlers leave the name as it is. *)
Theorem extension_is_matched_differently (name stem : string) :
  (Scanner.listed name = true →
   Loader.isMbtilesName name = true
   ∧ Loader.stripMbtiles name = Routes.withoutExtension name)
  ∧ Loader.isMbtilesName (stem +:+ ".MBTILES") = true
  ∧ Loader.stripMbtiles (stem +:+ ".MBTILES") = stem
  ∧ Scanner.listed (stem +:+ ".MBTILES") = false
  ∧ Routes.withoutExtension (stem +:+ ".MBTILES") = stem +:+ ".MBTILES".
Proof.
  assert (Hupper : Loader.isMbtilesName (stem +:+ ".MBTILES") = true).
  { rewrite isMbtilesName_chars, chars_app, rev_app_distr, fmap_app.
    apply (prefix_of_app (rev (Str.chars ".mbtiles"))). }
  assert (Hlisted : Scanner.listed (stem +:+ ".MBTILES") = false).
  { unfold Scanner.listed, Str.endsWith. by rewrite chars_app, rev_app_distr. }
  split; [|split; [exact Hupper|split; [|split; [exact Hlisted|]]]].
  - unfold Scanner.listed. intros Hends.
    assert (Hname : Loader.isMbtilesName name = true).
    { rewrite isMbtilesName_chars.
      apply (prefix_of_fmap Loader.lower) in Hends. exact Hends. }
    split; [done|]. unfold Loader.stripMbtiles, Routes.withoutExtension.
    by rewrite Hname, Hends.
  - unfold Loader.stripMbtiles. rewrite Hupper.
    change 8%nat with (length (Str.chars ".MBTILES")).
    by rewrite take_stem, of_chars_chars.
  - unfold Routes.withoutExtension. fold (Scanner.listed (stem +:+ ".MBTILES")).
    by rewrite Hlisted.
Qed.

(** The names [a.mbtiles] and [a.MBTILES]. *)
Lemma extension_is_matched_differently_witness :
  Loader.isMbtilesName "a.mbtiles" = true
  ∧ Loader.stripMbtiles "a.MBTILES" = "a"
  ∧ Scanner.listed "a.MBTILES" = false
  ∧ Routes.withoutExtension "a.MBTILES" = "a.MBTILES".
Proof.
  destruct (extension_is_matched_differently "a.mbtiles" "a")
    as (Hlower & _ & Hstrip & Hlisted & Hkept).
  split; [apply Hlower; reflexivity|]. split; [exact Hstrip|].
  split; [exact Hlisted|exact Hkept].
Defined.

(** ** The plugin: deleting a chart *)

Section DeleteFacts.
Import DownloadManager Plugin.






End DeleteFacts.



(** ** The download manager: what a finished job carries *)

Section JobFacts.
Import DownloadManager.

(** A property of job objects that every write of the manager keeps. *)
Variable P : job → Prop.
Hypothesis P_new :
  ∀ jobId u td cn now,
    P {| id := jobId; url := u; targetDir := td; chartName := cn; status := queued;
         progress := Num.Int 0; downloadedBytes := Num.Int 0;
         totalBytes := Num.Int 0; extractedFiles := []; targetFiles := [];
         createdAt := now; startedAt := None; completedAt := None;
         error := None |}.
Hypothesis P_url : ∀ v j, P j → P (with_url v j).
Hypothesis P_progress : ∀ v j, P j → P (with_progress v j).
Hypothesis P_downloadedBytes : ∀ v j, P j → P (with_downloadedBytes v j).
Hypothesis P_totalBytes : ∀ v j, P j → P (with_totalBytes v j).
Hypothesis P_extracted : ∀ v j, P j → P (push_extracted v j).
Hypothesis P_target : ∀ v j, P j → P (push_target v j).
Hypothesis P_start : ∀ now j, P j → P (with_startedAt now (with_status downloading j)).
Hypothesis P_extracting : ∀ j, P j → P (with_status extracting j).
Hypothesis P_finish : ∀ result now j, P j → P (finish_job result now j).
Hypothesis P_cancel :
  ∀ now j, P j →
    P (with_completedAt now (with_error "Cancelled by user" (with_status failed j))).


Lemma all_update_job (r : nat) f m :
  (∀ j, P j → P (f j)) → every_job P m → every_job P (update_job r f m).
Proof.
  intros Hf Hall. unfold every_job, update_job in *. cbn [heap].
  destruct (heap m !! r) as [j|] eqn:Hj; [|done].
  apply Forall_insert; [done|]. apply Hf.
  by eapply Forall_lookup_1.
Qed.

Lemma all_processQueue now m : every_job P m → every_job P (processQueue now m).
Proof using P_start.
  intros Hall. unfold processQueue. destruct (_ <=? _)%Z; [done|].
  destruct (find_queued m) as [r|]; [|done].
  unfold start, every_job. cbn [heap].
  apply (all_update_job r _ (with_active (activeDownloads m + 1) m)); [|done].
  intros j. apply P_start.
Qed.

Lemma all_settle (t : nat) result now m : every_job P m → every_job P (settle t result now m).
Proof using P_start P_finish.
  intros Hall. unfold settle. destruct (tasks m !! t) as [tk|]; [|done].
  destruct (t_settled tk); [done|].
  apply all_processQueue.
  apply (all_update_job (t_job tk) _ (update_task t set_settled m)); [|done].
  intros j. apply P_finish.
Qed.

Ltac keep :=
  repeat first
    [ assumption
    | apply all_settle
    | apply all_update_job;
      [intros ? ?;
       repeat first [ assumption | apply P_url | apply P_progress
                    | apply P_downloadedBytes | apply P_totalBytes
                    | apply P_extracted | apply P_target | apply P_extracting ]|]
    | match goal with
      | |- every_job P (update_task ?t ?f ?m) => change (every_job P m)
      | |- every_job P (issue ?c ?m) => change (every_job P m)
      end ].

Lemma all_afterAll (t : nat) now m : every_job P m → every_job P (afterAll t now m).
Proof using P_start P_finish P_progress.
  intros Hall. unfold afterAll. destruct (tasks m !! t) as [tk|]; [|done].
  destruct (t_phase tk) as [| |promises []|]; try done.
  destruct (heap m !! t_job tk) as [j|]; [|done].
  destruct (first_error promises); [keep|].
  destruct (all_closed promises); [|done].
  destruct (extractedFiles j); keep.
Qed.

Lemma all_step m e : every_job P m → every_job P (step m e).
Proof using All.
  intros Hall.
  destruct e as [rnd u td cn now|jobId now|now|t sc loc ct cl now|t msg now|t len
                |t path type|t k now|t k msg now|t now|t msg now|t now|t msg now];
    cbn [step].
  - unfold createJob. cbn [fst]. apply all_processQueue.
    unfold every_job. cbn [heap]. apply Forall_app. split; [done|].
    constructor; [apply P_new|constructor].
  - unfold cancelJob. destruct (getJob m jobId) as [[r j]|]; [|done].
    case_decide; [done|]. cbn [fst].
    destruct (issues_frame (targetFiles j)
                (λ fileName, Unlink (Path.join [targetDir j; fileName]))
                (update_job r
                   (λ j, with_completedAt now
                           (with_error "Cancelled by user" (with_status failed j))) m))
      as (Hh & _).
    unfold every_job. rewrite Hh. apply all_update_job; [|done]. intros j'. apply P_cancel.
  - done.
  - unfold onResponse. destruct (tasks m !! t) as [tk|]; [|done].
    destruct (t_phase tk); try done.
    destruct (heap m !! t_job tk); [|done].
    destruct (_ && _); [keep|]. destruct (negb _); [keep|].
    destruct (_ || _); keep.
  - unfold onRequestError. destruct (tasks m !! t) as [tk|]; [|done].
    destruct (t_phase tk); try done. keep.
  - unfold onData. destruct (tasks m !! t) as [tk|]; [|done].
    destruct (t_phase tk); try done; destruct (Num.ltb _ _); keep.
  - unfold onEntry. destruct (tasks m !! t) as [tk|]; [|done].
    destruct (t_phase tk) as [| |promises []|]; try done.
    destruct (heap m !! t_job tk); [|done].
    destruct (_ && _); keep.
  - unfold onEntryClose. destruct (tasks m !! t) as [tk|]; [|done].
    destruct (t_phase tk) as [| |promises stage|]; try done.
    destruct (promises !! k) as [[path []]|]; try done.
    apply all_afterAll. keep.
  - unfold onEntryError. destruct (tasks m !! t) as [tk|]; [|done].
    destruct (t_phase tk) as [| |promises stage|]; try done.
    destruct (promises !! k) as [[path []]|]; try done.
    apply all_afterAll. keep.
  - unfold onZipFinish. destruct (tasks m !! t) as [tk|]; [|done].
    destruct (t_phase tk) as [| |promises []|]; try done.
    apply all_afterAll. keep.
  - unfold onZipError. destruct (tasks m !! t) as [tk|]; [|done].
    destruct (t_phase tk) as [| |promises stage|]; try done. keep.
  - unfold onFileFinish. destruct (tasks m !! t) as [tk|]; [|done].
    destruct (t_phase tk) as [|targetPath| |]; try done. keep.
  - unfold onFileError. destruct (tasks m !! t) as [tk|]; [|done].
    destruct (t_phase tk) as [|targetPath| |]; try done. keep.
Qed.

Lemma all_reachable m : reachable m → every_job P m.
Proof using All.
  intros [events ->]. unfold run.
  assert (Hgoal : ∀ m, every_job P m → every_job P (foldl step m events)).
  { induction events as [|e events IH]; intros m Hm; [done|].
    cbn [foldl]. apply IH. by apply all_step. }
  apply Hgoal. constructor.
Qed.

End JobFacts.

Section DatedFacts.
Import DownloadManager.

Lemma reachable_dated m : reachable m → every_job dated m.
Proof.
  apply all_reachable; unfold dated.
  - intros jobId u td cn now. split; cbn; [intros [?|?]|]; discriminate.
  - intros v j [Hc He]. by split.
  - intros v j [Hc He]. by split.
  - intros v j [Hc He]. by split.
  - intros v j [Hc He]. by split.
  - intros v j [Hc He]. by split.
  - intros v j [Hc He]. by split.
  - intros now j _. split; cbn; [intros [?|?]|]; discriminate.
  - intros j _. split; cbn; [intros [?|?]|]; discriminate.
  - intros result now j _. destruct result; split; cbn; try done; by eexists.
  - intros now j _. split; cbn; by eexists.
Qed.

End DatedFacts.

(** In every reachable state a job of the table that is [completed] or
    [failed] carries the time of its end in [completedAt], and a failed one
    an error; so [cleanup] removes every finished job from the table once
    that time is more than an hour past. *)
Theorem finished_jobs_are_reaped (m : DownloadManager.manager) (jobId : string)
    (r : nat) (j : DownloadManager.job) :
  DownloadManager.reachable m →
  DownloadManager.getJob m jobId = Some (r, j) →
  DownloadManager.status j = DownloadManager.completed
  ∨ DownloadManager.status j = DownloadManager.failed →
  ∃ t,
    DownloadManager.completedAt j = Some t
    ∧ (DownloadManager.status j = DownloadManager.failed →
       is_Some (DownloadManager.error j))
    ∧ ∀ now, t ≠ 0%Z → (t < now - 60 * 60 * 1000)%Z →
             DownloadManager.getJob (DownloadManager.cleanup now m) jobId = None.
Proof.
  intros Hreach Hget Hdone.
  apply reachable_table_ok in Hreach as Hok. apply reachable_dated in Hreach as Hall.
  assert (Hj : DownloadManager.heap m !! r = Some j).
  { unfold DownloadManager.getJob in Hget.
    destruct (DownloadManager.map_get _ _) as [r1|]; simpl in Hget; [|done].
    destruct (DownloadManager.heap m !! r1) eqn:E; simpl in Hget; [|done].
    by injection Hget as -> ->. }
  destruct (Forall_lookup_1 _ _ _ _ Hall Hj) as [Hdate Herr].
  destruct (Hdate Hdone) as [t Ht]. exists t. split; [done|]. split; [done|].
  intros now H0 Hold.
  unfold DownloadManager.getJob, DownloadManager.cleanup.
  cbn [DownloadManager.jobs DownloadManager.heap DownloadManager.with_jobs].
  rewrite map_get_filter by apply Hok.
  unfold DownloadManager.getJob in Hget.
  destruct (DownloadManager.map_get (DownloadManager.jobs m) jobId) as [r1|];
    simpl in Hget; [|done].
  destruct (DownloadManager.heap m !! r1) as [j1|] eqn:E; simpl in Hget; [|done].
  injection Hget as -> ->. cbn [snd].
  rewrite decide_False; [done|].
  unfold DownloadManager.kept, DownloadManager.expired. rewrite E, Ht.
  assert (Hterm : bool_decide (DownloadManager.status j = DownloadManager.completed)
                  || bool_decide (DownloadManager.status j = DownloadManager.failed)
                  = true).
  { destruct Hdone as [-> | ->]; done. }
  rewrite Hterm. cbn [andb].
  destruct (t =? 0)%Z eqn:Hz; [apply Z.eqb_eq in Hz; done|].
  destruct (t <? now - 60 * 60 * 1000)%Z eqn:Hlt; [done|].
  apply Z.ltb_ge in Hlt. lia.
Qed.

(** A download that failed at time 4 is removed by a [cleanup] more than an
    hour later. *)
Lemma finished_jobs_are_reaped_witness :
  let m :=
    DownloadManager.run DownloadManager.init
      [DownloadManager.CreateJob "a" "https://host/a.mbtiles" "/charts" "" 1;
       DownloadManager.Response 0 200 None None None 3;
       DownloadManager.FileError 0 "ENOSPC" 4] in
  DownloadManager.getJob (DownloadManager.cleanup 3600005 m) "dl_1_a" = None
  ∧ ∃ r j, DownloadManager.getJob (DownloadManager.cleanup 3600004 m) "dl_1_a"
           = Some (r, j).
Proof.
  intros m.
  assert (Hget : ∃ r j, DownloadManager.getJob m "dl_1_a" = Some (r, j)
                        ∧ DownloadManager.status j = DownloadManager.failed
                        ∧ DownloadManager.completedAt j = Some 4%Z).
  { eexists _, _. split; [vm_compute; reflexivity|]. split; reflexivity. }
  destruct Hget as (r & j & Hget & Hfailed & Hat).
  destruct (finished_jobs_are_reaped m "dl_1_a" r j) as (t & Ht & _ & Hreap).
  - eexists; reflexivity.
  - exact Hget.
  - by right.
  - assert (t = 4%Z) as -> by congruence.
    split; [apply Hreap; lia|]. eexists _, _. vm_compute. reflexivity.
Defined.

(** ** The plugin: the folder of a download *)

Section ClimbedFacts.
Import Str Routes.

(** Where a parameter of [..] segments leads, and that the path check
    refuses it. *)
Lemma join_climbed (dirs : list string) (k : nat) :
  dirs ≠ [] → Forall plain dirs → (0 < k)%nat →
  let basePath := "/" +:+ join "/" dirs in
  let target := match take (length dirs - k) dirs with
                | [] => "/"
                | q => "/" +:+ join "/" q
                end in
  Path.join [basePath; join "/" (replicate k "..")] = target
  ∧ withinBase basePath target = false.
Proof.
  intros Hne Hdirs Hk basePath target.
  assert (Hbase : Path.normalize basePath = basePath) by (by apply normalize_plain).
  assert (Hslash : Forall (λ s, Path.slash ∉ chars s) (replicate k "..")).
  { apply Forall_replicate. by_computation. }
  assert (Hps : replicate k ".." ≠ []) by (destruct k; [lia|done]).
  assert (Hall : Forall (λ s, Path.slash ∉ chars s) (dirs ++ replicate k "..")).
  { apply Forall_app. split; [by apply plain_slash_free|done]. }
  assert (Hlast : bool_decide (last (dirs ++ replicate k "..") = Some "") = false).
  { apply bool_decide_eq_false_2.
    destruct k as [|k']; [lia|]. rewrite replicate_S_end, app_assoc, last_snoc.
    discriminate. }
  assert (Hfull : Path.join [basePath; join "/" (replicate k "..")] = target).
  { unfold basePath. rewrite join_rooted; try done.
    - rewrite normalize_rooted by (by try destruct dirs).
      rewrite normalize_segments_plain by (by apply plain_kept).
      rewrite app_nil_r, normalize_segments_climb by (by apply Forall_rev).
      rewrite skipn_rev, rev_involutive, Hlast. unfold target.
      destruct (take (length dirs - k) dirs); [done|]. by rewrite append_empty_r.
    - apply join_nonempty; [done|]. apply Forall_replicate. done. }
  split; [exact Hfull|].
  set (i := (length dirs - k)%nat) in *.
  assert (Hi : (i < length dirs)%nat).
  { unfold i. destruct dirs; [done|]. simpl. lia. }
  pose proof (length_join_take dirs i Hdirs Hi) as Hlen.
  assert (Htake : Forall plain (take i dirs)).
  { rewrite Forall_forall in Hdirs. apply Forall_forall. intros s Hs. apply Hdirs.
    eapply elem_of_sublist; [exact Hs|apply sublist_take]. }
  unfold withinBase. rewrite Hbase.
  apply not_true_is_false. intros Hpre.
  assert (Hshort : ∀ full,
            (length (chars full) ≤ S (length (chars (join "/" (take i dirs)))))%nat →
            startsWith full basePath = true → False).
  { intros full Hfl Hst. apply prefix_of_length in Hst.
    unfold basePath in Hst.
    change (chars ("/" +:+ join "/" dirs))
      with (Path.slash :: chars (join "/" dirs)) in Hst.
    simpl in Hst. lia. }
  unfold target in Hpre. destruct (take i dirs) as [|s q] eqn:Ht.
  - apply (Hshort "/"); [simpl; lia|done].
  - rewrite normalize_plain in Hpre by done.
    eapply Hshort; [|exact Hpre].
    change (chars ("/" +:+ join "/" (s :: q)))
      with (Path.slash :: chars (join "/" (s :: q))).
    simpl. lia.
Qed.

End ClimbedFacts.

(** The handler that starts a download does not make the path check of the
    other handlers. For a chart directory [/d1/../dn] and the target folder
    [../..] of [k] segments it creates, whenever the directory exists or
    can be made, a download job whose target directory is
    [/d1/../d(n-k)] (or [/]), a path that the check refuses. When the
    configuration names no chart path the request fails, whatever its
    fields are. *)
Theorem download_folder_is_not_checked (dirs : list string) (k : nat)
    (exists_ mkdir_ok : string → bool) (rnd : string) (now : Z)
    (downloadUrl chartName : string) (m : DownloadManager.manager) :
  dirs ≠ [] → Forall Routes.plain dirs → (0 < k)%nat →
  let basePath := "/" +:+ Str.join "/" dirs in
  let targetDir := match take (length dirs - k) dirs with
                   | [] => "/"
                   | q => "/" +:+ Str.join "/" q
                   end in
  let created now' :=
    DownloadManager.createJob rnd downloadUrl targetDir chartName now' m in
  (exists_ targetDir || mkdir_ok targetDir = true →
   Plugin.downloadChartLocker (Some basePath) exists_ mkdir_ok rnd now downloadUrl
     (Str.join "/" (replicate k "..")) chartName m
   = ((created now).1, Some (created now).2))
  ∧ Routes.withinBase basePath targetDir = false
  ∧ (∀ targetFolder,
       Plugin.downloadChartLocker None exists_ mkdir_ok rnd now downloadUrl targetFolder
         chartName m = (m, None)).
Proof.
  intros Hne Hdirs Hk basePath targetDir created.
  destruct (join_climbed dirs k Hne Hdirs Hk) as [Hjoin Hout].
  split; [|split; [exact Hout|]].
  - intros Hdir. unfold Plugin.downloadChartLocker, created.
    unfold targetDir, basePath in *.
    rewrite decide_False.
    + cbn [fmap option_fmap option_map]. rewrite Hjoin. by rewrite Hdir.
    + destruct k as [|[|k']]; [lia|done|done].
  - intros targetFolder. unfold Plugin.downloadChartLocker. by case_decide.
Qed.

(** A download into the folder [..] of the chart directory [/data/charts]
    is written to [/data]. *)
Lemma download_folder_is_not_checked_witness :
  let m :=
    (Plugin.downloadChartLocker (Some "/data/charts") (λ _, true) (λ _, true) "a" 1
       "https://host/x.mbtiles" ".." "" DownloadManager.init).1 in
  DownloadManager.fs_calls
    (DownloadManager.step m (DownloadManager.Response 0 200 None None None 2))
  = [DownloadManager.CreateWriteStream "/data/x.mbtiles"]
  ∧ Routes.withinBase "/data/charts" "/data" = false.
Proof.
  intros m.
  destruct (download_folder_is_not_checked ["data"; "charts"] 1 (λ _, true) (λ _, true)
              "a" 1 "https://host/x.mbtiles" "" DownloadManager.init)
    as (Hjob & Hout & _).
  - discriminate.
  - repeat constructor; try discriminate; by_computation.
  - lia.
  - split; [|exact Hout]. unfold m.
    change ".." with (Str.join "/" (replicate 1 "..")).
    change "/data/charts" with ("/" +:+ Str.join "/" ["data"; "charts"]).
    rewrite Hjob by reflexivity. vm_compute. reflexivity.
Defined.

(** ** The download manager: the files of an archive *)

Section ArchiveFilesFacts.
Import DownloadManager.



























End ArchiveFilesFacts.

Section ClosedFacts.
Import DownloadManager.


End ClosedFacts.



(** ** The plugin: the tile route *)

Section ParseFacts.
Import Str Plugin.

Lemma digit_value_decimal c :
  (48 ≤ nat_of_ascii c ≤ 57)%nat →
  Num.digit_value 10 c = Some (Z.of_nat (nat_of_ascii c) - 48)%Z.
Proof.
  intros Hc. unfold Num.digit_value.
  destruct (_ && _) eqn:H1.
  - cbn. destruct (_ <? 10)%Z eqn:H2; [done|]. apply Z.ltb_ge in H2. lia.
  - apply andb_false_iff in H1 as [H1|H1]; [apply Z.leb_gt in H1|apply Z.leb_gt in H1];
      lia.
Qed.

Lemma take_digits_all l count acc :
  Forall (λ c, (48 ≤ nat_of_ascii c ≤ 57)%nat) l →
  Num.take_digits 10 l count acc = ((count + Z.of_nat (length l))%Z, read acc l, []).
Proof.
  intros Hl. revert count acc. induction Hl as [|c l Hc Hl IH]; intros count acc.
  - cbn. by rewrite Z.add_0_r.
  - cbn [Num.take_digits]. rewrite digit_value_decimal by done. rewrite IH.
    cbn [length read foldl]. f_equal. f_equal. lia.
Qed.

Lemma digit_char_value d :
  (0 ≤ d < 10)%Z → (Z.of_nat (nat_of_ascii (Num.digit_char d)) - 48 = d)%Z.
Proof.
  intros Hd.
  assert (d = 0 ∨ d = 1 ∨ d = 2 ∨ d = 3 ∨ d = 4 ∨ d = 5 ∨ d = 6 ∨ d = 7
          ∨ d = 8 ∨ d = 9)%Z as Hcases by lia.
  repeat (destruct Hcases as [->|Hcases]; [reflexivity|]).
  by subst d.
Qed.

Lemma read_digits_fuel fuel z acc :
  (0 ≤ z < 10 ^ Z.of_nat fuel)%Z →
  read 0 (Num.digits_fuel fuel z acc) = read z acc.
Proof.
  revert z acc. induction fuel as [|fuel IH]; intros z acc Hz.
  - cbn. change (10 ^ Z.of_nat 0)%Z with 1%Z in Hz. by replace z with 0%Z by lia.
  - cbn [Num.digits_fuel]. destruct (z <? 10)%Z eqn:Hlt.
    + apply Z.ltb_lt in Hlt. cbn [read foldl].
      rewrite digit_char_value by lia. reflexivity.
    + apply Z.ltb_ge in Hlt. rewrite IH.
      * cbn [read foldl]. rewrite digit_char_value by (apply Z.mod_pos_bound; lia).
        f_equal. pose proof (Z.div_mod z 10). lia.
      * rewrite Nat2Z.inj_succ, Z.pow_succ_r in Hz by lia.
        split; [apply Z.div_pos; lia|]. apply Z.div_lt_upper_bound; lia.
Qed.

Lemma read_digits z : (0 ≤ z)%Z → read 0 (Num.digits z) = z.
Proof.
  intros Hz. unfold Num.digits. rewrite read_digits_fuel; [done|].
  split; [done|].
  destruct (decide (z = 0%Z)) as [->|Hne]; [done|].
  pose proof (Z.log2_spec z ltac:(lia)) as [_ Hlog].
  pose proof (Z.log2_nonneg z) as Hnn.
  rewrite Nat2Z.inj_succ, Z2Nat.id by done.
  eapply Z.lt_le_trans; [exact Hlog|].
  apply Z.pow_le_mono_l. lia.
Qed.

(** A printed non-negative integer is read back. *)
Lemma parseInt_decimal z :
  (0 ≤ z ≤ 2 ^ 53)%Z → Num.parseInt_string (Num.decimal z) = Num.Int z.
Proof.
  intros Hz. unfold Num.decimal.
  destruct (z <? 0)%Z eqn:Hneg; [apply Z.ltb_lt in Hneg; lia|].
  unfold Num.parseInt_string. rewrite chars_of_chars.
  pose proof (digits_fuel_range (S (Z.to_nat (Z.log2 z))) z [] ltac:(lia)
                (Forall_nil_2 _)) as Hr.
  pose proof (digits_fuel_nonempty (S (Z.to_nat (Z.log2 z))) z []
                (or_intror (Nat.neq_succ_0 _))) as Hne.
  pose proof (read_digits z ltac:(lia)) as Hread.
  unfold Num.digits in *.
  destruct (Num.digits_fuel _ z []) as [|c l] eqn:Hd; [done|].
  apply Forall_cons in Hr as Hcl. destruct Hcl as [Hc Hl].
  assert (Hspace : is_space c = false).
  { unfold is_space.
    destruct (Nat.leb_spec 9 (nat_of_ascii c)), (Nat.leb_spec (nat_of_ascii c) 13),
      (Nat.eqb_spec (nat_of_ascii c) 32); cbn; try done; lia. }
  cbn [drop_spaces]. rewrite Hspace. cbn [Num.take_sign].
  rewrite decide_False by (intros ->; vm_compute in Hc; lia).
  rewrite decide_False by (intros ->; vm_compute in Hc; lia).
  assert (Hradix :
            match l with
            | x :: l' =>
                if bool_decide (c = "0"%char)
                   && (bool_decide (x = "x"%char) || bool_decide (x = "X"%char))
                then (16%Z, l') else (10%Z, c :: l)
            | [] => (10%Z, c :: l)
            end = (10%Z, c :: l)).
  { destruct l as [|x l']; [done|]. apply Forall_cons in Hl as [Hx _].
    rewrite (bool_decide_eq_false_2 (x = "x"%char))
      by (intros ->; vm_compute in Hx; lia).
    rewrite (bool_decide_eq_false_2 (x = "X"%char))
      by (intros ->; vm_compute in Hx; lia).
    by rewrite andb_false_r. }
  rewrite Hradix, take_digits_all by done. rewrite Hread.
  cbn [length]. destruct (_ =? 0)%Z eqn:Hcount; [apply Z.eqb_eq in Hcount; lia|].
  unfold Num.signed. destruct (z =? 0)%Z eqn:H0; [apply Z.eqb_eq in H0; by rewrite H0|].
  apply of_Z_safe. lia.
Qed.

End ParseFacts.

Section TileFacts.
Import Js Loader.

(** The file of a tile of a directory chart. *)
Lemma tileFile_plain cwd (provider : chart) (dirs : list string) (z x y : Z) :
  _filePath provider = "/" +:+ Str.join "/" dirs →
  dirs ≠ [] → Forall Routes.plain dirs →
  Path.slash ∉ Str.chars (Js.to_string (format provider)) →
  (0 ≤ z ≤ 53)%Z → (0 ≤ x ≤ 2 ^ 53)%Z → (0 ≤ y ≤ 2 ^ 53)%Z →
  Tiles.tileFile cwd provider (Num.Int z) (Num.Int x) (Num.Int y)
  = Some (_filePath provider +:+ "/" +:+ Num.decimal z +:+ "/" +:+ Num.decimal x
            +:+ "/"
            +:+ Num.decimal (if _flipY provider then (2 ^ z - 1 - y)%Z else y)
            +:+ "." +:+ Js.to_string (format provider)).
Proof.
  intros Hpath Hdirs Hplain Hformat Hz Hx Hy.
  unfold Tiles.tileFile.
  pose proof (flippedY_exact z y Hz Hy) as Hflip.
  destruct (Num.pow2 (Num.Int z)) as [p|]; simpl in Hflip |- *; [|done].
  injection Hflip as ->. f_equal.
  rewrite Hpath. change (Str.truthy ("/" +:+ ?s)) with true. cbv iota.
  change (Num.to_string (Num.Int ?n)) with (Num.decimal n).
  set (row := if _flipY provider then (2 ^ z - 1 - y)%Z else y).
  replace (Num.to_string (if _flipY provider
                          then Num.Int (2 ^ z - 1 - y) else Num.Int y))
    with (Num.decimal row) by (unfold row; by destruct (_flipY provider)).
  set (last := Num.decimal row +:+ "." +:+ Js.to_string (format provider)).
  change (Num.decimal z +:+ "/" +:+ Num.decimal x +:+ "/" +:+ last)
    with (Str.join "/" [Num.decimal z; Num.decimal x; last]).
  rewrite resolve_plain; try done.
  repeat constructor; try apply decimal_plain; by apply decimal_dot_plain.
Qed.

End TileFacts.

(** The tile route. A request whose coordinates are the decimal numerals
    of [z], [x] and [y] is answered, for a directory chart among the
    providers, with the file [<path of the chart>/<z>/<x>/<row>.<format>],
    [row] being [y] or, with the vertical flip, [2^z - 1 - y], or with
    status 404 when that file does not exist; for a container among the
    providers, with what the database gives for the numbers [z], [x], [y].
    An identifier that is no key of the providers is answered with status
    404, unless it is one of the names that objects inherit: then the
    answer is status 500. *)
Theorem tile_request_is_resolved (sendFile : string → Tiles.sendfile_outcome)
    (getTile : string → Num.number → Num.number → Num.number → Plugin.getTile_outcome)
    (cwd : string) (chartProviders : gmap string Loader.chart)
    (identifier : string) (provider : Loader.chart) (dirs : list string)
    (z x y : Z) :
  chartProviders !! identifier = Some provider →
  Loader._filePath provider = "/" +:+ Str.join "/" dirs →
  dirs ≠ [] → Forall Routes.plain dirs →
  Path.slash ∉ Str.chars (Js.to_string (Loader.format provider)) →
  (0 ≤ z ≤ 53)%Z → (0 ≤ x ≤ 2 ^ 53)%Z → (0 ≤ y ≤ 2 ^ 53)%Z →
  let request id :=
    Plugin.tileRoute sendFile getTile cwd chartProviders id
      (Num.decimal z) (Num.decimal x) (Num.decimal y) in
  let row := if Loader._flipY provider then (2 ^ z - 1 - y)%Z else y in
  let file :=
    Loader._filePath provider +:+ "/" +:+ Num.decimal z +:+ "/" +:+ Num.decimal x
      +:+ "/" +:+ Num.decimal row +:+ "." +:+ Js.to_string (Loader.format provider) in
  (Loader._fileFormat provider = "directory" →
   request identifier
   = Some (Plugin.FromFile
             match sendFile file with
             | Tiles.Delivered => Tiles.TileSent file
             | Tiles.Failed code =>
                 if decide (code = "ENOENT") then Tiles.SendStatus 404
                 else Tiles.Thrown code
             end))
  ∧ (Loader._fileFormat provider = "mbtiles" →
     request identifier
     = Some (Plugin.serveTileFromMbtiles getTile provider (Num.Int z) (Num.Int x) (Num.Int y)))
  ∧ (∀ other, chartProviders !! other = None →
       request other
       = Some (Plugin.TileStatus (if bool_decide (other ∈ ChartState.inherited_names)
                           then 500 else 404))).
Proof.
  intros Hprov Hpath Hdirs Hplain Hformat Hz Hx Hy request row file.
  assert (Hparse : Num.parseInt_string (Num.decimal z) = Num.Int z
                   ∧ Num.parseInt_string (Num.decimal x) = Num.Int x
                   ∧ Num.parseInt_string (Num.decimal y) = Num.Int y).
  { repeat split; apply parseInt_decimal; [|done|done].
    pose proof (pow2_safe z Hz). assert (2 ^ 53 = 9007199254740992)%Z by done. lia. }
  destruct Hparse as (Hpz & Hpx & Hpy).
  unfold request, Plugin.tileRoute. rewrite Hpz, Hpx, Hpy.
  split; [|split].
  - intros Hdir. unfold Plugin.getProvider. rewrite Hprov, decide_True by done.
    unfold Tiles.serveTileFromFilesystem.
    rewrite (tileFile_plain cwd provider dirs z x y) by done.
    fold row. fold file. cbn [mbind option_bind fmap option_fmap option_map].
    rewrite decide_False; [done|]. unfold file. rewrite Hpath. done.
  - intros Hmb. unfold Plugin.getProvider. rewrite Hprov.
    rewrite decide_False by (rewrite Hmb; discriminate). by rewrite decide_True.
  - intros other Hnone. unfold Plugin.getProvider. rewrite Hnone.
    by destruct (bool_decide _).
Qed.

(** The tile 3/4/5 of the flipped directory chart [osm], and a request for
    the chart [toString]. *)
Lemma tile_request_is_resolved_witness :
  let osm :=
    {| Loader._fileFormat := "directory"; Loader._filePath := "/charts/osm";
       Loader._mbtilesHandle := None; Loader._flipY := true;
       Loader.identifier := "osm"; Loader.name := Js.VStr "osm";
       Loader.description := Js.VStr ""; Loader.bounds := Js.VUndefined;
       Loader.minzoom := Js.VUndefined; Loader.maxzoom := Js.VUndefined;
       Loader.format := Js.VStr "png"; Loader.type := Js.VStr "tilelayer";
       Loader.scale := Js.VNum (Num.Int 250000);
       Loader.v1_tilemapUrl := ""; Loader.v1_chartLayers := [];
       Loader.v2_url := ""; Loader.v2_layers := [] |} in
  let route :=
    Plugin.tileRoute (λ _, Tiles.Delivered) (λ _ _ _ _, Plugin.TileError "") "/srv"
      {[ "osm" := osm ]} in
  route "osm" "3" "4" "5" = Some (Plugin.FromFile (Tiles.TileSent "/charts/osm/3/4/2.png"))
  ∧ route "toString" "3" "4" "5" = Some (Plugin.TileStatus 500)
  ∧ route "sea" "3" "4" "5" = Some (Plugin.TileStatus 404).
Proof.
  intros osm route.
  destruct (tile_request_is_resolved (λ _, Tiles.Delivered) (λ _ _ _ _, Plugin.TileError "")
              "/srv" {[ "osm" := osm ]} "osm" osm ["charts"; "osm"] 3 4 5)
    as (Hdir & _ & Hother).
  - apply lookup_singleton_eq.
  - reflexivity.
  - discriminate.
  - repeat constructor; try discriminate; by_computation.
  - by_computation.
  - lia.
  - lia.
  - lia.
  - split; [exact (Hdir eq_refl)|].
    split; [apply (Hother "toString")|apply (Hother "sea")];
      by apply lookup_singleton_ne.
Defined.
